(** * kextractor: line scanner, sorted report heap and scan coordinator

    A shallow embedding of package [file] (file.go and its predecessor built
    around [Data]) and of the aggregation loop of [main], together with the
    properties of the specification that are about them.

    Conventions.
    - Go's [int] is the 64-bit two's-complement integer, carried as [Z] by
      [wrap].
    - A [[]byte] is a [list byte]; a Go [string] is a [string] (a sequence of
      bytes in both languages).  [map[int][]byte] is a [gmap Z (list byte)].
    - A slice index is a [nat]; an access out of range panics in Go and is
      [None] here.
    - A nil pointer or a nil [error] is [None]. *)

From Stdlib Require Import ZArith ZifyNat String Ascii Strings.Byte List Lia Sorted Permutation.
From stdpp Require Import base option list gmap strings sorting.

Open Scope Z_scope.

(** ** Machine integers *)

Definition wrap (z : Z) : Z := (z + 2 ^ 63) mod 2 ^ 64 - 2 ^ 63.

(** [n++] on an [int]. *)
Definition incr (n : Z) : Z := wrap (n + 1).

(** ** Errors *)

(** An [errno] of the operating system, as [syscall.Errno] has it. *)
Definition Errno := Z.

Definition EACCES : Errno := 13.
Definition ENOENT : Errno := 2.
Definition EIO : Errno := 5.

(** The dynamic types an [error] value takes in this program: [io.EOF],
    [*os.PathError] (what [os.Open] and [Read] of an [os.File] return),
    [bufio.ErrTooLong] (what a [bufio.Scanner] reports for an over-long
    token) and [*syntax.Error] (what compiling a regular expression
    returns). *)
Inductive error : Type :=
  | io_EOF
  | PathError (op : string) (name : string) (err : Errno)
  | bufio_ErrTooLong
  | syntax_Error (code : string) (expr : string).

#[global] Instance error_eq_dec : EqDecision error.
Proof. solve_decision. Defined.

(** ** The operating system as [Scan] sees it *)

(** How reading a file ends: at its end, or with the [errno] of a failed
    [read]. *)
Inductive ReadEnd : Type :=
  | AtEOF
  | ReadFailed (err : Errno).

(** What [bufio.Reader.ReadLine] returns over the life of one reader: the
    successful results [(chunk, isPrefix)] in order, and then the error
    every later call returns. *)
Record Reader : Type := mkReader {
  results : list (list byte * bool);
  ending : ReadEnd
}.

(** [os.Open]: the [errno] of the failed [open], or the file, given by what
    a [bufio.Reader] over it will return. *)
Definition FileSystem : Type := string -> Errno + Reader.

Definition readError (name : string) (e : ReadEnd) : error :=
  match e with
  | AtEOF => io_EOF
  | ReadFailed err => PathError "read" name err
  end.

(** ** Compiled patterns *)

(** A [*regexp.Regexp]: its source text and the language it decides on byte
    slices ([Regexp.Match]). *)
Record Regexp : Type := mkRegexp {
  expr : string;
  Match : list byte -> bool
}.

(** ** [File] *)

Record File : Type := mkFile {
  path : string;
  matchRegex : option Regexp;
  ignoreRegex : option Regexp;
  matchedLines : gmap Z (list byte);
  scanError : option error
}.

Definition set_scanError (f : File) (e : error) : File :=
  mkFile (path f) (matchRegex f) (ignoreRegex f) (matchedLines f) (Some e).

Definition set_matchedLine (f : File) (lineNumber : Z) (line : list byte) : File :=
  mkFile (path f) (matchRegex f) (ignoreRegex f)
         (<[lineNumber := line]> (matchedLines f)) (scanError f).

(** [f.ignoreRegex != nil && f.ignoreRegex.Match(line)] *)
Definition ignored (f : File) (line : list byte) : bool :=
  match ignoreRegex f with
  | Some ig => Match ig line
  | None => false
  end.

(** The [for] loop of [Scan] (file.go, lines 50-77).  [rs] is what the
    remaining calls of [ReadLine] return, [line] and [lineNumber] are the
    loop's variables, [m] is [f.matchRegex], known not to be nil. *)
Fixpoint scanLoop (m : Regexp) (name : string) (rs : list (list byte * bool))
    (e : ReadEnd) (line : list byte) (lineNumber : Z) (f : File) : File :=
  match rs with
  | [] =>
      let err := readError name e in
      if decide (err <> io_EOF) then set_scanError f err else f
  | (chunk, isPrefix) :: rs' =>
      let line := line ++ chunk in
      if isPrefix then scanLoop m name rs' e line lineNumber f
      else
        let lineNumber := incr lineNumber in
        if ignored f line then scanLoop m name rs' e [] lineNumber f
        else
          let f := if Match m line then set_matchedLine f lineNumber line else f in
          scanLoop m name rs' e [] lineNumber f
  end.

(** [func (f *File) Scan()] *)
Definition Scan (fs : FileSystem) (f : File) : File :=
  match matchRegex f with
  | None => f
  | Some m =>
      match fs (path f) with
      | inl err => set_scanError f (PathError "open" (path f) err)
      | inr r => scanLoop m (path f) (results r) (ending r) [] 0 f
      end
  end.

Definition Path (f : File) : string := path f.
Definition Error (f : File) : option error := scanError f.
Definition MatchedLines (f : File) : gmap Z (list byte) := matchedLines f.

(** The [File] a task of [ScanFiles] builds (file.go, line 162). *)
Definition newFile (filePath : string) (m ig : option Regexp) : File :=
  mkFile filePath m ig ∅ None.

(** What [fmt] writes, one value per line of output. *)
Inductive Output : Type :=
  | Println (s : string)
  | PrintfLine (lineNumber : Z) (lineText : list byte).

(** [func (f *File) printMatchedLines()]: the keys of the map, sorted by
    [sort.Ints], then one line of output per key. *)
Definition printMatchedLines (f : File) : list Output :=
  let lineNumbers := merge_sort Z.le (fst <$> map_to_list (matchedLines f)) in
  omap (fun lineNumber =>
          lineText ← matchedLines f !! lineNumber;
          Some (PrintfLine lineNumber lineText)) lineNumbers.

(** ** [Heap]: the [heap.Interface] of a slice of files *)

Abbreviation Heap := (list File).

Definition Len (h : Heap) : nat := length h.

(** [h[i].path < h[j].path]; Go compares strings byte by byte. *)
Definition Less (h : Heap) (i j : nat) : option bool :=
  a ← h !! i; b ← h !! j; Some (String.ltb (path a) (path b)).

(** [h[i], h[j] = h[j], h[i]] *)
Definition Swap (h : Heap) (i j : nat) : option Heap :=
  a ← h !! i; b ← h !! j; Some (<[j := a]> (<[i := b]> h)).

Definition Push (h : Heap) (x : File) : Heap := h ++ [x].

Definition Pop (h : Heap) : option (Heap * File) :=
  match length h with
  | O => None
  | S n' => element ← h !! n'; Some (take n' h, element)
  end.

(** ** Package [container/heap] over a [Heap]

    The loops of [up] and [down] are bounded by a fuel the callers choose
    large enough; [None] is a panic of the Go code, or no fuel. *)

(** [func up(h Interface, j int)].  [(j - 1) / 2] is [0] at [j = 0] in Go
    (division truncates) as it is on [nat]. *)
Fixpoint up (fuel : nat) (h : Heap) (j : nat) : option Heap :=
  match fuel with
  | O => None
  | S fuel' =>
      let i := ((j - 1) / 2)%nat in
      if decide (i = j) then Some h
      else
        lt ← Less h j i;
        if negb lt then Some h
        else h' ← Swap h i j; up fuel' h' i
  end.

(** [func down(h Interface, i0, n int) bool], without the boolean, which
    [Pop] and [Init] drop.  Go's test [j1 < 0] catches the overflow of
    [2*i + 1]; the sum does not overflow on [nat] and is then [>= n]. *)
Fixpoint down (fuel : nat) (h : Heap) (i n : nat) : option Heap :=
  match fuel with
  | O => None
  | S fuel' =>
      let j1 := (2 * i + 1)%nat in
      if decide (n ≤ j1)%nat then Some h
      else
        let j2 := (j1 + 1)%nat in
        right ← (if decide (j2 < n)%nat then Less h j2 j1 else Some false);
        let j := if right : bool then j2 else j1 in
        lt ← Less h j i;
        if negb lt then Some h
        else h' ← Swap h i j; down fuel' h' j n
  end.

(** [func Init(h Interface)]: [down(h, i, n)] for [i] from [n/2 - 1] to [0]. *)
Definition heap_Init (h : Heap) : option Heap :=
  let n := Len h in
  foldl (fun acc i => h' ← acc; down n h' i n) (Some h) (reverse (seq 0 (n / 2))).

(** [func Push(h Interface, x any)] *)
Definition heap_Push (h : Heap) (x : File) : option Heap :=
  let h' := Push h x in
  up (Len h') h' (Len h' - 1).

(** [func Pop(h Interface) any] *)
Definition heap_Pop (h : Heap) : option (Heap * File) :=
  match Len h with
  | O => None
  | S n =>
      h1 ← Swap h 0 n;
      h2 ← down (S n) h1 0 n;
      Pop h2
  end.

(** The loop of [func (h Heap) Print()]: the files in the order [heap.Pop]
    returns them. *)
Fixpoint popAll (fuel : nat) (h : Heap) : option (list File) :=
  match Len h with
  | O => Some []
  | S _ =>
      match fuel with
      | O => None
      | S fuel' =>
          '(h', f) ← heap_Pop h;
          rest ← popAll fuel' h';
          Some (f :: rest)
      end
  end.

Definition printFile (f : File) : list Output :=
  Println (Path f) :: printMatchedLines f.

(** [func (h Heap) Print()], as what it writes. *)
Definition Print (h : Heap) : option (list Output) :=
  fs ← popAll (Len h) h; Some (fs ≫= printFile).

(** The heap after [heap.Push] of each file of [fs] in turn, from an empty
    heap, as [main] fills it. *)
Definition pushAll (fs : list File) : option Heap :=
  foldl (fun acc f => h ← acc; heap_Push h f) (heap_Init []) fs.

(** ** The aggregation loop of [main] *)

(** Modelled from the spec: [main] reads the MatchSet of a result through
    [FoundLines], an accessor of a version of package [file] that is not
    among the sources; the accessor of the MatchSet here is
    [MatchedLines]. *)
Definition FoundLines (f : File) : gmap Z (list byte) := MatchedLines f.

Record Options : Type := mkOptions {
  Verbose : bool;
  ErrorOnly : bool
}.

Inductive Report : Type :=
  | ScanningError (filePath : string) (err : error).

(** The variables the loop updates: the heap [filesContainingKorean], the
    counter [scanErrorsCnt], and what it printed.  [main] declares the heap
    as a [file.SortedFiles], the name [Heap] has in its version of the
    package. *)
Record Aggregate : Type := mkAggregate {
  filesContainingKorean : Heap;
  scanErrorsCnt : Z;
  printed : list Report
}.

(** The body of [for f := range file.ScanFiles(...)] (lines 256-266). *)
Definition aggregate (opts : Options) (a : Aggregate) (f : File) : option Aggregate :=
  match Error f with
  | Some err =>
      let out := if Verbose opts || ErrorOnly opts
                 then printed a ++ [ScanningError (Path f) err] else printed a in
      Some (mkAggregate (filesContainingKorean a) (incr (scanErrorsCnt a)) out)
  | None =>
      if decide (0 < size (FoundLines f))%nat then
        h ← heap_Push (filesContainingKorean a) f;
        Some (mkAggregate h (scanErrorsCnt a) (printed a))
      else Some a
  end.

(** [filesContainingKorean] after [heap.Init], [scanErrorsCnt] at zero. *)
Definition aggregate0 : option Aggregate :=
  h ← heap_Init []; Some (mkAggregate h 0 []).

(** ** [ScanFiles]: one goroutine per path, a wait group and a channel

    The goroutines are run by a scheduler that picks, at each step, one of
    them to take its next step.  The channel [cp] is unbuffered: a task's
    send and the consumer's receive are one step. *)

Inductive Event : Type :=
  | Before (filePath : string)
  | After (filePath : string).

(** Where the goroutine of one path stands. *)
Inductive Task : Type :=
  | Spawned (filePath : string)
  | Scanning (filePath : string)
  | Sending (f : File)
  | Sent
  | Finished.

Record Coordinator : Type := mkCoordinator {
  tasks : list Task;
  wg : Z;
  closed : bool;
  received : list File;
  events : list Event
}.

(** The scheduler's choice: the goroutine of the [i]-th path, or the
    goroutine that waits and closes. *)
Inductive Choice : Type :=
  | RunTask (i : nat)
  | RunCloser.

Section ScanFiles.
Variable fs : FileSystem.
Variables m ig : option Regexp.

(** The state [ScanFiles] returns in: [wg.Add(len(filePaths))] done, every
    goroutine created. *)
Definition ScanFiles (filePaths : list string) : Coordinator :=
  mkCoordinator (Spawned <$> filePaths) (Z.of_nat (length filePaths)) false [] [].

Definition set_task (c : Coordinator) (i : nat) (t : Task) : Coordinator :=
  mkCoordinator (<[i := t]> (tasks c)) (wg c) (closed c) (received c) (events c).

Definition log (c : Coordinator) (e : Event) : Coordinator :=
  mkCoordinator (tasks c) (wg c) (closed c) (received c) (events c ++ [e]).

(** One step of the goroutine of the [i]-th path: [beforeFn]; [Scan] and
    [afterFn]; the send on [cp], which panics on a closed channel; the
    deferred [wg.Done()]. *)
Definition stepTask (i : nat) (c : Coordinator) : option Coordinator :=
  t ← tasks c !! i;
  match t with
  | Spawned filePath => Some (log (set_task c i (Scanning filePath)) (Before filePath))
  | Scanning filePath =>
      let f := Scan fs (newFile filePath m ig) in
      Some (log (set_task c i (Sending f)) (After filePath))
  | Sending f =>
      if closed c then None
      else Some (mkCoordinator (<[i := Sent]> (tasks c)) (wg c) (closed c)
                               (received c ++ [f]) (events c))
  | Sent =>
      if decide (wg c - 1 < 0) then None
      else Some (mkCoordinator (<[i := Finished]> (tasks c)) (wg c - 1) (closed c)
                               (received c) (events c))
  | Finished => None
  end.

(** [wg.Wait()] returns once the counter is zero; then [close(cp)]. *)
Definition stepCloser (c : Coordinator) : option Coordinator :=
  if decide (wg c = 0) then
    if closed c then None
    else Some (mkCoordinator (tasks c) (wg c) true (received c) (events c))
  else None.

Definition step (ch : Choice) (c : Coordinator) : option Coordinator :=
  match ch with
  | RunTask i => stepTask i c
  | RunCloser => stepCloser c
  end.

(** A run under a schedule; [None] when a choice cannot take a step. *)
Fixpoint run (schedule : list Choice) (c : Coordinator) : option Coordinator :=
  match schedule with
  | [] => Some c
  | ch :: schedule' => c' ← step ch c; run schedule' c'
  end.
End ScanFiles.

(** ** [Data]: the scanner that takes its pattern as a string *)

Module data.

(** What a [bufio.Scanner] over a file yields: the lines [Scan] and [Text]
    give, then the error [Err] reports, nil at the end of the file. *)
Record Scanner : Type := mkScanner {
  tokens : list string;
  err : option error
}.

Definition FileSystem : Type := string -> Errno + Scanner.

(** [regexp.Compile]: the code and the offending expression of a
    [*syntax.Error], or the language of the compiled pattern. *)
Definition Compiler : Type := string -> (string * string) + (string -> bool).

(** [regexp.MatchString(pattern, s)] *)
Definition MatchString (compile : Compiler) (pattern s : string) : bool * option error :=
  match compile pattern with
  | inl (code, e) => (false, Some (syntax_Error code e))
  | inr re => (re s, None)
  end.

Record Data : Type := mkData {
  path : string;
  matchString : string;
  linesContainingMatchString : gmap Z string;
  isScanned : bool;
  ScanError : option error
}.

(** [func New(path string, matchString string) *Data] *)
Definition New (path matchString : string) : Data :=
  mkData path matchString ∅ false None.

Definition set_ScanError (d : Data) (e : error) : Data :=
  mkData (path d) (matchString d) (linesContainingMatchString d) (isScanned d) (Some e).

Definition set_line (d : Data) (lineNumber : Z) (lineText : string) : Data :=
  mkData (path d) (matchString d)
         (<[lineNumber := lineText]> (linesContainingMatchString d))
         (isScanned d) (ScanError d).

Definition set_isScanned (d : Data) : Data :=
  mkData (path d) (matchString d) (linesContainingMatchString d) true (ScanError d).

(** The loop [for scanner.Scan()] of [Scan] (lines 42-58): [inl] when the
    function returned from inside the loop, [inr] when the loop ended. *)
Fixpoint scanLoop (compile : Compiler) (fn : string -> bool)
    (tokens : list string) (lineNumber : Z) (d : Data) : Data + Data :=
  match tokens with
  | [] => inr d
  | lineText :: tokens' =>
      if fn lineText then scanLoop compile fn tokens' (incr lineNumber) d
      else
        match MatchString compile (matchString d) lineText with
        | (_, Some e) => inl (set_ScanError d e)
        | (matched, None) =>
            let d := if matched then set_line d lineNumber lineText else d in
            scanLoop compile fn tokens' (incr lineNumber) d
        end
  end.

(** [func (d *Data) Scan(fn isComment)] *)
Definition Scan (fs : FileSystem) (compile : Compiler) (fn : string -> bool)
    (d : Data) : Data :=
  match fs (path d) with
  | inl errno => set_ScanError d (PathError "open" (path d) errno)
  | inr scanner =>
      match scanLoop compile fn (tokens scanner) 1 d with
      | inl d' => d'
      | inr d' =>
          match err scanner with
          | Some e => set_ScanError d' e
          | None => set_isScanned d'
          end
      end
  end.

(** [func (d *Data) HasMatchedString() bool] *)
Definition HasMatchedString (d : Data) : bool :=
  if negb (isScanned d) then false
  else bool_decide (0 < size (linesContainingMatchString d))%nat.

End data.

(** ** Package [bufio]: [ReadLine] over a regular file

    The reader [bufio.NewReader] builds over a file whose reads do not fail:
    a [Read] returns as many bytes as the buffer has room for, fewer at the
    end of the file, and [0, io.EOF] past it. *)

Module bufio.

Definition defaultBufSize : nat := 4096.

Record State : Type := mkState {
  buffered : list byte;     (* b.buf[b.r:b.w] *)
  atEOF : bool;             (* b.err == io.EOF *)
  unread : list byte        (* what the file still holds *)
}.

Inductive SliceError : Type :=
  | Nil
  | ErrBufferFull
  | EOF.

(** The index of the first line feed, as [bytes.IndexByte(..., '\n')]. *)
Fixpoint IndexByte (s : list byte) : option nat :=
  match s with
  | [] => None
  | c :: s' => if Byte.eqb c x0a then Some O else S <$> IndexByte s'
  end.

(** [func (b *Reader) ReadSlice(delim byte)] at the delimiter ['\n'], with
    [fill] written in place. *)
Fixpoint ReadSlice (fuel size : nat) (b : State) : option (list byte * SliceError * State) :=
  match fuel with
  | O => None
  | S fuel' =>
      match IndexByte (buffered b) with
      | Some i =>
          Some (take (S i) (buffered b), Nil,
                mkState (drop (S i) (buffered b)) (atEOF b) (unread b))
      | None =>
          if atEOF b then Some (buffered b, EOF, mkState [] false (unread b))
          else if decide (size ≤ length (buffered b))%nat
          then Some (buffered b, ErrBufferFull, mkState [] (atEOF b) (unread b))
          else
            let n := Nat.min (size - length (buffered b)) (length (unread b)) in
            match n with
            | O => ReadSlice fuel' size (mkState (buffered b) true (unread b))
            | S _ => ReadSlice fuel' size
                       (mkState (buffered b ++ take n (unread b)) false (drop n (unread b)))
            end
      end
  end.

(** [line[:len(line)-drop]] for a line that ends in ["\n"] or ["\r\n"]. *)
Definition dropEOL (line : list byte) : list byte :=
  match reverse line with
  | c :: c' :: _ =>
      if Byte.eqb c x0a then
        if Byte.eqb c' x0d then take (length line - 2) line
        else take (length line - 1) line
      else line
  | [c] => if Byte.eqb c x0a then [] else line
  | [] => line
  end.

(** [func (b *Reader) ReadLine()]: the line, [isPrefix], whether the
    error is [io.EOF] (it is nil otherwise), and the reader after. *)
Definition ReadLine (size : nat) (b : State) : option (list byte * bool * bool * State) :=
  '(line, e, b') ← ReadSlice 4 size b;
  match e with
  | ErrBufferFull =>
      match reverse line with
      | c :: _ =>
          if Byte.eqb c x0d
          then Some (take (length line - 1) line, true, false,
                     mkState [x0d] (atEOF b') (unread b'))
          else Some (line, true, false, b')
      | [] => Some (line, true, false, b')
      end
  | _ =>
      match line with
      | [] => Some ([], false, match e with EOF => true | _ => false end, b')
      | _ :: _ => Some (dropEOL line, false, false, b')
      end
  end.

(** The results of calling [ReadLine] until it returns an error. *)
Fixpoint readLines (fuel size : nat) (b : State) : option (list (list byte * bool)) :=
  match fuel with
  | O => None
  | S fuel' =>
      '(line, isPrefix, eof, b') ← ReadLine size b;
      if eof : bool then Some []
      else rs ← readLines fuel' size b'; Some ((line, isPrefix) :: rs)
  end.

(** The reader [bufio.NewReader(file)] is, for a file of the given
    content. *)
Definition NewReader (content : list byte) : option Reader :=
  rs ← readLines (length content + 2) defaultBufSize (mkState [] false content);
  Some (mkReader rs AtEOF).

End bufio.

(** A file system with one regular file. *)
Definition oneFile (name : string) (r : Reader) : FileSystem :=
  fun p => if String.eqb p name then inr r else inl ENOENT.

(** ** The patterns of the examples, by the languages they decide *)

(** [[^\x00-\x7F]]: some character of the line is not ASCII, that is, some
    byte is [0x80] or more. *)
Definition nonASCII : Regexp :=
  mkRegexp "[^\x00-\x7F]" (existsb (fun c => (128 <=? Byte.to_N c)%N)).

(** [^//]: the line starts with two slashes. *)
Definition slashes : Regexp :=
  mkRegexp "^//"
    (fun line => match line with
                 | c :: c' :: _ => Byte.eqb c x2f && Byte.eqb c' x2f
                 | _ => false
                 end).

Definition bytes (s : string) : list byte := list_byte_of_string s.


(** ** Logical lines

    What the specification calls the logical lines of a file: each run of
    prefix chunks together with the chunk that ends it.  [line] is what an
    unfinished run has gathered so far. *)
Fixpoint logicalLines (rs : list (list byte * bool)) (line : list byte) : list (list byte) :=
  match rs with
  | [] => []
  | (chunk, isPrefix) :: rs' =>
      if isPrefix then logicalLines rs' (line ++ chunk)
      else (line ++ chunk) :: logicalLines rs' []
  end.

(** A line enters the MatchSet when the ignore pattern is unset or does not
    match it and the match pattern matches it. *)
Definition selected (m : Regexp) (ig : option Regexp) (line : list byte) : bool :=
  negb (match ig with Some r => Match r line | None => false end) && Match m line.

(** The MatchSet of a list of logical lines, the line before the first one
    having number [lineNumber]. *)
Fixpoint recordLines (m : Regexp) (ig : option Regexp) (ls : list (list byte))
    (lineNumber : Z) (ms : gmap Z (list byte)) : gmap Z (list byte) :=
  match ls with
  | [] => ms
  | l :: ls' =>
      let n := incr lineNumber in
      recordLines m ig ls' n (if selected m ig l then <[n := l]> ms else ms)
  end.

(** The files of the examples. *)
Definition commentedFile : list byte :=
  bytes "// αβγ" ++ [x0a] ++ bytes "δεζ" ++ [x0a].

(** [8192] bytes of text that is not ASCII, on one line that no line feed
    ends: twice the size of the buffer of [bufio.NewReader]. *)
Definition longLastLine : list byte := mjoin (replicate 4096 (bytes "é")).

(** ** The order of the report

    [pathLt a b] is [a.path < b.path] of [Less]; [pathLe] is its negation
    the other way round. *)
Definition pathLt (a b : File) : Prop := String.ltb (path a) (path b) = true.
Definition pathLe (a b : File) : Prop := String.ltb (path b) (path a) = false.

(** The index [up] moves to from [j]. *)
Definition parent (j : nat) : nat := ((j - 1) / 2)%nat.

(** [h[p] <= h[k]], for the indices that are in range. *)
Definition ordered (h : Heap) (p k : nat) : Prop :=
  forall a b, h !! p = Some a -> h !! k = Some b -> pathLe a b.

(** The first [n] files of [h] are a heap: none is less than its parent. *)
Definition heapOrdered (n : nat) (h : Heap) : Prop :=
  forall k, (0 < k < n)%nat -> ordered h (parent k) k.

(** What [up] keeps true of [h] and [j]: a heap but for the file at [j],
    which may be less than its parent, the children of [j] being no less
    than the parent of [j]. *)
Definition upInv (h : Heap) (j : nat) : Prop :=
  (forall k, (0 < k < length h)%nat -> k <> j -> ordered h (parent k) k) /\
  (forall k, (0 < k < length h)%nat -> parent k = j -> ordered h (parent j) k).

(** What [down] keeps true of [h], [i] and [n]: a heap on the first [n]
    files but for the file at [i], which may be greater than its children,
    these being no less than the parent of [i]. *)
Definition downInv (n : nat) (h : Heap) (i : nat) : Prop :=
  (forall k, (0 < k < n)%nat -> parent k <> i -> ordered h (parent k) k) /\
  (forall k, (0 < k < n)%nat -> parent k = i -> (0 < i)%nat -> ordered h (parent i) k).

(** The compiler of the examples: [regexp.Compile] on the two patterns they
    use, the pattern of non-ASCII text, and ["("], which it rejects for the
    parenthesis that is not closed.  No example compiles another pattern. *)
Definition exampleCompile : data.Compiler :=
  fun pattern =>
    if String.eqb pattern "[^\x00-\x7F]" then inr (fun s => Match nonASCII (bytes s))
    else inl ("missing closing )", pattern).

(** ** What the coordinator keeps true

    [taskOf p t]: [t] is a stand of the goroutine of path [p]. *)
Definition scanned (fs : FileSystem) (m ig : option Regexp) (filePath : string) : File :=
  Scan fs (newFile filePath m ig).

Definition taskOf (fs : FileSystem) (m ig : option Regexp) (p : string) (t : Task) : Prop :=
  match t with
  | Spawned q | Scanning q => q = p
  | Sending f => f = scanned fs m ig p
  | Sent | Finished => True
  end.

(** The result a goroutine has sent, if it has. *)
Definition deliveredBy (fs : FileSystem) (m ig : option Regexp) (p : string) (t : Task)
    : list File :=
  match t with
  | Sent | Finished => [scanned fs m ig p]
  | _ => []
  end.

Fixpoint delivered (fs : FileSystem) (m ig : option Regexp)
    (filePaths : list string) (ts : list Task) : list File :=
  match filePaths, ts with
  | p :: filePaths', t :: ts' => deliveredBy fs m ig p t ++ delivered fs m ig filePaths' ts'
  | _, _ => []
  end.

(** [1] for a goroutine that has not called [wg.Done()]. *)
Definition unfinished (t : Task) : nat :=
  match t with Finished => 0 | _ => 1 end.

Fixpoint pending (ts : list Task) : nat :=
  match ts with
  | [] => 0
  | t :: ts' => unfinished t + pending ts'
  end.

(** The steps a goroutine still has to take. *)
Definition remaining (t : Task) : nat :=
  match t with
  | Spawned _ => 4
  | Scanning _ => 3
  | Sending _ => 2
  | Sent => 1
  | Finished => 0
  end.

Fixpoint stepsLeft (ts : list Task) : nat :=
  match ts with
  | [] => 0
  | t :: ts' => remaining t + stepsLeft ts'
  end.

(** The counter of the wait group is the number of goroutines that have not
    finished, the consumer has received what was sent, and the channel is
    closed only at counter zero. *)
Definition coordinated (fs : FileSystem) (m ig : option Regexp)
    (filePaths : list string) (c : Coordinator) : Prop :=
  Forall2 (taskOf fs m ig) filePaths (tasks c) /\
  wg c = Z.of_nat (pending (tasks c)) /\
  received c ≡ₚ delivered fs m ig filePaths (tasks c) /\
  (closed c = true -> wg c = 0).

(** ** The loop of [main] over the results, and the numbers it prints *)

(** [for f := range ...] over the results in the order they arrive. *)
Definition aggregateAll (opts : Options) (a : Aggregate) (results : list File)
    : option Aggregate :=
  foldl (fun acc f => a' ← acc; aggregate opts a' f) (Some a) results.

(** A call of [fmt.Printf] whose arguments are integers. *)
Inductive Printed : Type :=
  | Printf (format : string) (args : list Z).

(** [func showNumbers(foundFilesCnt int, scanErrorsCnt int,
    filesCntContainingKorean int)] *)
Definition showNumbers (foundFilesCnt scanErrorsCnt filesCntContainingKorean : Z)
    : list Printed :=
  [ Printf "[%d] scanning files\n" [foundFilesCnt];
    Printf "[%d] error \n" [scanErrorsCnt];
    Printf "[%d] success \n" [wrap (foundFilesCnt - scanErrorsCnt)];
    Printf "[%d] files containing korean\n" [filesCntContainingKorean] ].

(** A result that enters the report: no failure and a MatchSet that is not
    empty. *)
Definition reported (f : File) : bool :=
  match Error f with
  | Some _ => false
  | None => negb (Nat.eqb (size (MatchedLines f)) 0)
  end.

Definition failed (f : File) : bool :=
  match Error f with
  | Some _ => true
  | None => false
  end.

(** ** [Search]: the walk over a directory *)

(** An [os.FileInfo], by the two methods [Search] calls. *)
Record FileInfo : Type := mkFileInfo {
  Name : string;
  IsDir : bool
}.

(** One call [filepath.Walk] makes of its function: a file or directory
    with its [FileInfo], or a path with the error met there. *)
Inductive Visit : Type :=
  | Entry (path : string) (f : FileInfo)
  | Failure (path : string) (err : error).

(** [strings.Split(s, sep)] for a separator of one byte: the substrings
    between the separators, one more than there are separators. *)
Fixpoint Split (s : string) (sep : ascii) : list string :=
  match s with
  | EmptyString => [EmptyString]
  | String c s' =>
      if Ascii.eqb c sep then EmptyString :: Split s' sep
      else
        match Split s' sep with
        | first :: others => String c first :: others
        | [] => [String c EmptyString]
        end
  end.

(** The function [Search] gives to [filepath.Walk] (lines 90-108), on the
    paths gathered so far: the paths after the call and the error returned.
    [None] is the panic of [v[len(v)-1]] on an empty slice. *)
Definition walkFn (filterByFileExt : string) (fn : string -> bool)
    (resultPaths : list string) (visit : Visit) : option (list string * option error) :=
  match visit with
  | Failure _ err => Some (resultPaths, Some err)
  | Entry path f =>
      if IsDir f || fn path then Some (resultPaths, None)
      else if negb (String.eqb filterByFileExt "") then
        let v := Split (Name f) "." in
        last ← v !! (length v - 1)%nat;
        if String.eqb last filterByFileExt
        then Some (resultPaths ++ [path], None)
        else Some (resultPaths, None)
      else Some (resultPaths ++ [path], None)
  end.

(** [filepath.Walk]: the function is called on each visit in turn, until it
    returns an error, which is the error of the walk.  [visits] is the
    sequence of calls the walk of the directory makes when none returns an
    error. *)
Fixpoint Walk (visits : list Visit)
    (walk : list string -> Visit -> option (list string * option error))
    (resultPaths : list string) : option (list string * option error) :=
  match visits with
  | [] => Some (resultPaths, None)
  | visit :: visits' =>
      '(resultPaths', err) ← walk resultPaths visit;
      match err with
      | Some e => Some (resultPaths', Some e)
      | None => Walk visits' walk resultPaths'
      end
  end.

(** What [Search] prints before the walk. *)
Inductive Banner : Type :=
  | SearchFor (filterByFileExt dir : string).

(** [func Search(dir string, filterByFileExt string, fn isSkipPath)], which
    returns the paths and the error of the walk, with what it prints. *)
Definition Search (visits : list Visit) (dir filterByFileExt : string)
    (fn : string -> bool) : option (Banner * list string * option error) :=
  '(resultPaths, err) ← Walk visits (walkFn filterByFileExt fn) [];
  Some (SearchFor filterByFileExt dir, resultPaths, err).

(** Whether [Search] keeps a visit: a file, not a directory, not skipped,
    and of the extension asked for, if one is. *)
Definition kept (filterByFileExt : string) (fn : string -> bool) (visit : Visit)
    : option string :=
  match visit with
  | Failure _ _ => None
  | Entry path f =>
      if IsDir f || fn path then None
      else if String.eqb filterByFileExt "" then Some path
      else if String.eqb (List.last (Split (Name f) ".") EmptyString) filterByFileExt
      then Some path else None
  end.

(** The visits before the first failure. *)
Fixpoint beforeFailure (visits : list Visit) : list Visit :=
  match visits with
  | [] => []
  | Failure _ _ :: _ => []
  | visit :: visits' => visit :: beforeFailure visits'
  end.

Fixpoint firstFailure (visits : list Visit) : option error :=
  match visits with
  | [] => None
  | Failure _ err :: _ => Some err
  | _ :: visits' => firstFailure visits'
  end.

(** ** The notifications of [ScanFiles] *)

(** The events the goroutine of path [p] has logged when it stands at [t]. *)
Definition logged (p : string) (t : Task) : list Event :=
  match t with
  | Spawned _ => []
  | Scanning _ => [Before p]
  | Sending _ | Sent | Finished => [Before p; After p]
  end.

Fixpoint loggedAll (filePaths : list string) (ts : list Task) : list Event :=
  match filePaths, ts with
  | p :: filePaths', t :: ts' => logged p t ++ loggedAll filePaths' ts'
  | _, _ => []
  end.

Definition isBefore (p : string) (e : Event) : bool :=
  match e with Before q => String.eqb q p | After _ => false end.

Definition isAfter (p : string) (e : Event) : bool :=
  match e with After q => String.eqb q p | Before _ => false end.

(** The number of events of [l] that [test] holds of. *)
Definition occurrences (test : Event -> bool) (l : list Event) : nat :=
  length (List.filter test l).

(** The last selected line of [ls] that takes line number [k], the line
    before the first one having number [lineNumber]. *)
Fixpoint lastSelected (m : Regexp) (ig : option Regexp) (ls : list (list byte))
    (lineNumber k : Z) : option (list byte) :=
  match ls with
  | [] => None
  | l :: ls' =>
      match lastSelected m ig ls' (incr lineNumber) k with
      | Some l' => Some l'
      | None => if selected m ig l && Z.eqb (incr lineNumber) k then Some l else None
      end
  end.

(** The state is coordinated and the log holds what the goroutines have
    logged. *)
Definition notified (fs : FileSystem) (m ig : option Regexp)
    (filePaths : list string) (c : Coordinator) : Prop :=
  coordinated fs m ig filePaths c /\ events c ≡ₚ loggedAll filePaths (tasks c).

(** Whether the byte [c] occurs in [s]. *)
Fixpoint hasByte (c : ascii) (s : string) : bool :=
  match s with
  | EmptyString => false
  | String c' s' => Ascii.eqb c' c || hasByte c s'
  end.

Definition isEntry (visit : Visit) : bool :=
  match visit with Entry _ _ => true | Failure _ _ => false end.

(** ** [main], from the compilation of the patterns to the numbers *)

(** How the part of [main] below ends: in [log.Fatal(err)], or past the
    loops with the heap and the counter they leave. *)
Inductive Exit : Type :=
  | LogFatal (err : error)
  | Completed (a : Aggregate).

(** The two loops of [main] (lines 254-268): the batches in turn, each one
    scanned by [ScanFiles] under a schedule of its goroutines up to the
    close of the channel, its results aggregated in the order they arrive.
    [None] when a batch has no schedule, or one that cannot be run or that
    stops before the close. *)
Fixpoint scanChunks (fs : FileSystem) (m ig : option Regexp) (opts : Options)
    (chunks : list (list string)) (schedules : list (list Choice))
    (a : Aggregate) : option Aggregate :=
  match chunks, schedules with
  | [], _ => Some a
  | paths :: chunks', schedule :: schedules' =>
      c ← run fs m ig schedule (ScanFiles paths);
      if closed c then
        a' ← aggregateAll opts a (received c);
        scanChunks fs m ig opts chunks' schedules' a'
      else None
  | _ :: _, [] => None
  end.

(** [main], lines 236-268.  [compiled] is what [regex.ForFileScan] returned
    (the match pattern, the ignore pattern and the error) and [chunks] is
    what [file.Chunks(foundFiles)] returned; neither function is among the
    sources. *)
Definition mainScan (fs : FileSystem) (opts : Options)
    (compiled : option Regexp * option Regexp * option error)
    (chunks : list (list string)) (schedules : list (list Choice)) : option Exit :=
  let '(m, ig, err) := compiled in
  match err with
  | Some e => Some (LogFatal e)
  | None =>
      a0 ← aggregate0;
      a ← scanChunks fs m ig opts chunks schedules a0;
      Some (Completed a)
  end.

(** [main], lines 270-274: what [showNumbers] is called with.  [PrintFiles]
    is [file.PrintFiles], which is not among the sources, by the heap it
    leaves behind; it is called unless [ErrorOnly] is set. *)
Definition mainNumbers (opts : Options) (PrintFiles : list File -> list File)
    (foundFilesCnt : Z) (a : Aggregate) : list Printed :=
  let h := if negb (ErrorOnly opts) then PrintFiles (filesContainingKorean a)
           else filesContainingKorean a in
  showNumbers foundFilesCnt (scanErrorsCnt a) (Z.of_nat (Len h)).

(** * Properties *)

(** ** Machine integers *)

Lemma incr_small (n : Z) : -2 ^ 63 <= n < 2 ^ 63 - 1 -> incr n = n + 1.
Proof.
  intros Hn. unfold incr, wrap.
  rewrite Z.mod_small by lia. lia.
Qed.

(** ** The loop of [File.Scan] *)

Lemma scan_ending name e f :
  (if decide (readError name e <> io_EOF) then set_scanError f (readError name e) else f) =
    match e with
    | AtEOF => f
    | ReadFailed errno => set_scanError f (PathError "read" name errno)
    end.
Proof.
  destruct e as [|errno]; unfold readError.
  - destruct (decide (io_EOF <> io_EOF)) as [Hne|_]; [contradiction|reflexivity].
  - destruct (decide (PathError "read" name errno <> io_EOF)) as [_|Hne]; [reflexivity|].
    exfalso; apply Hne; discriminate.
Qed.

Section ScanLoop.
Variable m : Regexp.
Variable name : string.

Lemma scanLoop_nil e line n f :
  scanLoop m name [] e line n f =
    match e with
    | AtEOF => f
    | ReadFailed errno => set_scanError f (PathError "read" name errno)
    end.
Proof. apply scan_ending. Qed.

Lemma scanLoop_cons chunk isPrefix rs e line n f :
  scanLoop m name ((chunk, isPrefix) :: rs) e line n f =
    if isPrefix then scanLoop m name rs e (line ++ chunk) n f
    else if ignored f (line ++ chunk) then scanLoop m name rs e [] (incr n) f
    else scanLoop m name rs e [] (incr n)
           (if Match m (line ++ chunk)
            then set_matchedLine f (incr n) (line ++ chunk) else f).
Proof. reflexivity. Qed.

Lemma scanLoop_path rs e line n f :
  path (scanLoop m name rs e line n f) = path f.
Proof.
  revert line n f. induction rs as [|[chunk isPrefix] rs IH]; intros line n f.
  - rewrite scanLoop_nil. destruct e; reflexivity.
  - rewrite scanLoop_cons. destruct isPrefix; [apply IH|].
    destruct (ignored f _); [apply IH|].
    rewrite IH. destruct (Match m _); reflexivity.
Qed.

(** The failure after the loop is decided by how the reads ended. *)
Lemma scanLoop_scanError rs e line n f :
  scanError (scanLoop m name rs e line n f) =
    match e with
    | AtEOF => scanError f
    | ReadFailed errno => Some (PathError "read" name errno)
    end.
Proof.
  revert line n f. induction rs as [|[chunk isPrefix] rs IH]; intros line n f.
  - rewrite scanLoop_nil. destruct e; reflexivity.
  - rewrite scanLoop_cons. destruct isPrefix; [apply IH|].
    destruct (ignored f _); [apply IH|].
    rewrite IH. destruct e; [|reflexivity].
    destruct (Match m _); reflexivity.
Qed.

(** The MatchSet after the loop is that of the logical lines read, whatever
    ended the reads. *)
Lemma scanLoop_matchedLines rs e line n f :
  matchedLines (scanLoop m name rs e line n f) =
    recordLines m (ignoreRegex f) (logicalLines rs line) n (matchedLines f).
Proof.
  revert line n f. induction rs as [|[chunk isPrefix] rs IH]; intros line n f.
  - rewrite scanLoop_nil. destruct e; reflexivity.
  - rewrite scanLoop_cons. simpl logicalLines.
    destruct isPrefix; [apply IH|]. simpl recordLines.
    unfold selected, ignored.
    destruct (ignoreRegex f) as [r|] eqn:Hig; simpl.
    + destruct (Match r (line ++ chunk)) eqn:Hr; simpl.
      * rewrite IH, Hig. reflexivity.
      * rewrite IH. destruct (Match m (line ++ chunk)); simpl; rewrite ?Hig; reflexivity.
    + rewrite IH. destruct (Match m (line ++ chunk)); simpl; rewrite ?Hig; reflexivity.
Qed.
End ScanLoop.

(** The entry of a line number in the MatchSet of a list of lines. *)
Lemma recordLines_lookup m ig ls : forall n ms k,
  0 <= n -> n + Z.of_nat (length ls) < 2 ^ 63 ->
  recordLines m ig ls n ms !! k =
    if decide (n < k <= n + Z.of_nat (length ls)) then
      match ls !! Z.to_nat (k - n - 1) with
      | Some l => if selected m ig l then Some l else ms !! k
      | None => ms !! k
      end
    else ms !! k.
Proof.
  induction ls as [|l ls IH]; intros n ms k Hn Hlen; simpl in *.
  - destruct (decide _); [lia|reflexivity].
  - rewrite incr_small by lia.
    rewrite IH by lia.
    destruct (decide (n + 1 < k <= _)) as [Hk|Hk].
    + rewrite decide_True by lia.
      replace (Z.to_nat (k - n - 1)) with (S (Z.to_nat (k - (n + 1) - 1))) by lia.
      simpl.
      assert (Hne : n + 1 <> k) by lia.
      destruct (ls !! _) as [l'|]; [destruct (selected m ig l')|];
        destruct (selected m ig l); rewrite ?lookup_insert_ne by exact Hne; reflexivity.
    + destruct (decide (k = n + 1)) as [->|Hne].
      * rewrite decide_True by lia.
        replace (Z.to_nat (n + 1 - n - 1)) with O by lia. simpl.
        destruct (selected m ig l); [apply lookup_insert_eq|reflexivity].
      * rewrite decide_False by lia.
        destruct (selected m ig l); rewrite ?lookup_insert_ne by lia; reflexivity.
Qed.

(** From an empty MatchSet: line [k] is in the MatchSet exactly when the
    [k]-th logical line is selected. *)
Lemma recordLines_fresh m ig ls k l :
  Z.of_nat (length ls) < 2 ^ 63 ->
  recordLines m ig ls 0 ∅ !! k = Some l <->
  exists i : nat, k = Z.of_nat i + 1 /\ ls !! i = Some l /\ selected m ig l = true.
Proof.
  intros Hlen. rewrite recordLines_lookup by lia.
  split.
  - destruct (decide _) as [Hk|Hk]; [|rewrite lookup_empty; discriminate].
    destruct (ls !! _) as [l'|] eqn:Hl; [|rewrite lookup_empty; discriminate].
    destruct (selected m ig l') eqn:Hs; [|rewrite lookup_empty; discriminate].
    intros [= <-]. exists (Z.to_nat (k - 0 - 1)). split; [lia|]. split; assumption.
  - intros (i & -> & Hl & Hs).
    apply lookup_lt_Some in Hl as Hi.
    rewrite decide_True by lia.
    replace (Z.to_nat (Z.of_nat i + 1 - 0 - 1)) with i by lia.
    rewrite Hl, Hs. reflexivity.
Qed.

(** ** [File.Scan] *)

Lemma Scan_opened fs f m r :
  matchRegex f = Some m -> fs (path f) = inr r ->
  Scan fs f = scanLoop m (path f) (results r) (ending r) [] 0 f.
Proof. intros Hm Hr. unfold Scan. rewrite Hm, Hr. reflexivity. Qed.

Lemma Scan_not_opened fs f m errno :
  matchRegex f = Some m -> fs (path f) = inl errno ->
  Scan fs f = set_scanError f (PathError "open" (path f) errno).
Proof. intros Hm Hr. unfold Scan. rewrite Hm, Hr. reflexivity. Qed.

Lemma selected_ignored f m line :
  selected m (ignoreRegex f) line = true <->
  ignored f line = false /\ Match m line = true.
Proof.
  unfold selected, ignored.
  destruct (ignoreRegex f) as [r|]; [destruct (Match r line)|];
    destruct (Match m line); simpl; intuition congruence.
Qed.

Lemma recordLines_ext m m' ig ls : forall n ms,
  (forall l, l ∈ ls -> selected m ig l = selected m' ig l) ->
  recordLines m ig ls n ms = recordLines m' ig ls n ms.
Proof.
  induction ls as [|l ls IH]; intros n ms Hext; simpl; [reflexivity|].
  rewrite (Hext l) by apply list_elem_of_here.
  apply IH. intros l' Hl'. apply Hext. apply list_elem_of_further, Hl'.
Qed.

(** A run of prefix chunks and the chunk that ends it are one logical line,
    the chunks joined in order. *)
Lemma logicalLines_run (cs : list (list byte)) (c : list byte) rs : forall line,
  logicalLines (((fun chunk => (chunk, true)) <$> cs) ++ (c, false) :: rs) line =
    (line ++ mjoin cs ++ c) :: logicalLines rs [].
Proof.
  induction cs as [|chunk cs IH]; intros line; simpl.
  - reflexivity.
  - rewrite IH. rewrite <- !app_assoc. reflexivity.
Qed.

(** The MatchSet of a scan that opened the file, with fewer than [2^63]
    lines: line [k] maps to [l] exactly when the [k]-th logical line is [l],
    the ignore pattern does not hold of it and the match pattern does. *)
Lemma Scan_matchedLines_lookup fs filePath m ig r k l :
  fs filePath = inr r ->
  Z.of_nat (length (logicalLines (results r) [])) < 2 ^ 63 ->
  let f := newFile filePath (Some m) ig in
  MatchedLines (Scan fs f) !! k = Some l <->
  exists i : nat, k = Z.of_nat i + 1 /\ logicalLines (results r) [] !! i = Some l /\
                  ignored f l = false /\ Match m l = true.
Proof.
  intros Hr Hlen f. unfold MatchedLines.
  rewrite (Scan_opened fs f m r) by (reflexivity || exact Hr).
  rewrite scanLoop_matchedLines. simpl.
  rewrite recordLines_fresh by exact Hlen.
  split; intros (i & Hk & Hl & Hs); exists i; (split; [exact Hk|split; [exact Hl|]]).
  - apply (selected_ignored f). exact Hs.
  - apply (selected_ignored f) in Hs. exact Hs.
Qed.

(** C9.  With a nil match pattern [Scan] returns at once: the file is left as
    it was, whatever the file system holds at its path (nothing is opened),
    so a file built by [ScanFiles] keeps an empty MatchSet and a nil error,
    as after the scan of a file that opens and has no line. *)
Theorem Scan_nil_matchRegex :
  forall (fs : FileSystem) (filePath : string) (ig : option Regexp),
    (forall ms e, Scan fs (mkFile filePath None ig ms e) = mkFile filePath None ig ms e) /\
    MatchedLines (Scan fs (newFile filePath None ig)) = ∅ /\
    Error (Scan fs (newFile filePath None ig)) = None /\
    (forall m : Regexp,
       let f := Scan (oneFile filePath (mkReader [] AtEOF)) (newFile filePath (Some m) ig) in
       MatchedLines (Scan fs (newFile filePath None ig)) = MatchedLines f /\
       Error (Scan fs (newFile filePath None ig)) = Error f).
Proof.
  intros fs filePath ig.
  split; [reflexivity|]. split; [reflexivity|]. split; [reflexivity|].
  intros m f.
  assert (Hf : f = newFile filePath (Some m) ig).
  { unfold f.
    rewrite (Scan_opened _ (newFile filePath (Some m) ig) m (mkReader [] AtEOF)).
    - rewrite scanLoop_nil. reflexivity.
    - reflexivity.
    - unfold oneFile. simpl. rewrite String.eqb_refl. reflexivity. }
  rewrite Hf. split; reflexivity.
Qed.

(** C7.  With a match pattern set: when the open fails, the failure of the
    result is the error of the open and nothing is added to the MatchSet,
    which is empty for a file built by [ScanFiles]; when the reads end at the
    end of the file, the error is left as it was, nil for a file built by
    [ScanFiles], whether or not the MatchSet is empty. *)
Theorem Scan_open_failure_and_EOF :
  forall (fs : FileSystem) (f : File) (m : Regexp),
    matchRegex f = Some m ->
    (forall errno, fs (path f) = inl errno ->
       Error (Scan fs f) = Some (PathError "open" (path f) errno) /\
       MatchedLines (Scan fs f) = MatchedLines f /\
       (MatchedLines f = ∅ -> MatchedLines (Scan fs f) = ∅)) /\
    (forall rs, fs (path f) = inr (mkReader rs AtEOF) ->
       Error (Scan fs f) = Error f /\
       (Error f = None -> Error (Scan fs f) = None)).
Proof.
  intros fs f m Hm. split.
  - intros errno Hfs. rewrite (Scan_not_opened fs f m errno Hm Hfs).
    repeat split. intros H; exact H.
  - intros rs Hfs. rewrite (Scan_opened fs f m _ Hm Hfs).
    unfold Error. rewrite scanLoop_scanError. simpl. split; [reflexivity|].
    intros H; exact H.
Qed.

Lemma Scan_open_failure_and_EOF_witness :
  let fs : FileSystem := fun _ => inl EACCES in
  let f := newFile "secret.go" (Some nonASCII) None in
  Error (Scan fs f) = Some (PathError "open" "secret.go" EACCES) /\
  MatchedLines (Scan fs f) = ∅.
Proof.
  intros fs f.
  destruct (Scan_open_failure_and_EOF fs f nonASCII eq_refl) as [Hopen _].
  destruct (Hopen EACCES eq_refl) as (He & _ & Hempty).
  split; [exact He|apply Hempty; reflexivity].
Defined.

(** C1, as the code has it.  When a read fails, [Scan] stops there and the
    failure of the result is the error of that read; the MatchSet is the one
    of the logical lines read before the error, the same as if the file had
    ended there: nothing is discarded.  The aggregation loop does not read
    the MatchSet of such a result: it leaves the report heap as it was, and
    does the same for any result with that failure and path, whatever its
    MatchSet. *)
Theorem Scan_read_failure_keeps_matches :
  forall (fs : FileSystem) (f : File) (m : Regexp) rs errno,
    matchRegex f = Some m ->
    fs (path f) = inr (mkReader rs (ReadFailed errno)) ->
    Error (Scan fs f) = Some (PathError "read" (path f) errno) /\
    MatchedLines (Scan fs f) =
      MatchedLines (Scan (oneFile (path f) (mkReader rs AtEOF)) f) /\
    MatchedLines (Scan fs f) =
      recordLines m (ignoreRegex f) (logicalLines rs []) 0 (MatchedLines f) /\
    forall (opts : Options) (a : Aggregate),
      exists a',
        aggregate opts a (Scan fs f) = Some a' /\
        filesContainingKorean a' = filesContainingKorean a /\
        forall g : File,
          Error g = Error (Scan fs f) -> Path g = Path (Scan fs f) ->
          aggregate opts a g = Some a'.
Proof.
  intros fs f m rs errno Hm Hfs.
  assert (He : Error (Scan fs f) = Some (PathError "read" (path f) errno)).
  { rewrite (Scan_opened fs f m _ Hm Hfs). unfold Error.
    rewrite scanLoop_scanError. reflexivity. }
  split; [exact He|].
  rewrite (Scan_opened fs f m _ Hm Hfs) at 1 2.
  rewrite (Scan_opened _ f m (mkReader rs AtEOF) Hm)
    by (unfold oneFile; rewrite String.eqb_refl; reflexivity).
  unfold MatchedLines.
  rewrite !scanLoop_matchedLines. simpl.
  split; [reflexivity|]. split; [reflexivity|].
  intros opts a. unfold aggregate. rewrite He.
  eexists. split; [reflexivity|]. split; [reflexivity|].
  intros g Hg Hp. rewrite Hg, Hp. reflexivity.
Qed.

(** A file whose only line matches and whose next read fails: the line stays
    in the MatchSet and the result does not enter a report that holds one
    file. *)
Lemma Scan_read_failure_keeps_matches_witness :
  let r := mkReader [(bytes "é", false)] (ReadFailed EIO) in
  let f := newFile "a.go" (Some nonASCII) None in
  let a := mkAggregate [newFile "b.go" (Some nonASCII) None] 0 [] in
  Error (Scan (oneFile "a.go" r) f) = Some (PathError "read" "a.go" EIO) /\
  MatchedLines (Scan (oneFile "a.go" r) f) =
    MatchedLines (Scan (oneFile "a.go" (mkReader [(bytes "é", false)] AtEOF)) f) /\
  exists a',
    aggregate (mkOptions false false) a (Scan (oneFile "a.go" r) f) = Some a' /\
    filesContainingKorean a' = filesContainingKorean a.
Proof.
  intros r f a.
  destruct (Scan_read_failure_keeps_matches (oneFile "a.go" r) f nonASCII
              [(bytes "é", false)] EIO eq_refl eq_refl) as (He & Hm & _ & Hagg).
  split; [exact He|]. split; [exact Hm|].
  destruct (Hagg (mkOptions false false) a) as (a' & Ha' & Hheap & _).
  exists a'. split; [exact Ha'|exact Hheap].
Defined.

(** C1 fails as stated: the scan below ends with a failure and a MatchSet
    that holds line 1. *)
Lemma Scan_read_failure_MatchSet_not_empty :
  let r := mkReader [(bytes "é", false)] (ReadFailed EIO) in
  let f := Scan (oneFile "a.go" r) (newFile "a.go" (Some nonASCII) None) in
  Error f = Some (PathError "read" "a.go" EIO) /\
  MatchedLines f !! 1 = Some (bytes "é") /\
  MatchedLines f <> ∅.
Proof.
  intros r f. split; [reflexivity|].
  assert (H1 : MatchedLines f !! 1 = Some (bytes "é")) by (vm_compute; reflexivity).
  split; [exact H1|].
  intros Hempty. rewrite Hempty, lookup_empty in H1. discriminate.
Qed.

(** C4.  In a scan that opened the file (fewer than [2^63] lines), line
    number [k] maps to [l] exactly when the [k]-th logical line is [l], the
    ignore pattern is unset or does not match it, and the match pattern
    matches it: a line the ignore pattern matches is never recorded, and it
    still takes its number, the lines after it being numbered on.  What the
    match pattern says of ignored lines has no effect on the result.  For
    the file of lines ["// αβγ"] and ["δεζ"], ignore pattern [^//] and the
    pattern of non-ASCII text, the MatchSet is line 2 alone. *)
Theorem Scan_ignored_lines :
  (forall (fs : FileSystem) filePath (m : Regexp) (ig : option Regexp) r,
     fs filePath = inr r ->
     Z.of_nat (length (logicalLines (results r) [])) < 2 ^ 63 ->
     let f := newFile filePath (Some m) ig in
     (forall k l,
        MatchedLines (Scan fs f) !! k = Some l <->
        exists i : nat, k = Z.of_nat i + 1 /\ logicalLines (results r) [] !! i = Some l /\
                        ignored f l = false /\ Match m l = true) /\
     (forall m' : Regexp,
        (forall l, ignored f l = false -> Match m' l = Match m l) ->
        MatchedLines (Scan fs (newFile filePath (Some m') ig)) = MatchedLines (Scan fs f))) /\
  (exists r,
     bufio.NewReader commentedFile = Some r /\
     logicalLines (results r) [] = [bytes "// αβγ"; bytes "δεζ"] /\
     MatchedLines (Scan (oneFile "a.go" r) (newFile "a.go" (Some nonASCII) (Some slashes)))
       = {[ 2 := bytes "δεζ" ]}).
Proof.
  split.
  - intros fs filePath m ig r Hr Hlen f. split.
    + intros k l. apply Scan_matchedLines_lookup; assumption.
    + intros m' Hext. unfold MatchedLines.
      rewrite (Scan_opened fs f m r) by (reflexivity || exact Hr).
      rewrite (Scan_opened fs (newFile filePath (Some m') ig) m' r) by (reflexivity || exact Hr).
      rewrite !scanLoop_matchedLines. simpl.
      apply recordLines_ext. intros l _.
      unfold selected. specialize (Hext l). unfold ignored in Hext. simpl in Hext.
      destruct ig as [r'|]; [destruct (Match r' l)|]; simpl;
        [reflexivity|apply Hext; reflexivity|apply Hext; reflexivity].
  - eexists. split; [vm_compute; reflexivity|].
    split; [vm_compute; reflexivity|].
    apply map_eq. intros k.
    assert (Hlen : Z.of_nat (length (logicalLines
              [(bytes "// αβγ", false); (bytes "δεζ", false)] [])) < 2 ^ 63)
      by (simpl; lia).
    destruct (decide (k = 2)) as [->|Hk].
    + rewrite lookup_singleton_eq. vm_compute. reflexivity.
    + rewrite lookup_singleton_ne by congruence.
      destruct (_ !! k) as [l|] eqn:Hl; [|reflexivity].
      exfalso.
      apply (Scan_matchedLines_lookup _ "a.go" nonASCII (Some slashes)
               (mkReader [(bytes "// αβγ", false); (bytes "δεζ", false)] AtEOF)) in Hl;
        [|reflexivity|exact Hlen].
      destruct Hl as (i & -> & Hi & Hig & Hm).
      destruct i as [|[|i]]; simpl in Hi.
      * injection Hi as <-. vm_compute in Hig. discriminate.
      * apply Hk. reflexivity.
      * discriminate.
Qed.

Lemma Scan_ignored_lines_witness :
  let r := mkReader [(bytes "// x", false); (bytes "é", false)] AtEOF in
  let f := newFile "a.go" (Some nonASCII) (Some slashes) in
  MatchedLines (Scan (oneFile "a.go" r) f) !! 2 = Some (bytes "é") <->
  exists i : nat, 2 = Z.of_nat i + 1 /\ logicalLines (results r) [] !! i = Some (bytes "é") /\
                  ignored f (bytes "é") = false /\ Match nonASCII (bytes "é") = true.
Proof.
  intros r f.
  destruct Scan_ignored_lines as [Hgen _].
  assert (Hlen : Z.of_nat (length (logicalLines (results r) [])) < 2 ^ 63)
    by (vm_compute; reflexivity).
  destruct (Hgen (oneFile "a.go" r) "a.go" nonASCII (Some slashes) r eq_refl Hlen) as [Hk _].
  exact (Hk 2 (bytes "é")).
Defined.

(** C5, at the input where the code departs from it.  The file is one line
    of [8192] bytes that no line feed ends.  [ReadLine] returns it as two
    prefix chunks of [4096] bytes and then [io.EOF], with no last fragment;
    the loop of [Scan] leaves at [io.EOF] with the line gathered and never
    tests it: the line matches the pattern and the MatchSet is empty. *)
Theorem Scan_drops_unfinished_last_line :
  exists r,
    bufio.NewReader longLastLine = Some r /\
    results r = [(take bufio.defaultBufSize longLastLine, true);
                 (drop bufio.defaultBufSize longLastLine, true)] /\
    length longLastLine = (2 * bufio.defaultBufSize)%nat /\
    Match nonASCII longLastLine = true /\
    let f := Scan (oneFile "a.txt" r) (newFile "a.txt" (Some nonASCII) None) in
    Error f = None /\ MatchedLines f = ∅.
Proof.
  eexists. split; [vm_compute; reflexivity|].
  split; [vm_compute; reflexivity|].
  split; [vm_compute; reflexivity|].
  split; [vm_compute; reflexivity|].
  split.
  - reflexivity.
  - unfold MatchedLines.
    rewrite (Scan_opened _ _ nonASCII
               (mkReader [(take bufio.defaultBufSize longLastLine, true);
                          (drop bufio.defaultBufSize longLastLine, true)] AtEOF))
      by reflexivity.
    rewrite scanLoop_matchedLines. reflexivity.
Qed.

(** What [Scan] does with a line that comes in several chunks and is ended:
    the chunks are joined in order into one logical line, which takes one
    line number and is recorded whole when it is selected. *)
Lemma Scan_long_line_assembled (m : Regexp) name
    (cs : list (list byte)) (c : list byte) rs e f :
  ignored f (mjoin cs ++ c) = false -> Match m (mjoin cs ++ c) = true ->
  scanLoop m name (((fun chunk => (chunk, true)) <$> cs) ++ (c, false) :: rs) e [] 0 f =
  scanLoop m name rs e [] 1 (set_matchedLine f 1 (mjoin cs ++ c)).
Proof.
  intros Hig Hm.
  assert (Hgen : forall line,
    scanLoop m name (((fun chunk => (chunk, true)) <$> cs) ++ (c, false) :: rs) e line 0 f =
    scanLoop m name ((line ++ mjoin cs ++ c, false) :: rs) e [] 0 f).
  { clear Hig Hm. induction cs as [|chunk cs IH]; intros line.
    - reflexivity.
    - simpl. rewrite IH. simpl. rewrite <- !app_assoc. reflexivity. }
  rewrite Hgen, scanLoop_cons. simpl app.
  rewrite Hig, Hm. reflexivity.
Qed.

(** ** The order of paths *)

Lemma ascii_compare_Lt_trans (a b c : ascii) :
  Ascii.compare a b = Lt -> Ascii.compare b c = Lt -> Ascii.compare a c = Lt.
Proof.
  unfold Ascii.compare. rewrite !N.compare_lt_iff. apply N.lt_trans.
Qed.

Lemma ascii_compare_refl (a : ascii) : Ascii.compare a a = Eq.
Proof. unfold Ascii.compare. apply N.compare_refl. Qed.

Lemma string_compare_refl (s : string) : String.compare s s = Eq.
Proof.
  induction s as [|a s IH]; simpl; [reflexivity|].
  rewrite ascii_compare_refl. exact IH.
Qed.

Lemma string_compare_Lt_trans (s1 : string) : forall s2 s3,
  String.compare s1 s2 = Lt -> String.compare s2 s3 = Lt -> String.compare s1 s3 = Lt.
Proof.
  induction s1 as [|a s1 IH]; intros [|b s2] [|c s3]; simpl; try congruence.
  destruct (Ascii.compare a b) eqn:Hab; try discriminate.
  - apply Ascii.compare_eq_iff in Hab as ->.
    destruct (Ascii.compare b c); try discriminate; [apply IH|reflexivity].
  - intros _. destruct (Ascii.compare b c) eqn:Hbc; try discriminate.
    + apply Ascii.compare_eq_iff in Hbc as <-. rewrite Hab. reflexivity.
    + intros _. rewrite (ascii_compare_Lt_trans a b c Hab Hbc). reflexivity.
Qed.

Lemma ltb_Lt (s1 s2 : string) : String.ltb s1 s2 = true <-> String.compare s1 s2 = Lt.
Proof. unfold String.ltb. destruct (String.compare s1 s2); intuition congruence. Qed.

Lemma ltb_irrefl (s : string) : String.ltb s s = false.
Proof. unfold String.ltb. rewrite string_compare_refl. reflexivity. Qed.

Lemma ltb_trans (s1 s2 s3 : string) :
  String.ltb s1 s2 = true -> String.ltb s2 s3 = true -> String.ltb s1 s3 = true.
Proof. rewrite !ltb_Lt. apply string_compare_Lt_trans. Qed.

Lemma ltb_asym (s1 s2 : string) : String.ltb s1 s2 = true -> String.ltb s2 s1 = false.
Proof.
  intros H12. destruct (String.ltb s2 s1) eqn:H21; [|reflexivity].
  pose proof (ltb_trans _ _ _ H12 H21) as H. rewrite ltb_irrefl in H. discriminate.
Qed.

Lemma ltb_total (s1 s2 : string) :
  String.ltb s1 s2 = false -> String.ltb s2 s1 = false -> s1 = s2.
Proof.
  unfold String.ltb. rewrite (String.compare_antisym s2 s1).
  destruct (String.compare s1 s2) eqn:H; simpl; try discriminate.
  intros _ _. apply String.compare_eq_iff. exact H.
Qed.

Lemma pathLe_refl a : pathLe a a.
Proof. apply ltb_irrefl. Qed.

Lemma pathLt_le a b : pathLt a b -> pathLe a b.
Proof. apply ltb_asym. Qed.

Lemma pathLe_trans a b c : pathLe a b -> pathLe b c -> pathLe a c.
Proof.
  unfold pathLe. intros Hab Hbc.
  destruct (String.ltb (path c) (path a)) eqn:Hca; [|reflexivity].
  destruct (String.ltb (path a) (path b)) eqn:Hlt.
  - rewrite (ltb_trans _ _ _ Hca Hlt) in Hbc. discriminate.
  - rewrite (ltb_total _ _ Hlt Hab) in Hca. congruence.
Qed.

Lemma pathLe_lt a b : pathLe a b -> path a <> path b -> pathLt a b.
Proof.
  unfold pathLe, pathLt. intros Hle Hne.
  destruct (String.ltb (path a) (path b)) eqn:Hlt; [reflexivity|].
  exfalso. apply Hne. apply ltb_total; assumption.
Qed.

(** ** Indices of the heap *)

Lemma parent_lt k : (0 < k)%nat -> (parent k < k)%nat.
Proof. unfold parent. intros. zify. Z.to_euclidean_division_equations. lia. Qed.

Lemma parent_child k i :
  (0 < k)%nat -> parent k = i <-> k = (2 * i + 1)%nat \/ k = (2 * i + 2)%nat.
Proof. unfold parent. intros. zify. Z.to_euclidean_division_equations. lia. Qed.

Lemma parent_fixed k : parent k = k -> k = O.
Proof. unfold parent. intros. zify. Z.to_euclidean_division_equations. lia. Qed.

(** ** [Less] and [Swap] *)

Lemma Less_Some (h : Heap) i j a b :
  h !! i = Some a -> h !! j = Some b ->
  Less h i j = Some (String.ltb (path a) (path b)).
Proof. intros Hi Hj. unfold Less. rewrite Hi, Hj. reflexivity. Qed.

Lemma Swap_Some (h : Heap) i j a b :
  h !! i = Some a -> h !! j = Some b ->
  Swap h i j = Some (<[j := a]> (<[i := b]> h)).
Proof. intros Hi Hj. unfold Swap. rewrite Hi, Hj. reflexivity. Qed.

Lemma swapped_lookup (h : Heap) i j x y k :
  (i < length h)%nat -> (j < length h)%nat ->
  <[j := x]> (<[i := y]> h) !! k =
    if decide (k = j) then Some x else if decide (k = i) then Some y else h !! k.
Proof.
  intros Hi Hj.
  destruct (decide (k = j)) as [->|Hkj].
  - apply list_lookup_insert_eq. rewrite length_insert. exact Hj.
  - rewrite list_lookup_insert_ne by congruence.
    destruct (decide (k = i)) as [->|Hki].
    + apply list_lookup_insert_eq. exact Hi.
    + apply list_lookup_insert_ne. congruence.
Qed.

Lemma swapped_length (h : Heap) i j x y :
  length (<[j := x]> (<[i := y]> h)) = length h.
Proof. rewrite !length_insert. reflexivity. Qed.

Lemma swapped_Permutation (h : Heap) i j a b :
  h !! i = Some a -> h !! j = Some b -> <[j := a]> (<[i := b]> h) ≡ₚ h.
Proof. intros Hi Hj. apply Permutation_insert_swap; assumption. Qed.

(** ** [up] *)

Lemma upInv_heapOrdered (h : Heap) j a b :
  upInv h j -> h !! j = Some a -> h !! parent j = Some b -> pathLe b a ->
  heapOrdered (length h) h.
Proof.
  intros [Hrest _] Ha Hb Hle k Hk.
  destruct (decide (k = j)) as [->|Hne]; [|apply Hrest; assumption].
  intros a' b'. rewrite Ha, Hb. intros [= <-] [= <-]. exact Hle.
Qed.

Lemma upInv_root (h : Heap) : upInv h 0 -> heapOrdered (length h) h.
Proof. intros [Hrest _] k Hk. apply Hrest; lia. Qed.

(** The step of [up]: after the swap of [j] and its parent, the file out
    of place is the one at the parent. *)
Lemma upInv_swap (h : Heap) j a b :
  (0 < j)%nat -> h !! j = Some a -> h !! parent j = Some b -> pathLt a b ->
  upInv h j ->
  upInv (<[j := b]> (<[parent j := a]> h)) (parent j).
Proof.
  intros Hj Ha Hb Hlt [Hrest Hgrand].
  pose proof (parent_lt j Hj) as Hpj.
  apply lookup_lt_Some in Ha as Hjlen.
  assert (Hplen : (parent j < length h)%nat) by lia.
  assert (Hab : pathLe a b) by (apply pathLt_le; exact Hlt).
  split; intros k Hk; rewrite swapped_length in Hk.
  - intros Hkp x y. rewrite !swapped_lookup by assumption.
    pose proof (parent_lt k (proj1 Hk)) as Hpk.
    destruct (decide (k = j)) as [->|Hkj].
    + rewrite decide_False by lia. rewrite decide_True by reflexivity.
      intros [= <-] [= <-]. exact Hab.
    + rewrite (decide_False (P := k = parent j)) by exact Hkp.
      destruct (decide (parent k = j)) as [Hpkj|Hpkj].
      * intros [= <-] Hy. apply (Hgrand k Hk Hpkj b y Hb Hy).
      * destruct (decide (parent k = parent j)) as [Hpp|Hpp].
        -- intros [= <-] Hy. apply (pathLe_trans _ b); [exact Hab|].
           apply (Hrest k Hk Hkj b y); [rewrite Hpp; exact Hb|exact Hy].
        -- intros Hx Hy. apply (Hrest k Hk Hkj x y Hx Hy).
  - intros Hkp x y. rewrite !swapped_lookup by assumption.
    pose proof (parent_lt k (proj1 Hk)) as Hpk.
    assert (Hky : forall y', k <> j -> h !! k = Some y' -> pathLe b y').
    { intros y' Hkj Hy. apply (Hrest k Hk Hkj b y'); [rewrite Hkp; exact Hb|exact Hy]. }
    destruct (decide (parent j = O)) as [H0|H0].
    + (* the parent is the root *)
      assert (Hpp : parent (parent j) = parent j) by (rewrite H0; reflexivity).
      rewrite Hpp. rewrite (decide_False (P := parent j = j)) by lia.
      rewrite (decide_True (P := parent j = parent j)) by reflexivity.
      intros [= <-].
      destruct (decide (k = j)) as [->|Hkj]; [intros [= <-]; exact Hab|].
      rewrite decide_False by lia.
      intros Hy. apply (pathLe_trans _ b); [exact Hab|apply Hky; assumption].
    + pose proof (parent_lt (parent j)) as Hppj.
      rewrite (decide_False (P := parent (parent j) = j)) by lia.
      rewrite (decide_False (P := parent (parent j) = parent j)) by lia.
      intros Hx.
      assert (Hxb : pathLe x b).
      { apply (Hrest (parent j)); [lia|lia|exact Hx|exact Hb]. }
      destruct (decide (k = j)) as [->|Hkj]; [intros [= <-]; exact Hxb|].
      rewrite decide_False by lia.
      intros Hy. apply (pathLe_trans _ b); [exact Hxb|apply Hky; assumption].
Qed.

Lemma up_unfold fuel (h : Heap) j :
  up (S fuel) h j =
    if decide (parent j = j) then Some h
    else lt ← Less h j (parent j);
         if negb lt then Some h else h' ← Swap h (parent j) j; up fuel h' (parent j).
Proof. reflexivity. Qed.

(** [up] returns, with the same files, when it has one unit of fuel for
    each index from [j] down. *)
Lemma up_total fuel : forall (h : Heap) j,
  (j < length h)%nat -> (j < fuel)%nat ->
  exists h', up fuel h j = Some h' /\ h' ≡ₚ h.
Proof.
  induction fuel as [|fuel IH]; intros h j Hj Hfuel; [lia|].
  rewrite up_unfold.
  destruct (decide (parent j = j)) as [Hroot|Hroot]; [exists h; split; reflexivity|].
  assert (H0 : (0 < j)%nat) by (destruct j; [contradiction Hroot; reflexivity|lia]).
  pose proof (parent_lt j H0) as Hpj.
  destruct (lookup_lt_is_Some_2 h j Hj) as [a Ha].
  destruct (lookup_lt_is_Some_2 h (parent j) ltac:(lia)) as [b Hb].
  rewrite (Less_Some h j (parent j) a b Ha Hb). simpl.
  destruct (String.ltb (path a) (path b)); simpl; [|exists h; split; reflexivity].
  rewrite (Swap_Some h (parent j) j b a Hb Ha). simpl.
  destruct (IH (<[j := b]> (<[parent j := a]> h)) (parent j)) as (h' & Hup & Hperm).
  - rewrite swapped_length. lia.
  - lia.
  - exists h'. split; [exact Hup|].
    rewrite Hperm. apply swapped_Permutation; assumption.
Qed.

(** [up] makes a heap of what is a heap but for the file at [j]. *)
Lemma up_heapOrdered fuel : forall (h h' : Heap) j,
  (j < length h)%nat -> upInv h j -> up fuel h j = Some h' ->
  heapOrdered (length h') h'.
Proof.
  induction fuel as [|fuel IH]; intros h h' j Hj Hinv; [discriminate|].
  rewrite up_unfold.
  destruct (decide (parent j = j)) as [Hroot|Hroot].
  { intros [= <-]. apply parent_fixed in Hroot as ->. apply upInv_root, Hinv. }
  assert (H0 : (0 < j)%nat) by (destruct j; [contradiction Hroot; reflexivity|lia]).
  pose proof (parent_lt j H0) as Hpj.
  destruct (lookup_lt_is_Some_2 h j Hj) as [a Ha].
  destruct (lookup_lt_is_Some_2 h (parent j) ltac:(lia)) as [b Hb].
  rewrite (Less_Some h j (parent j) a b Ha Hb). simpl.
  destruct (String.ltb (path a) (path b)) eqn:Hlt; simpl.
  - rewrite (Swap_Some h (parent j) j b a Hb Ha). simpl.
    apply IH.
    + rewrite swapped_length. lia.
    + apply upInv_swap; assumption.
  - intros [= <-]. apply (upInv_heapOrdered h j a b); assumption.
Qed.

(** Appending a file to a heap leaves a heap but for the file appended. *)
Lemma upInv_Push (h : Heap) x :
  heapOrdered (length h) h -> upInv (Push h x) (length h).
Proof.
  intros Hh. unfold Push. split; intros k Hk; rewrite length_app in Hk; simpl in Hk.
  - intros Hne a b Ha Hb.
    pose proof (parent_lt k (proj1 Hk)).
    rewrite lookup_app_l in Ha by lia. rewrite lookup_app_l in Hb by lia.
    apply (Hh k ltac:(lia) a b Ha Hb).
  - intros Hp. pose proof (parent_lt k (proj1 Hk)). lia.
Qed.

(** [heap.Push] does not panic and adds the file; on a heap it gives a
    heap. *)
Lemma heap_Push_total (h : Heap) x :
  exists h', heap_Push h x = Some h' /\ h' ≡ₚ x :: h.
Proof.
  unfold heap_Push, Len.
  destruct (up_total (length (Push h x)) (Push h x) (length (Push h x) - 1))
    as (h' & Hup & Hperm).
  - unfold Push. rewrite length_app. simpl. lia.
  - unfold Push. rewrite length_app. simpl. lia.
  - exists h'. split; [exact Hup|].
    rewrite Hperm. unfold Push. symmetry. apply Permutation_cons_append.
Qed.

Lemma heap_Push_heapOrdered (h h' : Heap) x :
  heapOrdered (length h) h -> heap_Push h x = Some h' ->
  heapOrdered (length h') h'.
Proof.
  unfold heap_Push, Len. intros Hh.
  assert (Hlen : (length (Push h x) - 1 = length h)%nat)
    by (unfold Push; rewrite length_app; simpl; lia).
  rewrite Hlen. apply up_heapOrdered.
  - unfold Push. rewrite length_app. simpl. lia.
  - apply upInv_Push. exact Hh.
Qed.

(** ** [down] *)

Lemma down_unfold fuel (h : Heap) i n :
  down (S fuel) h i n =
    if decide (n ≤ 2 * i + 1)%nat then Some h
    else
      right ← (if decide (2 * i + 1 + 1 < n)%nat
               then Less h (2 * i + 1 + 1) (2 * i + 1) else Some false);
      lt ← Less h (if right : bool then 2 * i + 1 + 1 else 2 * i + 1)%nat i;
      if negb lt then Some h
      else h' ← Swap h i (if right : bool then 2 * i + 1 + 1 else 2 * i + 1)%nat;
           down fuel h' (if right : bool then 2 * i + 1 + 1 else 2 * i + 1)%nat n.
Proof. reflexivity. Qed.

Lemma downInv_leaf n (h : Heap) i :
  (n ≤ 2 * i + 1)%nat -> downInv n h i -> heapOrdered n h.
Proof.
  intros Hn [Hrest _] k Hk. apply Hrest; [exact Hk|].
  intros Hp. apply (parent_child k i) in Hp; lia.
Qed.

(** The child [down] picks is no greater than any child of [i]. *)
Lemma chosen_child n (h : Heap) i right b :
  (2 * i + 1 < n)%nat -> (n ≤ length h)%nat ->
  (if decide (2 * i + 1 + 1 < n)%nat
   then Less h (2 * i + 1 + 1) (2 * i + 1) else Some false) = Some right ->
  h !! (if right : bool then 2 * i + 1 + 1 else 2 * i + 1)%nat = Some b ->
  forall k y, (0 < k < n)%nat -> parent k = i -> h !! k = Some y -> pathLe b y.
Proof.
  intros Hj1 Hn Hright Hb k y Hk Hp Hy.
  apply (parent_child k i) in Hp; [|lia].
  destruct (decide (2 * i + 1 + 1 < n)%nat) as [Hj2|Hj2].
  - destruct (lookup_lt_is_Some_2 h (2 * i + 1) ltac:(lia)) as [c1 Hc1].
    destruct (lookup_lt_is_Some_2 h (2 * i + 1 + 1) ltac:(lia)) as [c2 Hc2].
    rewrite (Less_Some h _ _ c2 c1 Hc2 Hc1) in Hright. injection Hright as <-.
    destruct (String.ltb (path c2) (path c1)) eqn:Hlt.
    + rewrite Hc2 in Hb. injection Hb as <-.
      destruct Hp as [->| ->].
      * rewrite Hc1 in Hy. injection Hy as <-. apply pathLt_le. exact Hlt.
      * replace (2 * i + 2)%nat with (2 * i + 1 + 1)%nat in Hy by lia.
        rewrite Hc2 in Hy. injection Hy as <-. apply pathLe_refl.
    + rewrite Hc1 in Hb. injection Hb as <-.
      destruct Hp as [->| ->].
      * rewrite Hc1 in Hy. injection Hy as <-. apply pathLe_refl.
      * replace (2 * i + 2)%nat with (2 * i + 1 + 1)%nat in Hy by lia.
        rewrite Hc2 in Hy. injection Hy as <-. exact Hlt.
  - injection Hright as <-.
    assert (k = 2 * i + 1)%nat as -> by lia.
    rewrite Hb in Hy. injection Hy as <-. apply pathLe_refl.
Qed.

Lemma downInv_heapOrdered n (h : Heap) i a b j :
  downInv n h i -> h !! i = Some a -> h !! j = Some b -> pathLe a b ->
  (forall k y, (0 < k < n)%nat -> parent k = i -> h !! k = Some y -> pathLe b y) ->
  heapOrdered n h.
Proof.
  intros [Hrest _] Ha Hb Hab Hmin k Hk.
  destruct (decide (parent k = i)) as [Hp|Hp]; [|apply Hrest; assumption].
  intros x y. rewrite Hp, Ha. intros [= <-] Hy.
  apply (pathLe_trans _ b); [exact Hab|]. apply (Hmin k y); assumption.
Qed.

(** The step of [down]: after the swap of [i] and its least child [j], the
    file out of place is the one at [j]. *)
Lemma downInv_swap n (h : Heap) i j a b :
  (0 < j < n)%nat -> (n ≤ length h)%nat -> parent j = i ->
  h !! i = Some a -> h !! j = Some b -> pathLt b a ->
  (forall k y, (0 < k < n)%nat -> parent k = i -> h !! k = Some y -> pathLe b y) ->
  downInv n h i ->
  downInv n (<[j := a]> (<[i := b]> h)) j.
Proof.
  intros Hj Hn Hpj Ha Hb Hlt Hmin [Hrest Hgrand].
  pose proof (parent_lt j (proj1 Hj)) as Hij. rewrite Hpj in Hij.
  assert (Hilen : (i < length h)%nat) by lia.
  assert (Hjlen : (j < length h)%nat) by lia.
  split; intros k Hk Hp.
  - intros x y. rewrite !swapped_lookup by assumption.
    pose proof (parent_lt k (proj1 Hk)) as Hpk.
    rewrite (decide_False (P := parent k = j)) by exact Hp.
    destruct (decide (parent k = i)) as [Hpi|Hpi].
    + intros [= <-].
      destruct (decide (k = j)) as [->|Hkj]; [intros [= <-]; apply pathLt_le, Hlt|].
      rewrite decide_False by lia.
      intros Hy. apply (Hmin k y); assumption.
    + intros Hx.
      rewrite (decide_False (P := k = j)) by congruence.
      destruct (decide (k = i)) as [->|Hki].
      * intros [= <-]. apply (Hgrand j Hj Hpj ltac:(lia) x b Hx Hb).
      * intros Hy. apply (Hrest k Hk Hpi x y Hx Hy).
  - intros _ x y. rewrite !swapped_lookup by assumption.
    pose proof (parent_lt k (proj1 Hk)) as Hpk.
    rewrite Hpj. rewrite (decide_False (P := i = j)) by lia.
    rewrite (decide_True (P := i = i)) by reflexivity.
    intros [= <-].
    rewrite (decide_False (P := k = j)) by lia.
    rewrite (decide_False (P := k = i)) by lia.
    intros Hy. apply (Hrest k Hk ltac:(lia) b y); [rewrite Hp; exact Hb|exact Hy].
Qed.

Lemma chosen_child_range n i (right : bool) :
  (2 * i + 1 < n)%nat ->
  (if decide (2 * i + 1 + 1 < n)%nat then true else negb right) = true ->
  let j := (if right then 2 * i + 1 + 1 else 2 * i + 1)%nat in
  (0 < j < n)%nat /\ parent j = i.
Proof.
  intros Hj1 Hr j. subst j.
  destruct right.
  - destruct (decide (2 * i + 1 + 1 < n)%nat); [|discriminate].
    split; [lia|]. apply parent_child; lia.
  - split; [lia|]. apply parent_child; lia.
Qed.

Lemma right_child_Some n (h : Heap) i :
  (2 * i + 1 < n)%nat -> (n ≤ length h)%nat ->
  exists right,
    (if decide (2 * i + 1 + 1 < n)%nat
     then Less h (2 * i + 1 + 1) (2 * i + 1) else Some false) = Some right /\
    (if decide (2 * i + 1 + 1 < n)%nat then true else negb right) = true.
Proof.
  intros Hj1 Hn.
  destruct (decide (2 * i + 1 + 1 < n)%nat) as [Hj2|Hj2].
  - destruct (lookup_lt_is_Some_2 h (2 * i + 1) ltac:(lia)) as [c1 Hc1].
    destruct (lookup_lt_is_Some_2 h (2 * i + 1 + 1) ltac:(lia)) as [c2 Hc2].
    rewrite (Less_Some h _ _ c2 c1 Hc2 Hc1). eexists. split; reflexivity.
  - exists false. split; reflexivity.
Qed.

(** [down] returns when it has one unit of fuel for each index from [i] to
    [n]; the files are the same, and those from [n] on stay in place. *)
Lemma down_total fuel : forall (h : Heap) i n,
  (n ≤ length h)%nat -> (n - i < fuel)%nat ->
  exists h', down fuel h i n = Some h' /\ h' ≡ₚ h /\
             forall k, (n ≤ k)%nat -> h' !! k = h !! k.
Proof.
  induction fuel as [|fuel IH]; intros h i n Hn Hfuel; [lia|].
  rewrite down_unfold.
  destruct (decide (n ≤ 2 * i + 1)%nat) as [Hleaf|Hj1].
  { exists h. split; [reflexivity|]. split; [reflexivity|]. intros; reflexivity. }
  assert (Hj1' : (2 * i + 1 < n)%nat) by lia.
  destruct (right_child_Some n h i Hj1' Hn) as (right & -> & Hr). cbn [mbind option_bind].
  destruct (chosen_child_range n i right Hj1' Hr) as [Hj Hpj].
  set (j := (if right then 2 * i + 1 + 1 else 2 * i + 1)%nat) in *.
  pose proof (parent_lt j (proj1 Hj)) as Hij. rewrite Hpj in Hij.
  destruct (lookup_lt_is_Some_2 h i ltac:(lia)) as [a Ha].
  destruct (lookup_lt_is_Some_2 h j ltac:(lia)) as [b Hb].
  rewrite (Less_Some h j i b a Hb Ha). cbn [mbind option_bind].
  destruct (String.ltb (path b) (path a)); cbn [negb].
  - rewrite (Swap_Some h i j a b Ha Hb). cbn [mbind option_bind].
    destruct (IH (<[j := a]> (<[i := b]> h)) j n) as (h' & Hdown & Hperm & Hkeep).
    + rewrite swapped_length. exact Hn.
    + lia.
    + exists h'. split; [exact Hdown|]. split.
      * rewrite Hperm. apply swapped_Permutation; assumption.
      * intros k Hk. rewrite (Hkeep k Hk).
        rewrite swapped_lookup by lia.
        rewrite !decide_False by lia. reflexivity.
  - exists h. split; [reflexivity|]. split; [reflexivity|]. intros; reflexivity.
Qed.

(** [down] makes a heap of the first [n] files when they are a heap but for
    the file at [i]. *)
Lemma down_heapOrdered fuel : forall (h h' : Heap) i n,
  (n ≤ length h)%nat -> downInv n h i -> down fuel h i n = Some h' ->
  heapOrdered n h'.
Proof.
  induction fuel as [|fuel IH]; intros h h' i n Hn Hinv; [discriminate|].
  rewrite down_unfold.
  destruct (decide (n ≤ 2 * i + 1)%nat) as [Hleaf|Hj1].
  { intros [= <-]. apply (downInv_leaf n h i); assumption. }
  assert (Hj1' : (2 * i + 1 < n)%nat) by lia.
  destruct (right_child_Some n h i Hj1' Hn) as (right & Hright & Hr).
  rewrite Hright. cbn [mbind option_bind].
  destruct (chosen_child_range n i right Hj1' Hr) as [Hj Hpj].
  pose proof (chosen_child n h i right) as Hmin.
  set (j := (if right then 2 * i + 1 + 1 else 2 * i + 1)%nat) in *.
  pose proof (parent_lt j (proj1 Hj)) as Hij. rewrite Hpj in Hij.
  destruct (lookup_lt_is_Some_2 h i ltac:(lia)) as [a Ha].
  destruct (lookup_lt_is_Some_2 h j ltac:(lia)) as [b Hb].
  specialize (Hmin b Hj1' Hn Hright Hb).
  rewrite (Less_Some h j i b a Hb Ha). cbn [mbind option_bind].
  destruct (String.ltb (path b) (path a)) eqn:Hlt; cbn [negb].
  - rewrite (Swap_Some h i j a b Ha Hb). cbn [mbind option_bind].
    apply IH.
    + rewrite swapped_length. exact Hn.
    + apply downInv_swap; assumption.
  - intros [= <-]. apply (downInv_heapOrdered n h i a b j); assumption.
Qed.

(** ** [heap.Pop] and the loop of [Print] *)

(** The root of a heap is no greater than any of its files. *)
Lemma heap_root_min (h : Heap) root :
  heapOrdered (length h) h -> h !! 0%nat = Some root ->
  forall k x, h !! k = Some x -> pathLe root x.
Proof.
  intros Hh Hroot k. induction k as [k IH] using lt_wf_ind. intros x Hx.
  destruct (decide (k = O)) as [->|Hk].
  - rewrite Hroot in Hx. injection Hx as <-. apply pathLe_refl.
  - apply lookup_lt_Some in Hx as Hlen.
    pose proof (parent_lt k ltac:(lia)) as Hp.
    destruct (lookup_lt_is_Some_2 h (parent k) ltac:(lia)) as [y Hy].
    apply (pathLe_trans _ y).
    + apply (IH (parent k) Hp y Hy).
    + apply (Hh k ltac:(lia) y x Hy Hx).
Qed.

Lemma heapOrdered_take n (h : Heap) :
  (n ≤ length h)%nat -> heapOrdered n h -> heapOrdered (length (take n h)) (take n h).
Proof.
  intros Hn Hh k Hk. rewrite length_take in Hk.
  pose proof (parent_lt k (proj1 Hk)) as Hp.
  intros a b. rewrite !lookup_take_lt by lia. apply Hh. lia.
Qed.

(** [heap.Pop] on a heap that is not empty returns its root, which is a
    least file, and leaves a heap of the other files. *)
Lemma heap_Pop_spec (h : Heap) :
  h <> [] -> heapOrdered (length h) h ->
  exists root h',
    heap_Pop h = Some (h', root) /\ root :: h' ≡ₚ h /\
    heapOrdered (length h') h' /\ (forall x, x ∈ h -> pathLe root x).
Proof.
  intros Hne Hh. unfold heap_Pop, Len.
  destruct (length h) as [|n] eqn:Hlen; [destruct h; [contradiction|discriminate]|].
  destruct (lookup_lt_is_Some_2 h 0 ltac:(lia)) as [root Hroot].
  destruct (lookup_lt_is_Some_2 h n ltac:(lia)) as [last Hlast].
  exists root.
  rewrite (Swap_Some h 0 n root last Hroot Hlast). cbn [mbind option_bind].
  set (h1 := <[n := root]> (<[0%nat := last]> h)).
  assert (Hlen1 : length h1 = S n) by (unfold h1; rewrite swapped_length; exact Hlen).
  assert (Hinv : downInv n h1 0).
  { split; intros k Hk Hp; [|lia].
    pose proof (parent_lt k (proj1 Hk)) as Hpk.
    intros a b. unfold h1. rewrite !swapped_lookup by lia.
    rewrite !decide_False by lia.
    apply Hh. lia. }
  destruct (down_total (S n) h1 0 n ltac:(lia) ltac:(lia)) as (h2 & Hdown & Hperm & Hkeep).
  rewrite Hdown. cbn [mbind option_bind].
  assert (Hlen2 : length h2 = S n) by (rewrite (Permutation_length Hperm); exact Hlen1).
  assert (Hlast2 : h2 !! n = Some root).
  { rewrite (Hkeep n ltac:(lia)). unfold h1. rewrite swapped_lookup by lia.
    rewrite decide_True by reflexivity. reflexivity. }
  unfold Pop. rewrite Hlen2, Hlast2. cbn [mbind option_bind].
  exists (take n h2). split; [reflexivity|].
  assert (Hsplit : h2 = take n h2 ++ [root]).
  { rewrite <- (take_drop n h2) at 1. f_equal.
    apply list_eq. intros [|k].
    - rewrite lookup_drop, Nat.add_0_r. exact Hlast2.
    - rewrite lookup_drop. simpl. apply lookup_ge_None_2. lia. }
  split; [|split].
  - rewrite Permutation_cons_append, <- Hsplit, Hperm.
    apply swapped_Permutation; assumption.
  - apply heapOrdered_take; [lia|].
    apply (down_heapOrdered (S n) h1 h2 0 n); [lia|exact Hinv|exact Hdown].
  - intros x Hx. apply list_elem_of_lookup in Hx as [k Hk].
    apply (heap_root_min h root) with (k := k); [rewrite Hlen; exact Hh|exact Hroot|exact Hk].
Qed.

Lemma popAll_unfold fuel (h : Heap) :
  h <> [] ->
  popAll (S fuel) h = '(h', f) ← heap_Pop h; rest ← popAll fuel h'; Some (f :: rest).
Proof. destruct h; [contradiction|reflexivity]. Qed.

(** The loop of [Print] empties a heap in ascending order of path. *)
Lemma popAll_spec fuel : forall h : Heap,
  (length h ≤ fuel)%nat -> heapOrdered (length h) h ->
  exists out, popAll fuel h = Some out /\ out ≡ₚ h /\ StronglySorted pathLe out.
Proof.
  induction fuel as [|fuel IH]; intros h Hfuel Hh.
  - destruct h; [|simpl in Hfuel; lia].
    exists []. split; [reflexivity|]. split; [reflexivity|constructor].
  - destruct (decide (h = [])) as [->|Hne].
    { exists []. split; [reflexivity|]. split; [reflexivity|constructor]. }
    rewrite (popAll_unfold fuel h Hne).
    destruct (heap_Pop_spec h Hne Hh) as (root & h' & -> & Hperm & Hh' & Hmin).
    cbn [mbind option_bind].
    destruct (IH h') as (out & -> & Hout & Hsorted).
    + apply Permutation_length in Hperm. simpl in Hperm. lia.
    + exact Hh'.
    + cbn [mbind option_bind]. exists (root :: out).
      split; [reflexivity|]. split.
      * rewrite Hout. exact Hperm.
      * constructor; [exact Hsorted|].
        apply Forall_forall. intros x Hx. apply Hmin.
        rewrite <- Hperm. apply list_elem_of_further. rewrite <- Hout. exact Hx.
Qed.

(** Pushing files one after the other gives a heap of them. *)
Lemma pushAll_from (fs : list File) : forall h0 : Heap,
  heapOrdered (length h0) h0 ->
  exists h, foldl (fun acc f => h ← acc; heap_Push h f) (Some h0) fs = Some h /\
            h ≡ₚ h0 ++ fs /\ heapOrdered (length h) h.
Proof.
  induction fs as [|f fs IH]; intros h0 Hh0; simpl.
  - exists h0. rewrite app_nil_r. split; [reflexivity|]. split; [reflexivity|exact Hh0].
  - destruct (heap_Push_total h0 f) as (h1 & Hpush & Hperm1).
    rewrite Hpush.
    destruct (IH h1 (heap_Push_heapOrdered h0 h1 f Hh0 Hpush)) as (h & Hfold & Hperm & Hh).
    exists h. split; [exact Hfold|]. split; [|exact Hh].
    rewrite Hperm, Hperm1. apply Permutation_middle.
Qed.

Lemma pushAll_spec (fs : list File) :
  exists h, pushAll fs = Some h /\ h ≡ₚ fs /\ heapOrdered (length h) h.
Proof.
  unfold pushAll. change (heap_Init []) with (Some ([] : list File)).
  apply (pushAll_from fs []). intros k Hk. simpl in Hk. lia.
Qed.

(** With paths that differ, ascending is strictly ascending. *)
Lemma StronglySorted_pathLt (l : list File) :
  NoDup (path <$> l) -> StronglySorted pathLe l -> StronglySorted pathLt l.
Proof.
  induction l as [|a l IH]; intros Hnd Hs; [constructor|].
  rewrite fmap_cons in Hnd. apply NoDup_cons in Hnd as [Ha Hnd].
  apply StronglySorted_inv in Hs as [Hs Hall].
  constructor; [apply IH; assumption|].
  apply Forall_forall. intros x Hx.
  apply pathLe_lt.
  - rewrite Forall_forall in Hall. apply Hall, Hx.
  - intros Heq. apply Ha. rewrite Heq. apply list_elem_of_fmap_2. exact Hx.
Qed.

(** C2.  For files of pairwise different paths pushed on the heap in any
    order, the loop of [Print] returns: it pops exactly the files pushed,
    each once, in strictly ascending order of path, and the order is the
    same for every order of pushing. *)
Theorem Print_ascending_whatever_the_arrival :
  forall fs fs' : list File,
    NoDup (path <$> fs) -> fs ≡ₚ fs' ->
    exists (h h' : Heap) (out : list File),
      pushAll fs = Some h /\ pushAll fs' = Some h' /\
      popAll (Len h) h = Some out /\ popAll (Len h') h' = Some out /\
      Print h = Some (out ≫= printFile) /\ Print h' = Some (out ≫= printFile) /\
      out ≡ₚ fs /\ NoDup out /\ StronglySorted pathLt out.
Proof.
  intros fs fs' Hnd Hperm.
  destruct (pushAll_spec fs) as (h & Hpush & Hh & Hheap).
  destruct (pushAll_spec fs') as (h' & Hpush' & Hh' & Hheap').
  destruct (popAll_spec (Len h) h (le_n _) Hheap) as (out & Hpop & Hout & Hsorted).
  destruct (popAll_spec (Len h') h' (le_n _) Hheap') as (out' & Hpop' & Hout' & Hsorted').
  assert (Hnd_out : NoDup (path <$> out)) by (rewrite Hout, Hh; exact Hnd).
  assert (Hnd_out' : NoDup (path <$> out')) by (rewrite Hout', Hh', <- Hperm; exact Hnd).
  apply StronglySorted_pathLt in Hsorted; [|exact Hnd_out].
  apply StronglySorted_pathLt in Hsorted'; [|exact Hnd_out'].
  assert (Heq : out = out').
  { apply (StronglySorted_unique_strong pathLt); [|assumption|assumption|].
    - intros x1 x2 _ _ H12 H21. apply pathLt_le in H12.
      unfold pathLe, pathLt in *. congruence.
    - rewrite Hout, Hh, Hperm, <- Hh', <- Hout'. reflexivity. }
  subst out'.
  exists h, h', out.
  split; [exact Hpush|]. split; [exact Hpush'|].
  split; [exact Hpop|]. split; [exact Hpop'|].
  split; [unfold Print; rewrite Hpop; reflexivity|].
  split; [unfold Print; rewrite Hpop'; reflexivity|].
  split; [rewrite Hout; exact Hh|].
  split; [apply (NoDup_fmap_1 path); exact Hnd_out|exact Hsorted].
Qed.

Lemma Print_ascending_whatever_the_arrival_witness :
  let a := newFile "a.go" (Some nonASCII) None in
  let b := newFile "b.go" (Some nonASCII) None in
  exists (h h' : Heap) (out : list File),
    pushAll [b; a] = Some h /\ pushAll [a; b] = Some h' /\
    popAll (Len h) h = Some out /\ popAll (Len h') h' = Some out /\
    Print h = Some (out ≫= printFile) /\ Print h' = Some (out ≫= printFile) /\
    out ≡ₚ [b; a] /\ NoDup out /\ StronglySorted pathLt out.
Proof.
  intros a b.
  apply (Print_ascending_whatever_the_arrival [b; a] [a; b]).
  - compute_done.
  - apply perm_swap.
Defined.

(** ** The aggregation loop *)

(** C6.  A result with a failure adds one to the error count (the count
    being an [int] below its greatest value) and leaves the report heap as
    it was, so the file is not in the report and the number of files in it
    does not change; a result without a failure is pushed on the heap when
    its MatchSet is not empty, the error count unchanged, and changes
    nothing when it is empty. *)
Theorem aggregate_result :
  forall (opts : Options) (a : Aggregate) (f : File),
    (Error f <> None ->
       exists a', aggregate opts a f = Some a' /\
                  scanErrorsCnt a' = incr (scanErrorsCnt a) /\
                  (- 2 ^ 63 <= scanErrorsCnt a < 2 ^ 63 - 1 ->
                   scanErrorsCnt a' = scanErrorsCnt a + 1) /\
                  filesContainingKorean a' = filesContainingKorean a /\
                  Len (filesContainingKorean a') = Len (filesContainingKorean a)) /\
    (Error f = None ->
       (MatchedLines f <> ∅ ->
          exists a', aggregate opts a f = Some a' /\
                     filesContainingKorean a' ≡ₚ f :: filesContainingKorean a /\
                     Len (filesContainingKorean a') = S (Len (filesContainingKorean a)) /\
                     scanErrorsCnt a' = scanErrorsCnt a) /\
       (MatchedLines f = ∅ -> aggregate opts a f = Some a)).
Proof.
  intros opts a f. unfold aggregate. split.
  - intros He. destruct (Error f) as [e|]; [|contradiction].
    eexists. split; [reflexivity|]. simpl.
    split; [reflexivity|]. split; [apply incr_small|]. split; reflexivity.
  - intros ->. split.
    + intros Hne. rewrite decide_True.
      * destruct (heap_Push_total (filesContainingKorean a) f) as (h' & -> & Hperm).
        cbn [mbind option_bind]. eexists. split; [reflexivity|]. simpl.
        split; [exact Hperm|]. split; [|reflexivity].
        unfold Len. rewrite (Permutation_length Hperm). reflexivity.
      * unfold FoundLines. apply map_size_non_empty_iff in Hne. lia.
    + intros Hempty. rewrite decide_False; [reflexivity|].
      unfold FoundLines. rewrite Hempty, map_size_empty. lia.
Qed.

(** A report that holds one file and has counted three errors: a file that
    cannot be opened is counted and not added; a file with a matching line
    is added and not counted; a file with no matching line changes
    nothing. *)
Lemma aggregate_result_witness :
  let opts := mkOptions false false in
  let kept := newFile "k.go" (Some nonASCII) None in
  let a := mkAggregate [kept] 3 [] in
  let unreadable := Scan (fun _ => inl EACCES) (newFile "secret.go" (Some nonASCII) None) in
  let matching := Scan (oneFile "a.go" (mkReader [(bytes "é", false)] AtEOF))
                       (newFile "a.go" (Some nonASCII) None) in
  let plain := Scan (oneFile "b.go" (mkReader [(bytes "hello", false)] AtEOF))
                    (newFile "b.go" (Some nonASCII) None) in
  (exists a', aggregate opts a unreadable = Some a' /\
              scanErrorsCnt a' = 4 /\ filesContainingKorean a' = [kept]) /\
  (exists a', aggregate opts a matching = Some a' /\
              filesContainingKorean a' ≡ₚ [matching; kept] /\
              Len (filesContainingKorean a') = 2%nat /\ scanErrorsCnt a' = 3) /\
  aggregate opts a plain = Some a.
Proof.
  intros opts kept a unreadable matching plain.
  split; [|split].
  - destruct (proj1 (aggregate_result opts a unreadable))
      as (a' & Ha' & _ & Hcnt & Hheap & _); [vm_compute; discriminate|].
    exists a'. split; [exact Ha'|]. split; [|exact Hheap].
    rewrite Hcnt; [reflexivity|simpl; lia].
  - destruct (proj2 (aggregate_result opts a matching) eq_refl) as [Hpush _].
    destruct Hpush as (a' & Ha' & Hperm & Hlen & Hcnt).
    + intros Hempty.
      assert (H1 : MatchedLines matching !! 1 = Some (bytes "é")) by (vm_compute; reflexivity).
      rewrite Hempty, lookup_empty in H1. discriminate.
    + exists a'. split; [exact Ha'|]. split; [exact Hperm|]. split; [exact Hlen|exact Hcnt].
  - apply (proj2 (aggregate_result opts a plain) eq_refl).
    vm_compute. reflexivity.
Defined.

(** ** [Data] *)

Lemma data_scanLoop_returned compile fn tokens : forall n d d',
  data.scanLoop compile fn tokens n d = inl d' ->
  data.ScanError d' <> None /\ data.isScanned d' = data.isScanned d.
Proof.
  induction tokens as [|lineText tokens IH]; intros n d d'; simpl; [discriminate|].
  destruct (fn lineText); [apply IH|].
  destruct (data.MatchString compile (data.matchString d) lineText) as [matched [e|]].
  - intros [= <-]. split; [discriminate|reflexivity].
  - intros H. apply IH in H as [He Hs]. split; [exact He|].
    rewrite Hs. destruct matched; reflexivity.
Qed.

Lemma data_scanLoop_ended compile fn tokens : forall n d d',
  data.scanLoop compile fn tokens n d = inr d' ->
  data.ScanError d' = data.ScanError d /\ data.isScanned d' = data.isScanned d.
Proof.
  induction tokens as [|lineText tokens IH]; intros n d d'; simpl.
  - intros [= <-]. split; reflexivity.
  - destruct (fn lineText); [apply IH|].
    destruct (data.MatchString compile (data.matchString d) lineText) as [matched [e|]];
      [discriminate|].
    intros H. apply IH in H as [He Hs]. rewrite He, Hs.
    destruct matched; split; reflexivity.
Qed.

(** A scan of a fresh [Data] that ends with an error has not set
    [isScanned]. *)
Lemma data_Scan_error fs compile fn d :
  data.isScanned d = false -> data.ScanError d = None ->
  data.ScanError (data.Scan fs compile fn d) <> None ->
  data.isScanned (data.Scan fs compile fn d) = false.
Proof.
  intros Hs He0. unfold data.Scan.
  destruct (fs (data.path d)) as [errno|scanner]; [intros _; exact Hs|].
  destruct (data.scanLoop compile fn (data.tokens scanner) 1 d) as [d'|d'] eqn:Hloop.
  - intros _. apply data_scanLoop_returned in Hloop as [_ ->]. exact Hs.
  - apply data_scanLoop_ended in Hloop as [He Hs'].
    destruct (data.err scanner) as [e|].
    + intros _. simpl. rewrite Hs'. exact Hs.
    + simpl. rewrite He, He0. intros H. contradiction H. reflexivity.
Qed.

(** C10, for a new [Data].  [HasMatchedString] is true exactly when
    [isScanned] is set and the map of matched lines is not empty.  A scan
    of a new [Data] that ends with an error leaves [isScanned] unset, so
    [HasMatchedString] is false after it, also when the map holds the
    matches found before the error, as it does for a file whose first line
    matches and whose scanner then fails. *)
Theorem HasMatchedString_after_Scan :
  (forall d : data.Data,
     data.HasMatchedString d = true <->
     data.isScanned d = true /\ data.linesContainingMatchString d <> ∅) /\
  (forall fs compile fn filePath matchString,
     let d := data.Scan fs compile fn (data.New filePath matchString) in
     data.ScanError d <> None ->
     data.isScanned d = false /\ data.HasMatchedString d = false) /\
  (let fs : data.FileSystem :=
     fun _ => inr (data.mkScanner ["안녕"; "hello"] (Some bufio_ErrTooLong)) in
   let d := data.Scan fs exampleCompile (fun _ => false)
                      (data.New "a.go" "[^\x00-\x7F]") in
   data.ScanError d = Some bufio_ErrTooLong /\
   data.linesContainingMatchString d = {[ 1 := "안녕"%string ]} /\
   data.HasMatchedString d = false).
Proof.
  split; [|split].
  - intros d. unfold data.HasMatchedString.
    destruct (data.isScanned d); simpl.
    + rewrite bool_decide_eq_true, <- map_size_non_empty_iff.
      split; [intros H; split; [reflexivity|lia]|intros [_ H]; lia].
    + split; [discriminate|intros [H _]; discriminate].
  - intros fs compile fn filePath matchString d He.
    assert (Hs : data.isScanned d = false)
      by (apply data_Scan_error; [reflexivity|reflexivity|exact He]).
    split; [exact Hs|].
    unfold data.HasMatchedString. rewrite Hs. reflexivity.
  - split; [reflexivity|]. split; [|reflexivity].
    vm_compute. reflexivity.
Qed.

(** A file whose first line matches and whose scanner then fails on a line
    that is too long: the map holds line 1 and [HasMatchedString] is
    false. *)
Lemma HasMatchedString_after_Scan_witness :
  let fs : data.FileSystem :=
    fun _ => inr (data.mkScanner ["안녕"] (Some bufio_ErrTooLong)) in
  let d := data.Scan fs exampleCompile (fun _ => false) (data.New "a.go" "[^\x00-\x7F]") in
  data.linesContainingMatchString d !! 1 = Some "안녕"%string /\
  data.isScanned d = false /\ data.HasMatchedString d = false.
Proof.
  intros fs d.
  destruct HasMatchedString_after_Scan as (_ & Herr & _).
  split; [vm_compute; reflexivity|].
  apply (Herr fs exampleCompile (fun _ => false) "a.go" "[^\x00-\x7F]").
  vm_compute. discriminate.
Defined.

(** C10 fails for a [Data] that is scanned again: [Scan] never unsets
    [isScanned], so after a scan that completed and found a line, a second
    scan that cannot open the file leaves an error and [HasMatchedString]
    true. *)
Lemma HasMatchedString_true_after_failed_rescan :
  let present : data.FileSystem := fun _ => inr (data.mkScanner ["안녕"] None) in
  let gone : data.FileSystem := fun _ => inl ENOENT in
  let d1 := data.Scan present exampleCompile (fun _ => false)
                      (data.New "a.go" "[^\x00-\x7F]") in
  let d2 := data.Scan gone exampleCompile (fun _ => false) d1 in
  data.ScanError d2 = Some (PathError "open" "a.go" ENOENT) /\
  data.isScanned d2 = true /\
  data.HasMatchedString d2 = true.
Proof. split; [reflexivity|]. split; vm_compute; reflexivity. Qed.

(** ** Where a pattern that does not compile is reported *)

(** The failure [File.Scan] leaves is the one the file came with or the
    error of an [open] or of a [read]. *)
Lemma Scan_scanError_cases (fs : FileSystem) (f : File) :
  scanError (Scan fs f) = scanError f \/
  exists op errno, scanError (Scan fs f) = Some (PathError op (path f) errno).
Proof.
  unfold Scan. destruct (matchRegex f) as [m|]; [|left; reflexivity].
  destruct (fs (path f)) as [errno|r].
  - right. exists "open"%string, errno. reflexivity.
  - rewrite scanLoop_scanError. destruct (ending r) as [|errno].
    + left. reflexivity.
    + right. exists "read"%string, errno. reflexivity.
Qed.

(** With a pattern that does not compile, the loop of [Data.Scan] returns
    at the first line that is not a comment, the error of the compilation
    stored. *)
Lemma data_scanLoop_pattern_error compile fn code e tokens : forall n d,
  compile (data.matchString d) = inl (code, e) ->
  (exists l, l ∈ tokens /\ fn l = false) ->
  data.scanLoop compile fn tokens n d = inl (data.set_ScanError d (syntax_Error code e)).
Proof.
  induction tokens as [|lineText tokens IH]; intros n d Hc [l [Hl Hfn]].
  - apply elem_of_nil in Hl. contradiction.
  - simpl. destruct (fn lineText) eqn:Hcomment.
    + apply IH; [exact Hc|]. exists l. split; [|exact Hfn].
      apply elem_of_cons in Hl as [->|Hl]; [congruence|exact Hl].
    + unfold data.MatchString. rewrite Hc. reflexivity.
Qed.


(** ** [ScanFiles] *)

Section Coordination.
Variable fs : FileSystem.
Variables m ig : option Regexp.

Lemma pending_insert (ts : list Task) : forall i t t',
  ts !! i = Some t ->
  (pending (<[i := t']> ts) + unfinished t = pending ts + unfinished t')%nat.
Proof.
  induction ts as [|t0 ts IH]; intros [|i] t t' Hi; try discriminate; simpl in *.
  - injection Hi as ->. lia.
  - specialize (IH i t t' Hi). lia.
Qed.

Lemma stepsLeft_insert (ts : list Task) : forall i t t',
  ts !! i = Some t ->
  (stepsLeft (<[i := t']> ts) + remaining t = stepsLeft ts + remaining t')%nat.
Proof.
  induction ts as [|t0 ts IH]; intros [|i] t t' Hi; try discriminate; simpl in *.
  - injection Hi as ->. lia.
  - specialize (IH i t t' Hi). lia.
Qed.

Lemma delivered_insert (filePaths : list string) : forall (ts : list Task) i p t t',
  filePaths !! i = Some p -> ts !! i = Some t ->
  deliveredBy fs m ig p t' ++ delivered fs m ig filePaths ts ≡ₚ
  deliveredBy fs m ig p t ++ delivered fs m ig filePaths (<[i := t']> ts).
Proof.
  induction filePaths as [|p0 filePaths IH]; intros [|t0 ts] [|i] p t t' Hp Ht;
    try discriminate; simpl in *.
  - injection Hp as ->. injection Ht as ->.
    rewrite !app_assoc. apply Permutation_app_tail, Permutation_app_comm.
  - specialize (IH ts i p t t' Hp Ht).
    rewrite (app_assoc (deliveredBy fs m ig p t')), (app_assoc (deliveredBy fs m ig p t)).
    rewrite (Permutation_app_comm _ (deliveredBy fs m ig p0 t0)).
    rewrite (Permutation_app_comm (deliveredBy fs m ig p t) (deliveredBy fs m ig p0 t0)).
    rewrite <- !app_assoc. apply Permutation_app_head. exact IH.
Qed.

Lemma pending_zero (ts : list Task) : pending ts = O -> Forall (fun t => t = Finished) ts.
Proof.
  induction ts as [|t ts IH]; simpl; intros H; constructor.
  - destruct t; simpl in H; try lia. reflexivity.
  - apply IH. lia.
Qed.

Lemma pending_positive (ts : list Task) :
  (0 < pending ts)%nat -> exists i t, ts !! i = Some t /\ t <> Finished.
Proof.
  induction ts as [|t ts IH]; simpl; intros H; [lia|].
  destruct (decide (unfinished t = O)) as [H0|H0].
  - destruct IH as (i & t' & Hi & Ht'); [lia|]. exists (S i), t'. split; assumption.
  - exists O, t. split; [reflexivity|]. intros ->. apply H0. reflexivity.
Qed.

Lemma delivered_all (filePaths : list string) : forall ts : list Task,
  length filePaths = length ts -> Forall (fun t => t = Finished) ts ->
  delivered fs m ig filePaths ts = scanned fs m ig <$> filePaths.
Proof.
  induction filePaths as [|p filePaths IH]; intros [|t ts] Hlen Hall;
    try discriminate; [reflexivity|].
  apply Forall_cons in Hall as [-> Hall]. simpl.
  f_equal. apply IH; [simpl in Hlen; lia|exact Hall].
Qed.

(** [ScanFiles] returns in a coordinated state. *)
Lemma coordinated_ScanFiles (filePaths : list string) :
  coordinated fs m ig filePaths (ScanFiles filePaths).
Proof.
  unfold coordinated, ScanFiles. simpl.
  split; [|split; [|split]].
  - induction filePaths; constructor; [reflexivity|assumption].
  - f_equal. induction filePaths as [|p filePaths IH]; simpl; [reflexivity|].
    f_equal. exact IH.
  - induction filePaths; simpl; [reflexivity|assumption].
  - discriminate.
Qed.
End Coordination.

Section Runs.
Variable fs : FileSystem.
Variables m ig : option Regexp.
Variable filePaths : list string.

Local Abbreviation ok := (coordinated fs m ig filePaths).

(** A step of a goroutine keeps the state coordinated. *)
Lemma coordinated_stepTask i c c' :
  ok c -> stepTask fs m ig i c = Some c' -> ok c'.
Proof.
  intros (Htasks & Hwg & Hrecv & Hclosed). unfold stepTask.
  destruct (tasks c !! i) as [t|] eqn:Ht; [|discriminate]. cbn [mbind option_bind].
  destruct (Forall2_lookup_r _ _ _ _ _ Htasks Ht) as (p & Hp & Htask).
  pose proof (pending_insert (tasks c) i t) as Hpend.
  pose proof (delivered_insert fs m ig filePaths (tasks c) i p t) as Hdel.
  assert (Hins : forall t', taskOf fs m ig p t' ->
            Forall2 (taskOf fs m ig) filePaths (<[i := t']> (tasks c))).
  { intros t' Ht'. rewrite <- (list_insert_id filePaths i p Hp).
    apply Forall2_insert; assumption. }
  destruct t as [q|q|f| |]; simpl in Htask.
  - intros [= <-]. subst q. unfold coordinated; simpl.
    specialize (Hpend (Scanning p) Ht). specialize (Hdel (Scanning p) Hp Ht).
    simpl in Hpend, Hdel.
    split; [apply Hins; reflexivity|]. split; [lia|].
    split; [rewrite Hrecv; exact Hdel|exact Hclosed].
  - intros [= <-]. subst q. unfold coordinated; simpl.
    specialize (Hpend (Sending (Scan fs (newFile p m ig))) Ht).
    specialize (Hdel (Sending (Scan fs (newFile p m ig))) Hp Ht).
    simpl in Hpend, Hdel.
    split; [apply Hins; reflexivity|]. split; [lia|].
    split; [rewrite Hrecv; exact Hdel|exact Hclosed].
  - destruct (closed c) eqn:Hc; [discriminate|].
    intros [= <-]. subst f. unfold coordinated; simpl.
    specialize (Hpend Sent Ht). specialize (Hdel Sent Hp Ht).
    simpl in Hpend, Hdel.
    split; [apply Hins; exact I|]. split; [lia|].
    split; [|discriminate].
    rewrite <- Hdel, <- Hrecv. symmetry. apply Permutation_cons_append.
  - destruct (decide (wg c - 1 < 0)) as [Hneg|Hpos]; [discriminate|].
    intros [= <-]. unfold coordinated; simpl.
    specialize (Hpend Finished Ht). specialize (Hdel Finished Hp Ht).
    simpl in Hpend, Hdel.
    split; [apply Hins; exact I|]. split; [lia|].
    split; [|intros Hc; specialize (Hclosed Hc); lia].
    rewrite Hrecv. apply (Permutation_cons_inv Hdel).
  - discriminate.
Qed.

Lemma coordinated_step ch c c' :
  ok c -> step fs m ig ch c = Some c' -> ok c'.
Proof.
  destruct ch as [i|]; simpl; [apply coordinated_stepTask|].
  intros (Htasks & Hwg & Hrecv & Hclosed). unfold stepCloser.
  destruct (decide (wg c = 0)) as [H0|]; [|discriminate].
  destruct (closed c); [discriminate|].
  intros [= <-]. unfold coordinated; simpl.
  split; [exact Htasks|]. split; [exact Hwg|]. split; [exact Hrecv|].
  intros _; exact H0.
Qed.

Lemma coordinated_run schedule : forall c c',
  ok c -> run fs m ig schedule c = Some c' -> ok c'.
Proof.
  induction schedule as [|ch schedule IH]; intros c c' Hok; simpl.
  - intros [= <-]. exact Hok.
  - destruct (step fs m ig ch c) as [c1|] eqn:Hstep; [|discriminate].
    cbn [mbind option_bind]. apply IH. apply (coordinated_step ch c); assumption.
Qed.

(** Once the channel is closed, every goroutine has finished and the
    consumer holds one result for each path. *)
Lemma coordinated_closed c :
  ok c -> closed c = true ->
  Forall (fun t => t = Finished) (tasks c) /\
  received c ≡ₚ scanned fs m ig <$> filePaths.
Proof.
  intros (Htasks & Hwg & Hrecv & Hclosed) Hc.
  specialize (Hclosed Hc).
  assert (Hall : Forall (fun t => t = Finished) (tasks c))
    by (apply pending_zero; lia).
  split; [exact Hall|].
  rewrite Hrecv, (delivered_all fs m ig filePaths (tasks c)); [reflexivity| |exact Hall].
  apply (Forall2_length _ _ _ Htasks).
Qed.

(** A goroutine that has not finished can take its step while the channel
    is open, and has one step less to take after it. *)
Lemma stepTask_enabled i t c :
  ok c -> closed c = false -> tasks c !! i = Some t -> t <> Finished ->
  exists c', stepTask fs m ig i c = Some c' /\ closed c' = false /\
             (stepsLeft (tasks c') < stepsLeft (tasks c))%nat.
Proof.
  intros (Htasks & Hwg & Hrecv & Hclosed) Hc Ht Hne. unfold stepTask.
  rewrite Ht. cbn [mbind option_bind].
  pose proof (stepsLeft_insert (tasks c) i t) as Hsteps.
  pose proof (pending_insert (tasks c) i t t Ht) as Hpend.
  destruct t as [q|q|f| |]; try contradiction.
  - eexists. split; [reflexivity|]. simpl. split; [exact Hc|].
    specialize (Hsteps (Scanning q) Ht). simpl in Hsteps. lia.
  - eexists. split; [reflexivity|]. simpl. split; [exact Hc|].
    specialize (Hsteps (Sending (Scan fs (newFile q m ig))) Ht). simpl in Hsteps. lia.
  - rewrite Hc. eexists. split; [reflexivity|]. simpl. split; [reflexivity|].
    specialize (Hsteps Sent Ht). simpl in Hsteps. lia.
  - assert (Hpos : (0 < pending (tasks c))%nat).
    { clear -Ht. revert i Ht. induction (tasks c) as [|t0 ts IH]; intros [|i] Ht;
        try discriminate; simpl in *.
      - injection Ht as ->. simpl. lia.
      - specialize (IH i Ht). lia. }
    rewrite decide_False by lia.
    eexists. split; [reflexivity|]. simpl. split; [exact Hc|].
    specialize (Hsteps Finished Ht). simpl in Hsteps. lia.
Qed.

(** From a coordinated state some schedule runs to the close of the
    channel. *)
Lemma run_to_close n : forall c,
  ok c -> (stepsLeft (tasks c) ≤ n)%nat ->
  exists schedule c', run fs m ig schedule c = Some c' /\ closed c' = true.
Proof.
  induction n as [|n IH]; intros c Hok Hn.
  - destruct (closed c) eqn:Hc; [exists [], c; split; [reflexivity|exact Hc]|].
    destruct (decide (pending (tasks c) = O)) as [H0|Hpos].
    + exists [RunCloser]. eexists. simpl. unfold stepCloser.
      destruct Hok as (_ & Hwg & _). rewrite decide_True by lia. rewrite Hc.
      split; reflexivity.
    + destruct (pending_positive (tasks c)) as (i & t & Ht & Hne); [lia|].
      destruct (stepTask_enabled i t c Hok Hc Ht Hne) as (c1 & _ & _ & Hlt). lia.
  - destruct (closed c) eqn:Hc; [exists [], c; split; [reflexivity|exact Hc]|].
    destruct (decide (pending (tasks c) = O)) as [H0|Hpos].
    + exists [RunCloser]. eexists. simpl. unfold stepCloser.
      destruct Hok as (_ & Hwg & _). rewrite decide_True by lia. rewrite Hc.
      split; reflexivity.
    + destruct (pending_positive (tasks c)) as (i & t & Ht & Hne); [lia|].
      destruct (stepTask_enabled i t c Hok Hc Ht Hne) as (c1 & Hstep & Hc1 & Hlt).
      destruct (IH c1) as (schedule & c' & Hrun & Hclosed).
      * apply (coordinated_stepTask i c); assumption.
      * lia.
      * exists (RunTask i :: schedule), c'. simpl. rewrite Hstep.
        split; [exact Hrun|exact Hclosed].
Qed.
End Runs.

(** C3.  Under every schedule of the goroutines [ScanFiles] starts: when the
    channel is closed, every goroutine has sent its result and finished, and
    what the consumer received is one scanned [File] for each path of the
    input, so as many results as paths; and from every state a run reaches,
    some schedule runs on to the close of the channel. *)
Theorem ScanFiles_one_result_per_path :
  forall (fs : FileSystem) (m ig : option Regexp) (filePaths : list string)
         (schedule : list Choice) (c : Coordinator),
    run fs m ig schedule (ScanFiles filePaths) = Some c ->
    (closed c = true ->
       Forall (fun t => t = Finished) (tasks c) /\
       received c ≡ₚ (fun p => Scan fs (newFile p m ig)) <$> filePaths /\
       length (received c) = length filePaths) /\
    (exists schedule' c',
       run fs m ig schedule' c = Some c' /\ closed c' = true).
Proof.
  intros fs m ig filePaths schedule c Hrun.
  assert (Hok : coordinated fs m ig filePaths c).
  { apply (coordinated_run fs m ig filePaths schedule (ScanFiles filePaths));
      [apply coordinated_ScanFiles|exact Hrun]. }
  split.
  - intros Hc.
    destruct (coordinated_closed fs m ig filePaths c Hok Hc) as [Hall Hrecv].
    split; [exact Hall|]. split; [exact Hrecv|].
    rewrite (Permutation_length Hrecv), length_fmap. reflexivity.
  - apply (run_to_close fs m ig filePaths (stepsLeft (tasks c))); [exact Hok|lia].
Qed.

(** Two paths, the goroutine of the second one running first. *)
Lemma ScanFiles_one_result_per_path_witness :
  let fs := oneFile "a.go" (mkReader [(bytes "é", false)] AtEOF) in
  let schedule := [RunTask 1; RunTask 1; RunTask 0; RunTask 1; RunTask 0; RunTask 0;
                   RunTask 0; RunTask 1; RunCloser]%nat in
  exists c,
    run fs (Some nonASCII) None schedule (ScanFiles ["a.go"; "b.go"]) = Some c /\
    closed c = true /\
    (path <$> received c) = ["b.go"; "a.go"] /\
    length (received c) = 2%nat.
Proof.
  intros fs schedule.
  destruct (run fs (Some nonASCII) None schedule (ScanFiles ["a.go"; "b.go"]))
    as [c|] eqn:Hrun; [|vm_compute in Hrun; discriminate].
  exists c.
  destruct (ScanFiles_one_result_per_path fs (Some nonASCII) None ["a.go"; "b.go"]
              schedule c Hrun) as [Hclosed _].
  assert (Hc : closed c = true) by (vm_compute in Hrun; injection Hrun as <-; reflexivity).
  destruct (Hclosed Hc) as (_ & _ & Hlen).
  split; [reflexivity|]. split; [exact Hc|]. split; [|exact Hlen].
  vm_compute in Hrun. injection Hrun as <-. reflexivity.
Defined.

(** ** What [printMatchedLines] writes *)

Lemma StronglySorted_le_lt (l : list Z) :
  NoDup l -> StronglySorted Z.le l -> StronglySorted Z.lt l.
Proof.
  induction l as [|k l IH]; intros Hnd Hs; [constructor|].
  apply NoDup_cons in Hnd as [Hk Hnd].
  apply StronglySorted_inv in Hs as [Hs Hall].
  constructor; [apply IH; assumption|].
  rewrite Forall_forall in Hall |- *. intros k' Hk'.
  specialize (Hall k' Hk').
  assert (k <> k') by (intros ->; contradiction). lia.
Qed.

Lemma omap_lookup_Forall2 (ms : gmap Z (list byte)) (keys : list Z) :
  (forall k, k ∈ keys -> is_Some (ms !! k)) ->
  Forall2 (fun k o => exists l, ms !! k = Some l /\ o = PrintfLine k l) keys
    (omap (fun lineNumber => lineText ← ms !! lineNumber;
                             Some (PrintfLine lineNumber lineText)) keys).
Proof.
  induction keys as [|k keys IH]; intros Hall; simpl; [constructor|].
  destruct (Hall k (list_elem_of_here _ _)) as [l Hl].
  rewrite Hl. simpl. constructor.
  - exists l. split; [exact Hl|reflexivity].
  - apply IH. intros k' Hk'. apply Hall. apply list_elem_of_further, Hk'.
Qed.

(** X1.  [printMatchedLines] writes one line for each entry of the MatchSet
    and no other, with the line number and the text of the entry, in
    strictly ascending order of line number. *)
Theorem printMatchedLines_sorted_entries :
  forall f : File,
    exists lineNumbers : list Z,
      StronglySorted Z.lt lineNumbers /\
      (forall k, k ∈ lineNumbers <-> is_Some (matchedLines f !! k)) /\
      length (printMatchedLines f) = size (matchedLines f) /\
      Forall2 (fun k o => exists l, matchedLines f !! k = Some l /\ o = PrintfLine k l)
              lineNumbers (printMatchedLines f).
Proof.
  intros f. unfold printMatchedLines.
  set (ms := matchedLines f).
  set (keys := merge_sort Z.le (fst <$> map_to_list ms)).
  assert (Hperm : keys ≡ₚ fst <$> map_to_list ms) by apply merge_sort_Permutation.
  assert (Hin : forall k, k ∈ keys <-> is_Some (ms !! k)).
  { intros k. rewrite Hperm, list_elem_of_fmap. split.
    - intros ([k' l] & -> & Hkl). apply elem_of_map_to_list in Hkl. exists l. exact Hkl.
    - intros [l Hl]. exists (k, l). split; [reflexivity|]. apply elem_of_map_to_list, Hl. }
  assert (Hout := omap_lookup_Forall2 ms keys (fun k Hk => proj1 (Hin k) Hk)).
  exists keys. split; [|split; [exact Hin|split; [|exact Hout]]].
  - apply StronglySorted_le_lt.
    + rewrite Hperm. apply NoDup_fst_map_to_list.
    + apply StronglySorted_merge_sort; apply _.
  - rewrite <- (Forall2_length _ _ _ Hout), Hperm, length_fmap.
    apply length_map_to_list.
Qed.

(** ** More of the heap *)

(** X2.  [heap.Push] never panics; the heap it returns holds the file pushed
    and the files that were there, one file more, and is a heap when the
    heap it was given is one. *)
Theorem heap_Push_adds_one :
  forall (h : Heap) (x : File),
    exists h',
      heap_Push h x = Some h' /\
      h' ≡ₚ x :: h /\
      Len h' = S (Len h) /\
      (heapOrdered (Len h) h -> heapOrdered (Len h') h').
Proof.
  intros h x.
  destruct (heap_Push_total h x) as (h' & Hpush & Hperm).
  exists h'. split; [exact Hpush|]. split; [exact Hperm|]. split.
  - unfold Len. rewrite (Permutation_length Hperm). reflexivity.
  - intros Hh. apply (heap_Push_heapOrdered h h' x Hh Hpush).
Qed.

(** X3.  [heap.Pop] panics on an empty heap.  On a heap that is not empty
    it returns the file at the root, whose path no file of the heap
    precedes, and leaves a heap of the other files, one file fewer. *)
Theorem heap_Pop_least :
  heap_Pop [] = None /\
  forall h : Heap,
    h <> [] -> heapOrdered (Len h) h ->
    exists root h',
      heap_Pop h = Some (h', root) /\
      h !! 0%nat = Some root /\
      (forall x, x ∈ h -> String.ltb (path x) (path root) = false) /\
      root :: h' ≡ₚ h /\
      S (Len h') = Len h /\
      heapOrdered (Len h') h'.
Proof.
  split; [reflexivity|].
  intros h Hne Hh.
  destruct (heap_Pop_spec h Hne Hh) as (root & h' & Hpop & Hperm & Hh' & Hmin).
  exists root, h'. split; [exact Hpop|].
  assert (Hroot : h !! 0%nat = Some root).
  { revert Hpop. unfold heap_Pop, Len.
    destruct (length h) as [|n] eqn:Hlen; [discriminate|].
    destruct (lookup_lt_is_Some_2 h 0 ltac:(lia)) as [a Ha].
    destruct (lookup_lt_is_Some_2 h n ltac:(lia)) as [b Hb].
    rewrite (Swap_Some h 0 n a b Ha Hb). cbn [mbind option_bind].
    destruct (down_total (S n) (<[n := a]> (<[0%nat := b]> h)) 0 n)
      as (h2 & Hdown & Hperm2 & Hkeep);
      [rewrite swapped_length; lia|lia|].
    rewrite Hdown. cbn [mbind option_bind]. unfold Pop.
    assert (Hlen2 : length h2 = S n).
    { rewrite (Permutation_length Hperm2), swapped_length. exact Hlen. }
    rewrite Hlen2, (Hkeep n (le_n _)), swapped_lookup by lia.
    rewrite decide_True by reflexivity. cbn [mbind option_bind].
    intros [= _ <-]. exact Ha. }
  split; [exact Hroot|]. split; [exact Hmin|]. split; [exact Hperm|].
  split; [|exact Hh'].
  unfold Len. rewrite <- (Permutation_length Hperm). reflexivity.
Qed.

Lemma heap_Pop_least_witness :
  let a := newFile "a.go" None None in
  let b := newFile "b.go" None None in
  exists root h',
    heap_Pop [a; b] = Some (h', root) /\
    [a; b] !! 0%nat = Some root /\
    (forall x, x ∈ [a; b] -> String.ltb (path x) (path root) = false) /\
    root :: h' ≡ₚ [a; b] /\
    S (Len h') = Len [a; b] /\
    heapOrdered (Len h') h'.
Proof.
  intros a b.
  apply (proj2 heap_Pop_least [a; b]); [discriminate|].
  intros k Hk x y. unfold Len in Hk. simpl in Hk.
  assert (k = 1%nat) as -> by lia.
  intros [= <-] [= <-]. reflexivity.
Defined.

(** X4.  For any files, paths repeated or not, pushed in any order: the loop
    of [Print] returns, pops every file pushed once, and in ascending order
    of path, no file coming before one whose path is less. *)
Theorem Print_ascending_with_repeated_paths :
  forall fs : list File,
    exists (h : Heap) (out : list File),
      pushAll fs = Some h /\
      popAll (Len h) h = Some out /\
      Print h = Some (out ≫= printFile) /\
      out ≡ₚ fs /\
      StronglySorted (fun a b => String.ltb (path b) (path a) = false) out.
Proof.
  intros fs.
  destruct (pushAll_spec fs) as (h & Hpush & Hh & Hheap).
  destruct (popAll_spec (Len h) h (le_n _) Hheap) as (out & Hpop & Hout & Hsorted).
  exists h, out. split; [exact Hpush|]. split; [exact Hpop|].
  split; [unfold Print; rewrite Hpop; reflexivity|].
  split; [rewrite Hout; exact Hh|exact Hsorted].
Qed.

(** X5.  The methods [Push] and [Pop] of [Heap] are a stack on the end of
    the slice: [Pop] after [Push] returns the file pushed and the slice as
    it was; [Pop] on an empty slice panics. *)
Theorem Pop_Push :
  Pop [] = None /\
  forall (h : Heap) (x : File), Pop (Push h x) = Some (h, x).
Proof.
  split; [reflexivity|].
  intros h x. unfold Pop, Push.
  rewrite length_app. simpl. rewrite Nat.add_1_r.
  rewrite lookup_app_r by lia. rewrite Nat.sub_diag. simpl.
  rewrite take_app_length. reflexivity.
Qed.

(** ** More of [File.Scan] *)

Lemma recordLines_lookup_any m ig ls : forall n ms k,
  recordLines m ig ls n ms !! k =
    match lastSelected m ig ls n k with
    | Some l => Some l
    | None => ms !! k
    end.
Proof.
  induction ls as [|l ls IH]; intros n ms k; simpl; [reflexivity|].
  rewrite IH. destruct (lastSelected m ig ls (incr n) k) as [l'|]; [reflexivity|].
  destruct (selected m ig l); simpl; [|reflexivity].
  destruct (Z.eqb_spec (incr n) k) as [->|Hne].
  - apply lookup_insert_eq.
  - apply lookup_insert_ne. exact Hne.
Qed.

Lemma recordLines_size m ig ls : forall n ms,
  (size (recordLines m ig ls n ms) ≤ size ms + length ls)%nat.
Proof.
  induction ls as [|l ls IH]; intros n ms; simpl; [lia|].
  etransitivity; [apply IH|].
  destruct (selected m ig l); [|lia].
  rewrite map_size_insert. destruct (ms !! incr n); simpl; lia.
Qed.

Lemma scanLoop_regexes m name rs e : forall line n f,
  matchRegex (scanLoop m name rs e line n f) = matchRegex f /\
  ignoreRegex (scanLoop m name rs e line n f) = ignoreRegex f.
Proof.
  induction rs as [|[chunk isPrefix] rs IH]; intros line n f.
  - rewrite scanLoop_nil. destruct e; split; reflexivity.
  - rewrite scanLoop_cons. destruct isPrefix; [apply IH|].
    destruct (ignored f _); [apply IH|].
    destruct (IH [] (incr n)
                (if Match m (line ++ chunk)
                 then set_matchedLine f (incr n) (line ++ chunk) else f)) as [-> ->].
    destruct (Match m _); split; reflexivity.
Qed.

Lemma File_eq (f g : File) :
  path f = path g -> matchRegex f = matchRegex g -> ignoreRegex f = ignoreRegex g ->
  matchedLines f = matchedLines g -> scanError f = scanError g -> f = g.
Proof. destruct f, g; simpl; intros; subst; reflexivity. Qed.

Lemma logicalLines_length rs : forall line,
  (length (logicalLines rs line) ≤ length rs)%nat.
Proof.
  induction rs as [|[chunk isPrefix] rs IH]; intros line; simpl; [lia|].
  destruct isPrefix; simpl; [specialize (IH (line ++ chunk))|specialize (IH [])]; lia.
Qed.

Lemma Scan_frame (fs : FileSystem) (f : File) :
  path (Scan fs f) = path f /\
  matchRegex (Scan fs f) = matchRegex f /\
  ignoreRegex (Scan fs f) = ignoreRegex f.
Proof.
  unfold Scan.
  destruct (matchRegex f) as [m|] eqn:Hm; [|repeat split; exact Hm].
  destruct (fs (path f)) as [errno|r]; [repeat split; exact Hm|].
  destruct (scanLoop_regexes m (path f) (results r) (ending r) [] 0 f) as [-> ->].
  rewrite scanLoop_path. repeat split. exact Hm.
Qed.

(** X6.  [Scan] leaves the path and the two patterns of the file as they
    were, and never removes a line number from the MatchSet: a number that
    has an entry before the scan has one after it. *)
Theorem Scan_keeps_identity_and_entries :
  forall (fs : FileSystem) (f : File),
    path (Scan fs f) = path f /\
    matchRegex (Scan fs f) = matchRegex f /\
    ignoreRegex (Scan fs f) = ignoreRegex f /\
    forall k, is_Some (matchedLines f !! k) -> is_Some (matchedLines (Scan fs f) !! k).
Proof.
  intros fs f. unfold Scan.
  destruct (matchRegex f) as [m|] eqn:Hm; [|repeat split; [exact Hm|intros k H; exact H]].
  destruct (fs (path f)) as [errno|r]; [repeat split; [exact Hm|intros k H; exact H]|].
  destruct (scanLoop_regexes m (path f) (results r) (ending r) [] 0 f) as [-> ->].
  rewrite scanLoop_path, scanLoop_matchedLines.
  repeat split; [exact Hm|].
  intros k Hk. rewrite recordLines_lookup_any.
  destruct (lastSelected _ _ _ _ _); [eexists; reflexivity|exact Hk].
Qed.

(** X7.  A scan that opened the file records at most as many lines as it
    read; with fewer than [2^63] lines, every line number of the MatchSet is
    between [1] and the number of lines read. *)
Theorem Scan_line_numbers_in_range :
  forall (fs : FileSystem) filePath (m : Regexp) (ig : option Regexp) r,
    fs filePath = inr r ->
    let n := length (logicalLines (results r) []) in
    let f := Scan fs (newFile filePath (Some m) ig) in
    (size (MatchedLines f) ≤ n)%nat /\
    (n ≤ length (results r))%nat /\
    (Z.of_nat n < 2 ^ 63 ->
     forall k l, MatchedLines f !! k = Some l -> 1 <= k <= Z.of_nat n).
Proof.
  intros fs filePath m ig r Hr n f. split; [|split].
  - unfold f, MatchedLines.
    rewrite (Scan_opened fs _ m r) by (reflexivity || exact Hr).
    rewrite scanLoop_matchedLines. simpl.
    etransitivity; [apply recordLines_size|]. rewrite map_size_empty. reflexivity.
  - apply logicalLines_length.
  - intros Hlen k l Hk.
    apply (Scan_matchedLines_lookup fs filePath m ig r k l Hr Hlen) in Hk
      as (i & -> & Hi & _).
    apply lookup_lt_Some in Hi. fold n in Hi. lia.
Qed.

Lemma Scan_line_numbers_in_range_witness :
  let r := mkReader [(bytes "// x", false); (bytes "é", false)] AtEOF in
  let f := Scan (oneFile "a.go" r) (newFile "a.go" (Some nonASCII) (Some slashes)) in
  (size (MatchedLines f) ≤ 2)%nat /\
  forall k l, MatchedLines f !! k = Some l -> 1 <= k <= 2.
Proof.
  intros r f.
  destruct (Scan_line_numbers_in_range (oneFile "a.go" r) "a.go" nonASCII (Some slashes) r
              eq_refl) as (Hsize & _ & Hrange).
  split; [exact Hsize|].
  apply Hrange. vm_compute. reflexivity.
Defined.

Lemma recordLines_twice m ig ls n ms :
  recordLines m ig ls n (recordLines m ig ls n ms) = recordLines m ig ls n ms.
Proof.
  apply map_eq. intros k. rewrite !recordLines_lookup_any.
  destruct (lastSelected m ig ls n k); reflexivity.
Qed.

(** X8.  Scanning a file again, the file system unchanged, changes nothing:
    [Scan] of the result of [Scan] is that result, the same MatchSet and the
    same failure. *)
Theorem Scan_twice :
  forall (fs : FileSystem) (f : File), Scan fs (Scan fs f) = Scan fs f.
Proof.
  intros fs f.
  destruct (Scan_frame fs f) as (Hp & Hm & Hig).
  unfold Scan at 1. rewrite Hm, Hp.
  destruct (matchRegex f) as [m|] eqn:Hmf; [|reflexivity].
  destruct (fs (path f)) as [errno|r] eqn:Hfs.
  - rewrite (Scan_not_opened fs f m errno Hmf Hfs). reflexivity.
  - apply File_eq.
    + apply scanLoop_path.
    + apply scanLoop_regexes.
    + apply scanLoop_regexes.
    + rewrite scanLoop_matchedLines, Hig.
      rewrite (Scan_opened fs f m r Hmf Hfs), scanLoop_matchedLines.
      apply recordLines_twice.
    + rewrite scanLoop_scanError.
      rewrite (Scan_opened fs f m r Hmf Hfs), scanLoop_scanError.
      destruct (ending r); reflexivity.
Qed.

(** ** More of [ScanFiles] *)

Section MoreRuns.
Variable fs : FileSystem.
Variables m ig : option Regexp.
Variable filePaths : list string.

Local Abbreviation ok := (coordinated fs m ig filePaths).

Lemma pending_lookup (ts : list Task) : forall i t,
  ts !! i = Some t -> t <> Finished -> (0 < pending ts)%nat.
Proof.
  induction ts as [|t0 ts IH]; intros [|i] t Ht Hne; try discriminate; simpl in *.
  - injection Ht as ->. destruct t; try contradiction; simpl; lia.
  - specialize (IH i t Ht Hne). lia.
Qed.

Lemma pending_Finished (ts : list Task) :
  Forall (fun t => t = Finished) ts -> pending ts = O.
Proof.
  induction 1 as [|t ts -> _ IH]; simpl; [reflexivity|exact IH].
Qed.

Lemma reachable_ok schedule c :
  run fs m ig schedule (ScanFiles filePaths) = Some c -> ok c.
Proof.
  apply coordinated_run, coordinated_ScanFiles.
Qed.

(** One step less is left after each step. *)
Lemma step_counts ch c c' :
  step fs m ig ch c = Some c' ->
  (stepsLeft (tasks c') + (if closed c' then 0 else 1) + 1 =
   stepsLeft (tasks c) + (if closed c then 0 else 1))%nat.
Proof.
  destruct ch as [i|]; simpl.
  - unfold stepTask. destruct (tasks c !! i) as [t|] eqn:Ht; [|discriminate].
    cbn [mbind option_bind].
    pose proof (stepsLeft_insert (tasks c) i t) as Hsteps.
    destruct t as [q|q|f| |].
    + intros [= <-]. simpl. specialize (Hsteps (Scanning q) Ht). simpl in Hsteps. lia.
    + intros [= <-]. simpl.
      specialize (Hsteps (Sending (Scan fs (newFile q m ig))) Ht). simpl in Hsteps. lia.
    + destruct (closed c) eqn:Hc; [discriminate|].
      intros [= <-]. simpl.
      specialize (Hsteps Sent Ht). simpl in Hsteps. lia.
    + destruct (decide (wg c - 1 < 0)); [discriminate|].
      intros [= <-]. simpl. specialize (Hsteps Finished Ht). simpl in Hsteps. lia.
    + discriminate.
  - unfold stepCloser. destruct (decide (wg c = 0)); [|discriminate].
    destruct (closed c); [discriminate|]. intros [= <-]. simpl. lia.
Qed.

Lemma run_counts schedule : forall c c',
  run fs m ig schedule c = Some c' ->
  (length schedule + stepsLeft (tasks c') + (if closed c' then 0 else 1) =
   stepsLeft (tasks c) + (if closed c then 0 else 1))%nat.
Proof.
  induction schedule as [|ch schedule IH]; intros c c'; simpl.
  - intros [= <-]. reflexivity.
  - destruct (step fs m ig ch c) as [c1|] eqn:Hstep; [|discriminate].
    cbn [mbind option_bind]. intros Hrun.
    specialize (IH c1 c' Hrun). apply step_counts in Hstep. lia.
Qed.

Lemma stepsLeft_Spawned (paths : list string) :
  stepsLeft (Spawned <$> paths) = (4 * length paths)%nat.
Proof.
  induction paths as [|p paths IH]; [reflexivity|].
  change (stepsLeft (Spawned <$> p :: paths))
    with (4 + stepsLeft (Spawned <$> paths))%nat.
  rewrite IH. simpl length. lia.
Qed.
End MoreRuns.

(** X9.  No goroutine of [ScanFiles] panics or stays blocked: in every state
    a run reaches, a goroutine that has not finished finds the channel open
    and can take its next step (no send on a closed channel, no negative
    counter of the wait group), and the goroutine that closes the channel
    can do so exactly when the channel is open and every other goroutine has
    finished. *)
Theorem ScanFiles_no_panic :
  forall (fs : FileSystem) (m ig : option Regexp) (filePaths : list string)
         (schedule : list Choice) (c : Coordinator),
    run fs m ig schedule (ScanFiles filePaths) = Some c ->
    (forall i t, tasks c !! i = Some t -> t <> Finished ->
       closed c = false /\ is_Some (stepTask fs m ig i c)) /\
    (is_Some (stepCloser c) <->
       closed c = false /\ Forall (fun t => t = Finished) (tasks c)) /\
    0 <= wg c.
Proof.
  intros fs m ig filePaths schedule c Hrun.
  pose proof (reachable_ok fs m ig filePaths schedule c Hrun) as Hok.
  pose proof Hok as (Htasks & Hwg & Hrecv & Hclosed).
  split; [|split; [|lia]].
  - intros i t Ht Hne.
    pose proof (pending_lookup (tasks c) i t Ht Hne) as Hpos.
    assert (Hc : closed c = false).
    { destruct (closed c); [|reflexivity]. specialize (Hclosed eq_refl). lia. }
    split; [exact Hc|].
    destruct (stepTask_enabled fs m ig filePaths i t c Hok Hc Ht Hne) as (c' & -> & _).
    eexists. reflexivity.
  - unfold stepCloser. split.
    + destruct (decide (wg c = 0)) as [H0|H0]; [|intros [? [=]]].
      destruct (closed c); [intros [? [=]]|].
      intros _. split; [reflexivity|]. apply pending_zero. lia.
    + intros [-> Hall]. apply pending_Finished in Hall.
      rewrite decide_True by lia. eexists. reflexivity.
Qed.

Lemma ScanFiles_no_panic_witness :
  let fs := oneFile "a.go" (mkReader [(bytes "é", false)] AtEOF) in
  let c := mkCoordinator [Sending (Scan fs (newFile "a.go" (Some nonASCII) None))]
                         1 false [] [Before "a.go"; After "a.go"] in
  (forall i t, tasks c !! i = Some t -> t <> Finished ->
     closed c = false /\ is_Some (stepTask fs (Some nonASCII) None i c)) /\
  (is_Some (stepCloser c) <->
     closed c = false /\ Forall (fun t => t = Finished) (tasks c)) /\
  0 <= wg c.
Proof.
  intros fs c.
  apply (ScanFiles_no_panic fs (Some nonASCII) None ["a.go"] [RunTask 0; RunTask 0]).
  reflexivity.
Defined.

(** X10.  Every run of the goroutines of [ScanFiles] is finite: a run of
    [k] steps over [n] paths has [k] at most [4 * n + 1], the steps taken
    and the steps left adding up to that number; with the channel closed
    nothing is left and [k] is [4 * n + 1]. *)
Theorem ScanFiles_runs_are_bounded :
  forall (fs : FileSystem) (m ig : option Regexp) (filePaths : list string)
         (schedule : list Choice) (c : Coordinator),
    run fs m ig schedule (ScanFiles filePaths) = Some c ->
    (length schedule + stepsLeft (tasks c) + (if closed c then 0 else 1)
       = 4 * length filePaths + 1)%nat /\
    (length schedule ≤ 4 * length filePaths + 1)%nat /\
    (closed c = true -> length schedule = (4 * length filePaths + 1)%nat).
Proof.
  intros fs m ig filePaths schedule c Hrun.
  pose proof (run_counts fs m ig schedule _ _ Hrun) as Hcount.
  simpl in Hcount. rewrite stepsLeft_Spawned in Hcount.
  split; [lia|]. split; [lia|].
  intros Hc.
  pose proof (reachable_ok fs m ig filePaths schedule c Hrun) as Hok.
  destruct (coordinated_closed fs m ig filePaths c Hok Hc) as [Hall _].
  assert (Hleft : stepsLeft (tasks c) = O).
  { clear -Hall. induction Hall as [|t ts -> _ IH]; simpl; [reflexivity|exact IH]. }
  rewrite Hc in Hcount. lia.
Qed.

Lemma ScanFiles_runs_are_bounded_witness :
  let fs := oneFile "a.go" (mkReader [(bytes "é", false)] AtEOF) in
  let schedule := [RunTask 0; RunTask 0; RunTask 0; RunTask 0; RunCloser]%nat in
  exists c,
    run fs (Some nonASCII) None schedule (ScanFiles ["a.go"]) = Some c /\
    (length schedule ≤ 4 * 1 + 1)%nat /\
    closed c = true.
Proof.
  intros fs schedule.
  destruct (run fs (Some nonASCII) None schedule (ScanFiles ["a.go"]))
    as [c|] eqn:Hrun; [|vm_compute in Hrun; discriminate].
  exists c. split; [reflexivity|].
  destruct (ScanFiles_runs_are_bounded fs (Some nonASCII) None ["a.go"] schedule c Hrun)
    as (_ & Hle & _).
  split; [exact Hle|].
  vm_compute in Hrun. injection Hrun as <-. reflexivity.
Defined.

Section Notifications.
Variable fs : FileSystem.
Variables m ig : option Regexp.

Lemma loggedAll_insert (filePaths : list string) : forall (ts : list Task) i p t t',
  filePaths !! i = Some p -> ts !! i = Some t ->
  logged p t' ++ loggedAll filePaths ts ≡ₚ
  logged p t ++ loggedAll filePaths (<[i := t']> ts).
Proof.
  induction filePaths as [|p0 filePaths IH]; intros [|t0 ts] [|i] p t t' Hp Ht;
    try discriminate; simpl in *.
  - injection Hp as ->. injection Ht as ->.
    rewrite !app_assoc. apply Permutation_app_tail, Permutation_app_comm.
  - specialize (IH ts i p t t' Hp Ht).
    rewrite (app_assoc (logged p t')), (app_assoc (logged p t)).
    rewrite (Permutation_app_comm (logged p t') (logged p0 t0)).
    rewrite (Permutation_app_comm (logged p t) (logged p0 t0)).
    rewrite <- !app_assoc. apply Permutation_app_head. exact IH.
Qed.

Lemma notified_step filePaths ch c c' :
  notified fs m ig filePaths c -> step fs m ig ch c = Some c' ->
  notified fs m ig filePaths c' /\
  (events c' = events c \/ exists e, events c' = events c ++ [e]).
Proof.
  intros [Hok Hlog] Hstep.
  split; [split; [apply (coordinated_step fs m ig filePaths ch c); assumption|]|];
    destruct ch as [i|]; simpl in Hstep.
  - destruct Hok as (Htasks & _). revert Hstep. unfold stepTask.
    destruct (tasks c !! i) as [t|] eqn:Ht; [|discriminate]. cbn [mbind option_bind].
    destruct (Forall2_lookup_r _ _ _ _ _ Htasks Ht) as (p & Hp & Htask).
    pose proof (loggedAll_insert filePaths (tasks c) i p t) as Hins.
    destruct t as [q|q|f| |]; simpl in Htask.
    + intros [= <-]. subst q. simpl.
      specialize (Hins (Scanning p) Hp Ht). simpl in Hins.
      rewrite <- Hins, Hlog. symmetry. apply Permutation_cons_append.
    + intros [= <-]. subst q. simpl.
      specialize (Hins (Sending (Scan fs (newFile p m ig))) Hp Ht). simpl in Hins.
      rewrite <- (Permutation_cons_inv Hins), Hlog.
      symmetry. apply Permutation_cons_append.
    + destruct (closed c); [discriminate|]. intros [= <-]. simpl.
      specialize (Hins Sent Hp Ht). simpl in Hins.
      rewrite Hlog. apply (Permutation_app_inv_l [Before p; After p]). exact Hins.
    + destruct (decide (wg c - 1 < 0)); [discriminate|]. intros [= <-]. simpl.
      specialize (Hins Finished Hp Ht). simpl in Hins.
      rewrite Hlog. apply (Permutation_app_inv_l [Before p; After p]). exact Hins.
    + discriminate.
  - revert Hstep. unfold stepCloser.
    destruct (decide (wg c = 0)); [|discriminate].
    destruct (closed c); [discriminate|]. intros [= <-]. exact Hlog.
  - revert Hstep. unfold stepTask.
    destruct (tasks c !! i) as [t|]; [|discriminate]. cbn [mbind option_bind].
    destruct t as [q|q|f| |].
    + intros [= <-]. right. eexists. reflexivity.
    + intros [= <-]. right. eexists. reflexivity.
    + destruct (closed c); [discriminate|]. intros [= <-]. left. reflexivity.
    + destruct (decide (wg c - 1 < 0)); [discriminate|]. intros [= <-]. left. reflexivity.
    + discriminate.
  - revert Hstep. unfold stepCloser.
    destruct (decide (wg c = 0)); [|discriminate].
    destruct (closed c); [discriminate|]. intros [= <-]. left. reflexivity.
Qed.

Lemma occurrences_Permutation test (l l' : list Event) :
  l ≡ₚ l' -> occurrences test l = occurrences test l'.
Proof.
  intros H. unfold occurrences. induction H; simpl.
  - reflexivity.
  - destruct (test x); simpl; congruence.
  - destruct (test x), (test y); reflexivity.
  - congruence.
Qed.

Lemma occurrences_app test (l l' : list Event) :
  occurrences test (l ++ l') = (occurrences test l + occurrences test l')%nat.
Proof. unfold occurrences. rewrite List.filter_app, length_app. reflexivity. Qed.

(** What the goroutines have logged has no more [After] than [Before] for a
    path. *)
Lemma loggedAll_before_after p (filePaths : list string) : forall ts : list Task,
  (occurrences (isAfter p) (loggedAll filePaths ts)
   ≤ occurrences (isBefore p) (loggedAll filePaths ts))%nat.
Proof.
  induction filePaths as [|q filePaths IH]; intros [|t ts]; simpl; try reflexivity.
  rewrite !occurrences_app. specialize (IH ts).
  assert (occurrences (isAfter p) (logged q t) ≤ occurrences (isBefore p) (logged q t))%nat.
  { destruct t; unfold occurrences; simpl; destruct (String.eqb q p); simpl; lia. }
  lia.
Qed.

Lemma loggedAll_Finished (filePaths : list string) : forall ts : list Task,
  length filePaths = length ts -> Forall (fun t => t = Finished) ts ->
  loggedAll filePaths ts ≡ₚ (Before <$> filePaths) ++ (After <$> filePaths).
Proof.
  induction filePaths as [|p filePaths IH]; intros [|t ts] Hlen Hall;
    try discriminate; [reflexivity|].
  apply Forall_cons in Hall as [-> Hall]. simpl.
  rewrite (IH ts); [|simpl in Hlen; lia|exact Hall].
  apply perm_skip. apply (Permutation_middle (Before <$> filePaths)).
Qed.

Lemma notified_run filePaths schedule : forall c c',
  notified fs m ig filePaths c -> run fs m ig schedule c = Some c' ->
  notified fs m ig filePaths c' /\
  forall pre p, pre `prefix_of` events c' -> (length (events c) ≤ length pre)%nat ->
    (occurrences (isAfter p) pre ≤ occurrences (isBefore p) pre)%nat.
Proof.
  induction schedule as [|ch schedule IH]; intros c c' Hc; simpl.
  - intros [= <-]. split; [exact Hc|].
    intros pre p Hpre Hlen.
    assert (pre = events c) as ->.
    { destruct Hpre as [k Hk]. rewrite Hk, length_app in Hlen.
      destruct k; [rewrite app_nil_r in Hk; congruence|simpl in Hlen; lia]. }
    destruct Hc as [_ Hlog].
    rewrite !(occurrences_Permutation _ _ _ Hlog). apply loggedAll_before_after.
  - destruct (step fs m ig ch c) as [c1|] eqn:Hstep; [|discriminate].
    cbn [mbind option_bind]. intros Hrun.
    destruct (notified_step filePaths ch c c1 Hc Hstep) as [Hc1 Hgrow].
    destruct (IH c1 c' Hc1 Hrun) as [Hc' Hpre1].
    split; [exact Hc'|].
    intros pre p Hpre Hlen.
    destruct (decide (length (events c1) ≤ length pre)%nat) as [Hlong|Hshort];
      [apply Hpre1; assumption|].
    assert (Hmono : events c1 `prefix_of` events c').
    { clear -Hrun. revert c1 Hrun.
      induction schedule as [|ch' schedule IH']; intros c1; simpl.
      - intros [= <-]. reflexivity.
      - destruct (step fs m ig ch' c1) as [c2|] eqn:Hstep2; [|discriminate].
        cbn [mbind option_bind]. intros Hrun. specialize (IH' c2 Hrun).
        etransitivity; [|exact IH'].
        destruct ch' as [i|]; simpl in Hstep2.
        + revert Hstep2. unfold stepTask.
          destruct (tasks c1 !! i) as [t|]; [|discriminate]. cbn [mbind option_bind].
          destruct t as [q|q|f| |]; try discriminate.
          * intros [= <-]. simpl. apply prefix_app_r. reflexivity.
          * intros [= <-]. simpl. apply prefix_app_r. reflexivity.
          * destruct (closed c1); [discriminate|]. intros [= <-]. reflexivity.
          * destruct (decide (wg c1 - 1 < 0)); [discriminate|]. intros [= <-]. reflexivity.
        + revert Hstep2. unfold stepCloser.
          destruct (decide (wg c1 = 0)); [|discriminate].
          destruct (closed c1); [discriminate|]. intros [= <-]. reflexivity. }
    assert (pre = events c) as ->.
    { destruct Hgrow as [Heq|[e He]]; [rewrite Heq in Hshort; lia|].
      assert (Hpre' : pre `prefix_of` events c ++ [e]).
      { rewrite <- He.
        destruct (prefix_weak_total pre (events c1) (events c') Hpre Hmono) as [H|H];
          [exact H|].
        apply prefix_length in H. lia. }
      rewrite He, length_app in Hshort. simpl in Hshort.
      destruct Hpre' as [k Hk].
      assert (Hlk : length (events c ++ [e]) = length (pre ++ k)) by (rewrite Hk; reflexivity).
      rewrite !length_app in Hlk. simpl in Hlk.
      assert (length pre = length (events c)) by lia.
      apply (f_equal (take (length pre))) in Hk.
      rewrite take_app_length in Hk. rewrite H, take_app_length in Hk. congruence. }
    destruct Hc as [_ Hlog].
    rewrite !(occurrences_Permutation _ _ _ Hlog). apply loggedAll_before_after.
Qed.
End Notifications.

Lemma notified_ScanFiles fs m ig (filePaths : list string) :
  notified fs m ig filePaths (ScanFiles filePaths).
Proof.
  split; [apply coordinated_ScanFiles|]. simpl.
  induction filePaths as [|p filePaths IH]; [reflexivity|exact IH].
Qed.

(** X11.  The notifications of [ScanFiles]: at every moment of every run,
    the log holds, for each path, no more [After] than [Before], so each
    [After] of a path comes after a [Before] of it; and when the channel
    is closed the log holds one [Before] and one [After] for each path of
    the input and nothing else. *)
Theorem ScanFiles_before_then_after :
  forall (fs : FileSystem) (m ig : option Regexp) (filePaths : list string)
         (schedule : list Choice) (c : Coordinator),
    run fs m ig schedule (ScanFiles filePaths) = Some c ->
    (forall pre p, pre `prefix_of` events c ->
       (occurrences (isAfter p) pre ≤ occurrences (isBefore p) pre)%nat) /\
    (closed c = true ->
       events c ≡ₚ (Before <$> filePaths) ++ (After <$> filePaths)).
Proof.
  intros fs m ig filePaths schedule c Hrun.
  destruct (notified_run fs m ig filePaths schedule _ c
              (notified_ScanFiles fs m ig filePaths) Hrun) as [[Hok Hlog] Hpre].
  split.
  - intros pre p Hp. apply Hpre; [exact Hp|simpl; lia].
  - intros Hc.
    destruct (coordinated_closed fs m ig filePaths c Hok Hc) as [Hall _].
    rewrite Hlog. apply loggedAll_Finished; [|exact Hall].
    destruct Hok as (Htasks & _). apply (Forall2_length _ _ _ Htasks).
Qed.

Lemma ScanFiles_before_then_after_witness :
  let fs := oneFile "a.go" (mkReader [(bytes "é", false)] AtEOF) in
  let schedule := [RunTask 1; RunTask 0; RunTask 0; RunTask 1]%nat in
  exists c,
    run fs (Some nonASCII) None schedule (ScanFiles ["a.go"; "b.go"]) = Some c /\
    events c = [Before "b.go"; Before "a.go"; After "a.go"; After "b.go"] /\
    (occurrences (isAfter "a.go") [Before "b.go"; Before "a.go"]
     ≤ occurrences (isBefore "a.go") [Before "b.go"; Before "a.go"])%nat.
Proof.
  intros fs schedule.
  destruct (run fs (Some nonASCII) None schedule (ScanFiles ["a.go"; "b.go"]))
    as [c|] eqn:Hrun; [|vm_compute in Hrun; discriminate].
  exists c. split; [reflexivity|].
  destruct (ScanFiles_before_then_after fs (Some nonASCII) None ["a.go"; "b.go"]
              schedule c Hrun) as [Hpre _].
  assert (He : events c = [Before "b.go"; Before "a.go"; After "a.go"; After "b.go"])
    by (vm_compute in Hrun; injection Hrun as <-; reflexivity).
  split; [exact He|].
  apply Hpre. rewrite He. exists [After "a.go"; After "b.go"]. reflexivity.
Defined.

(** ** The loop of [main] *)

Lemma aggregateAll_cons opts a f results :
  aggregateAll opts a (f :: results) =
    a' ← aggregate opts a f; aggregateAll opts a' results.
Proof.
  unfold aggregateAll. simpl.
  destruct (aggregate opts a f) as [a'|]; [reflexivity|].
  simpl. induction results as [|g results IH]; [reflexivity|exact IH].
Qed.

Lemma reported_size (f : File) :
  reported f = true <-> Error f = None /\ MatchedLines f <> ∅.
Proof.
  unfold reported. destruct (Error f) as [e|].
  - split; [discriminate|intros [[=] _]].
  - rewrite negb_true_iff, Nat.eqb_neq, map_size_non_empty_iff.
    split; [intros H; split; [reflexivity|exact H]|intros [_ H]; exact H].
Qed.

Lemma aggregate_reported opts a f :
  heapOrdered (Len (filesContainingKorean a)) (filesContainingKorean a) ->
  exists a',
    aggregate opts a f = Some a' /\
    filesContainingKorean a' ≡ₚ
      (if reported f then [f] else []) ++ filesContainingKorean a /\
    heapOrdered (Len (filesContainingKorean a')) (filesContainingKorean a') /\
    scanErrorsCnt a' = (if failed f then incr (scanErrorsCnt a) else scanErrorsCnt a) /\
    printed a' = printed a ++
      (if Verbose opts || ErrorOnly opts
       then match Error f with Some e => [ScanningError (Path f) e] | None => [] end
       else []).
Proof.
  intros Hh. unfold aggregate, reported, failed.
  destruct (Error f) as [e|] eqn:He.
  - eexists. split; [reflexivity|]. simpl.
    split; [reflexivity|]. split; [exact Hh|]. split; [reflexivity|].
    destruct (Verbose opts || ErrorOnly opts); [reflexivity|rewrite app_nil_r; reflexivity].
  - unfold FoundLines.
    destruct (decide (0 < size (MatchedLines f))%nat) as [Hpos|Hzero].
    + destruct (heap_Push_total (filesContainingKorean a) f) as (h' & Hpush & Hperm).
      rewrite Hpush. cbn [mbind option_bind]. eexists. split; [reflexivity|]. simpl.
      replace (size (MatchedLines f) =? 0)%nat with false
        by (symmetry; apply Nat.eqb_neq; lia).
      simpl. split; [exact Hperm|].
      split; [apply (heap_Push_heapOrdered _ _ f Hh Hpush)|].
      split; [reflexivity|].
      destruct (Verbose opts || ErrorOnly opts); rewrite app_nil_r; reflexivity.
    + exists a. split; [reflexivity|].
      replace (size (MatchedLines f) =? 0)%nat with true
        by (symmetry; apply Nat.eqb_eq; lia).
      simpl. split; [reflexivity|]. split; [exact Hh|]. split; [reflexivity|].
      destruct (Verbose opts || ErrorOnly opts); rewrite app_nil_r; reflexivity.
Qed.

(** The errors [main] prints for the results, in the order they arrive. *)
Lemma aggregateAll_spec opts results : forall a,
  heapOrdered (Len (filesContainingKorean a)) (filesContainingKorean a) ->
  exists a',
    aggregateAll opts a results = Some a' /\
    filesContainingKorean a' ≡ₚ List.filter reported results ++ filesContainingKorean a /\
    heapOrdered (Len (filesContainingKorean a')) (filesContainingKorean a') /\
    (0 <= scanErrorsCnt a ->
     scanErrorsCnt a + Z.of_nat (length results) < 2 ^ 63 ->
     scanErrorsCnt a' = scanErrorsCnt a + Z.of_nat (length (List.filter failed results))) /\
    printed a' = printed a ++
      (if Verbose opts || ErrorOnly opts
       then omap (fun f => e ← Error f; Some (ScanningError (Path f) e)) results
       else []).
Proof.
  induction results as [|f results IH]; intros a Hh.
  - exists a. split; [reflexivity|]. simpl. split; [reflexivity|]. split; [exact Hh|].
    split; [intros; lia|].
    destruct (Verbose opts || ErrorOnly opts); rewrite app_nil_r; reflexivity.
  - rewrite aggregateAll_cons.
    destruct (aggregate_reported opts a f Hh) as (a1 & -> & Hperm1 & Hh1 & Hcnt1 & Hpr1).
    cbn [mbind option_bind].
    destruct (IH a1 Hh1) as (a' & -> & Hperm & Hh' & Hcnt & Hpr).
    exists a'. split; [reflexivity|]. split; [|split; [exact Hh'|split]].
    + rewrite Hperm, Hperm1. simpl.
      destruct (reported f); simpl; [symmetry; apply Permutation_middle|reflexivity].
    + intros H0 Hlen. simpl length in Hlen. simpl List.filter.
      destruct (failed f); simpl length.
      * rewrite incr_small in Hcnt1 by lia.
        rewrite Hcnt by lia. lia.
      * rewrite Hcnt by lia. lia.
    + rewrite Hpr, Hpr1, <- app_assoc. f_equal.
      destruct (Verbose opts || ErrorOnly opts); [|reflexivity].
      simpl. destruct (Error f); reflexivity.
Qed.

Lemma aggregate0_heap :
  exists a0, aggregate0 = Some a0 /\ filesContainingKorean a0 = [] /\
             scanErrorsCnt a0 = 0 /\ printed a0 = [].
Proof. eexists. split; [reflexivity|]. repeat split. Qed.

Lemma heapOrdered_nil : heapOrdered (Len []) [].
Proof. intros k Hk. unfold Len in Hk. simpl in Hk. lia. Qed.

Lemma loop_report_counts (opts : Options) (results : list File) :
  exists a0 a,
    aggregate0 = Some a0 /\
    aggregateAll opts a0 results = Some a /\
    filesContainingKorean a ≡ₚ List.filter reported results /\
    (Z.of_nat (length results) < 2 ^ 63 ->
     scanErrorsCnt a = Z.of_nat (length (List.filter failed results))).
Proof.
  destruct aggregate0_heap as (a0 & Ha0 & Hheap0 & Hcnt0 & Hpr0).
  destruct (aggregateAll_spec opts results a0) as (a & Hall & Hperm & Hh & Hcnt & Hpr).
  { rewrite Hheap0. apply heapOrdered_nil. }
  exists a0, a. split; [exact Ha0|]. split; [exact Hall|].
  split; [rewrite Hperm, Hheap0, app_nil_r; reflexivity|].
  intros Hlen. rewrite Hcnt; rewrite Hcnt0; lia.
Qed.

(** X12.  The loop of [main] over the results, from the empty heap and the
    counter at zero, never panics.  After it the heap holds exactly the
    results that have no failure and a MatchSet that is not empty, each
    once, and is a heap; the error counter is the number of results with a
    failure (for fewer than [2^63] results); and when [Verbose] or
    [ErrorOnly] is set, what was printed is the failure of each failed
    result, in the order of arrival, nothing otherwise. *)
Theorem main_loop_report :
  forall (opts : Options) (results : list File),
    exists a0 a,
      aggregate0 = Some a0 /\
      aggregateAll opts a0 results = Some a /\
      filesContainingKorean a ≡ₚ List.filter reported results /\
      heapOrdered (Len (filesContainingKorean a)) (filesContainingKorean a) /\
      (Z.of_nat (length results) < 2 ^ 63 ->
       scanErrorsCnt a = Z.of_nat (length (List.filter failed results))) /\
      printed a =
        if Verbose opts || ErrorOnly opts
        then omap (fun f => e ← Error f; Some (ScanningError (Path f) e)) results
        else [].
Proof.
  intros opts results.
  destruct aggregate0_heap as (a0 & Ha0 & Hheap0 & Hcnt0 & Hpr0).
  destruct (aggregateAll_spec opts results a0) as (a & Hall & Hperm & Hh & Hcnt & Hpr).
  { rewrite Hheap0. apply heapOrdered_nil. }
  exists a0, a. split; [exact Ha0|]. split; [exact Hall|].
  split; [rewrite Hperm, Hheap0, app_nil_r; reflexivity|].
  split; [exact Hh|]. split.
  - intros Hlen. rewrite Hcnt; rewrite Hcnt0; lia.
  - rewrite Hpr, Hpr0. reflexivity.
Qed.

Lemma filter_failed_split (results : list File) :
  (length (List.filter failed results)
   + length (List.filter (fun f => negb (failed f)) results) = length results)%nat /\
  (length (List.filter reported results)
   ≤ length (List.filter (fun f => negb (failed f)) results))%nat.
Proof.
  induction results as [|f results [IH1 IH2]]; simpl; [split; reflexivity|].
  unfold reported, failed in *.
  destruct (Error f); simpl; [split; lia|].
  destruct (negb _); simpl; split; lia.
Qed.


(** ** A batch, from the goroutines to the report *)

Lemma filter_Permutation (test : File -> bool) (l l' : list File) :
  l ≡ₚ l' -> List.filter test l ≡ₚ List.filter test l'.
Proof.
  induction 1 as [|x l l' _ IH|x y l|l l' l'' _ IH1 _ IH2]; simpl.
  - reflexivity.
  - destruct (test x); [apply perm_skip|]; exact IH.
  - destruct (test x), (test y); try reflexivity. apply perm_swap.
  - etransitivity; eassumption.
Qed.

Lemma scanned_path fs m ig p : path (scanned fs m ig p) = p.
Proof. apply (Scan_frame fs (newFile p m ig)). Qed.

Lemma NoDup_filter_scanned fs m ig (test : File -> bool) (filePaths : list string) :
  NoDup filePaths -> NoDup (path <$> List.filter test (scanned fs m ig <$> filePaths)).
Proof.
  induction filePaths as [|p filePaths IH]; intros Hnd; simpl; [constructor|].
  apply NoDup_cons in Hnd as [Hp Hnd].
  destruct (test (scanned fs m ig p)); [|apply IH, Hnd].
  rewrite fmap_cons. apply NoDup_cons. split; [|apply IH, Hnd].
  rewrite scanned_path. intros Hin.
  apply list_elem_of_fmap in Hin as (f & Hpf & Hf).
  apply list_elem_of_In, List.filter_In in Hf as [Hf _].
  apply list_elem_of_In, list_elem_of_fmap in Hf as (q & -> & Hq).
  rewrite scanned_path in Hpf. subst q. contradiction.
Qed.

(** The report of the results of a batch: the files popped by the loop of
    [Print] after the loop of [main]. *)
Lemma report_of_results opts (results : list File) :
  NoDup (path <$> List.filter reported results) ->
  exists a0 a out,
    aggregate0 = Some a0 /\ aggregateAll opts a0 results = Some a /\
    popAll (Len (filesContainingKorean a)) (filesContainingKorean a) = Some out /\
    out ≡ₚ List.filter reported results /\ StronglySorted pathLt out.
Proof.
  intros Hnd.
  destruct aggregate0_heap as (a0 & Ha0 & Hheap0 & _).
  destruct (aggregateAll_spec opts results a0) as (a & Hall & Hperm & Hh & _).
  { rewrite Hheap0. apply heapOrdered_nil. }
  rewrite Hheap0, app_nil_r in Hperm.
  destruct (popAll_spec _ _ (le_n _) Hh) as (out & Hpop & Hout & Hsorted).
  exists a0, a, out. split; [exact Ha0|]. split; [exact Hall|]. split; [exact Hpop|].
  split; [rewrite Hout; exact Hperm|].
  apply StronglySorted_pathLt; [|exact Hsorted].
  rewrite Hout, Hperm. exact Hnd.
Qed.

(** X14.  The report of a batch does not depend on the schedule.  For
    paths that differ, under any two schedules that run [ScanFiles] to the
    close of the channel, the loop of [main] over the results received,
    followed by the loop of [Print], pops the same files in the same order:
    the scanned files without failure and with a MatchSet that is not
    empty, each once, in strictly ascending order of path; and [Print]
    writes the same. *)
Theorem batch_report_whatever_the_schedule :
  forall (fs : FileSystem) (m ig : option Regexp) (opts : Options)
         (filePaths : list string) (schedule schedule' : list Choice)
         (c c' : Coordinator),
    NoDup filePaths ->
    run fs m ig schedule (ScanFiles filePaths) = Some c -> closed c = true ->
    run fs m ig schedule' (ScanFiles filePaths) = Some c' -> closed c' = true ->
    exists (a0 a a' : Aggregate) (out : list File),
      aggregate0 = Some a0 /\
      aggregateAll opts a0 (received c) = Some a /\
      aggregateAll opts a0 (received c') = Some a' /\
      popAll (Len (filesContainingKorean a)) (filesContainingKorean a) = Some out /\
      popAll (Len (filesContainingKorean a')) (filesContainingKorean a') = Some out /\
      Print (filesContainingKorean a) = Print (filesContainingKorean a') /\
      out ≡ₚ List.filter reported ((fun p => Scan fs (newFile p m ig)) <$> filePaths) /\
      StronglySorted pathLt out.
Proof.
  intros fs m ig opts filePaths schedule schedule' c c' Hnd Hrun Hc Hrun' Hc'.
  assert (Hrecv : forall sch d, run fs m ig sch (ScanFiles filePaths) = Some d ->
            closed d = true ->
            List.filter reported (received d)
              ≡ₚ List.filter reported (scanned fs m ig <$> filePaths)).
  { intros sch d Hd Hcd. apply filter_Permutation.
    apply (coordinated_closed fs m ig filePaths d); [|exact Hcd].
    apply (coordinated_run fs m ig filePaths sch (ScanFiles filePaths));
      [apply coordinated_ScanFiles|exact Hd]. }
  pose proof (NoDup_filter_scanned fs m ig reported filePaths Hnd) as Hnd'.
  destruct (report_of_results opts (received c)) as (a0 & a & out & Ha0 & Ha & Hpop & Hout & Hs).
  { rewrite (Hrecv schedule c Hrun Hc). exact Hnd'. }
  destruct (report_of_results opts (received c'))
    as (b0 & a' & out' & Hb0 & Ha' & Hpop' & Hout' & Hs').
  { rewrite (Hrecv schedule' c' Hrun' Hc'). exact Hnd'. }
  rewrite Ha0 in Hb0. injection Hb0 as <-.
  assert (Heq : out = out').
  { apply (StronglySorted_unique_strong pathLt); [|assumption|assumption|].
    - intros x1 x2 _ _ H12 H21. apply pathLt_le in H12.
      unfold pathLe, pathLt in *. congruence.
    - rewrite Hout, Hout', (Hrecv schedule c Hrun Hc), (Hrecv schedule' c' Hrun' Hc').
      reflexivity. }
  subst out'.
  exists a0, a, a', out.
  split; [exact Ha0|]. split; [exact Ha|]. split; [exact Ha'|].
  split; [exact Hpop|]. split; [exact Hpop'|].
  split; [unfold Print; rewrite Hpop, Hpop'; reflexivity|].
  split; [rewrite Hout; apply (Hrecv schedule c Hrun Hc)|exact Hs].
Qed.

Lemma batch_report_whatever_the_schedule_witness :
  let fs := oneFile "a.go" (mkReader [(bytes "é", false)] AtEOF) in
  let schedule := [RunTask 0; RunTask 0; RunTask 0; RunTask 0;
                   RunTask 1; RunTask 1; RunTask 1; RunTask 1; RunCloser]%nat in
  let schedule' := [RunTask 1; RunTask 1; RunTask 0; RunTask 1; RunTask 0; RunTask 0;
                    RunTask 0; RunTask 1; RunCloser]%nat in
  exists c c' (a0 a a' : Aggregate) (out : list File),
    run fs (Some nonASCII) None schedule (ScanFiles ["a.go"; "b.go"]) = Some c /\
    run fs (Some nonASCII) None schedule' (ScanFiles ["a.go"; "b.go"]) = Some c' /\
    (path <$> received c) = ["a.go"; "b.go"] /\
    (path <$> received c') = ["b.go"; "a.go"] /\
    aggregate0 = Some a0 /\
    aggregateAll (mkOptions false false) a0 (received c) = Some a /\
    aggregateAll (mkOptions false false) a0 (received c') = Some a' /\
    popAll (Len (filesContainingKorean a)) (filesContainingKorean a) = Some out /\
    popAll (Len (filesContainingKorean a')) (filesContainingKorean a') = Some out.
Proof.
  intros fs schedule schedule'.
  destruct (run fs (Some nonASCII) None schedule (ScanFiles ["a.go"; "b.go"]))
    as [c|] eqn:Hrun; [|vm_compute in Hrun; discriminate].
  destruct (run fs (Some nonASCII) None schedule' (ScanFiles ["a.go"; "b.go"]))
    as [c'|] eqn:Hrun'; [|vm_compute in Hrun'; discriminate].
  assert (Hc : closed c = true /\ (path <$> received c) = ["a.go"; "b.go"])
    by (vm_compute in Hrun; injection Hrun as <-; split; reflexivity).
  assert (Hc' : closed c' = true /\ (path <$> received c') = ["b.go"; "a.go"])
    by (vm_compute in Hrun'; injection Hrun' as <-; split; reflexivity).
  assert (Hnd : NoDup ["a.go"; "b.go"]) by compute_done.
  destruct (batch_report_whatever_the_schedule fs (Some nonASCII) None
              (mkOptions false false) ["a.go"; "b.go"] schedule schedule' c c'
              Hnd Hrun (proj1 Hc) Hrun' (proj1 Hc'))
    as (a0 & a & a' & out & Ha0 & Ha & Ha' & Hpop & Hpop' & _).
  exists c, c', a0, a, a', out.
  split; [reflexivity|]. split; [reflexivity|].
  split; [exact (proj2 Hc)|]. split; [exact (proj2 Hc')|].
  split; [exact Ha0|]. split; [exact Ha|]. split; [exact Ha'|].
  split; [exact Hpop|exact Hpop'].
Defined.

(** ** More of [Data.Scan] *)

(** With a pattern that compiles, the loop of [Data.Scan] runs to the end of
    the lines, and the map holds each line that is not a comment and
    matches, at its number. *)
Lemma data_scanLoop_compiled compile fn re tokens : forall n d,
  compile (data.matchString d) = inr re ->
  0 <= n -> n + Z.of_nat (length tokens) < 2 ^ 63 ->
  exists d',
    data.scanLoop compile fn tokens n d = inr d' /\
    data.isScanned d' = data.isScanned d /\
    data.ScanError d' = data.ScanError d /\
    forall k,
      data.linesContainingMatchString d' !! k =
        if decide (n <= k < n + Z.of_nat (length tokens)) then
          match tokens !! Z.to_nat (k - n) with
          | Some l => if negb (fn l) && re l then Some l
                      else data.linesContainingMatchString d !! k
          | None => data.linesContainingMatchString d !! k
          end
        else data.linesContainingMatchString d !! k.
Proof.
  induction tokens as [|lineText tokens IH]; intros n d Hc Hn Hlen; simpl in *.
  - exists d. repeat split. intros k. destruct (decide _); [lia|reflexivity].
  - assert (Hstep : forall d1,
      data.matchString d1 = data.matchString d ->
      data.isScanned d1 = data.isScanned d ->
      data.ScanError d1 = data.ScanError d ->
      (forall k, data.linesContainingMatchString d1 !! k =
         if decide (k = n) then
           (if negb (fn lineText) && re lineText then Some lineText
            else data.linesContainingMatchString d !! k)
         else data.linesContainingMatchString d !! k) ->
      exists d',
        data.scanLoop compile fn tokens (incr n) d1 = inr d' /\
        data.isScanned d' = data.isScanned d /\
        data.ScanError d' = data.ScanError d /\
        forall k,
          data.linesContainingMatchString d' !! k =
            if decide (n <= k < n + Z.of_nat (S (length tokens))) then
              match (lineText :: tokens) !! Z.to_nat (k - n) with
              | Some l => if negb (fn l) && re l then Some l
                          else data.linesContainingMatchString d !! k
              | None => data.linesContainingMatchString d !! k
              end
            else data.linesContainingMatchString d !! k).
    { intros d1 Hm1 Hs1 He1 Hl1.
      rewrite incr_small by lia.
      destruct (IH (n + 1) d1) as (d' & Hloop & Hs & He & Hl);
        [rewrite Hm1; exact Hc|lia|lia|].
      exists d'. split; [exact Hloop|]. split; [congruence|]. split; [congruence|].
      intros k. rewrite Hl.
      destruct (decide (k = n)) as [->|Hkn].
      - rewrite decide_False by lia. rewrite decide_True by lia.
        replace (Z.to_nat (n - n)) with O by lia. simpl.
        rewrite Hl1, decide_True by reflexivity. reflexivity.
      - destruct (decide (n + 1 <= k < n + 1 + Z.of_nat (length tokens))) as [Hin|Hout].
        + rewrite decide_True by lia.
          replace (Z.to_nat (k - n)) with (S (Z.to_nat (k - (n + 1)))) by lia. simpl.
          rewrite Hl1, decide_False by exact Hkn. reflexivity.
        + rewrite decide_False by lia. rewrite Hl1, decide_False by exact Hkn. reflexivity. }
    destruct (fn lineText) eqn:Hfn.
    + apply Hstep; try reflexivity. intros k. destruct (decide _); reflexivity.
    + unfold data.MatchString. rewrite Hc.
      destruct (re lineText) eqn:Hre.
      * apply Hstep; try reflexivity. intros k. simpl.
        destruct (decide (k = n)) as [->|Hkn];
          [apply lookup_insert_eq|apply lookup_insert_ne; congruence].
      * apply Hstep; try reflexivity. intros k. destruct (decide _); reflexivity.
Qed.

(** X15.  After [Scan] on a new [Data], [isScanned] is set exactly when
    [ScanError] is nil: a scan either completes or reports an error, never
    both and never neither; so [HasMatchedString] holds only of a scan
    without error. *)
Theorem Data_Scan_completes_or_fails :
  forall (fs : data.FileSystem) (compile : data.Compiler) (fn : string -> bool)
         (filePath matchString : string),
    let d := data.Scan fs compile fn (data.New filePath matchString) in
    (data.isScanned d = true <-> data.ScanError d = None) /\
    (data.HasMatchedString d = true -> data.ScanError d = None).
Proof.
  intros fs compile fn filePath matchString d.
  assert (H : data.isScanned d = true <-> data.ScanError d = None).
  { unfold d, data.Scan. simpl.
    destruct (fs filePath) as [errno|scanner]; [simpl; split; discriminate|].
    destruct (data.scanLoop compile fn (data.tokens scanner) 1 (data.New filePath matchString))
      as [d'|d'] eqn:Hloop.
    - apply data_scanLoop_returned in Hloop as [He Hs]. rewrite Hs. simpl.
      split; [discriminate|intros H; contradiction].
    - apply data_scanLoop_ended in Hloop as [He Hs].
      destruct (data.err scanner) as [e|]; simpl.
      + rewrite Hs. simpl. split; discriminate.
      + rewrite He. simpl. split; reflexivity. }
  split; [exact H|].
  unfold data.HasMatchedString. intros Hhas. apply H.
  destruct (data.isScanned d); [reflexivity|discriminate].
Qed.

Lemma data_Scan_lookup (fs : data.FileSystem) (compile : data.Compiler)
    (fn : string -> bool) (filePath pattern : string) scanner (re : string -> bool) :
  fs filePath = inr scanner ->
  compile pattern = inr re ->
  Z.of_nat (length (data.tokens scanner)) < 2 ^ 63 - 1 ->
  forall k l,
    data.linesContainingMatchString
      (data.Scan fs compile fn (data.New filePath pattern)) !! k = Some l <->
    exists i : nat, k = Z.of_nat i + 1 /\ data.tokens scanner !! i = Some l /\
                    fn l = false /\ re l = true.
Proof.
  intros Hfs Hc Hlen.
  destruct (data_scanLoop_compiled compile fn re (data.tokens scanner) 1
              (data.New filePath pattern) Hc ltac:(lia) ltac:(lia))
    as (d' & Hloop & Hs & He & Hl).
  assert (Hlines : data.linesContainingMatchString
                     (data.Scan fs compile fn (data.New filePath pattern))
                   = data.linesContainingMatchString d').
  { unfold data.Scan. simpl. rewrite Hfs, Hloop.
    destruct (data.err scanner) as [e|]; reflexivity. }
  intros k l. rewrite Hlines, Hl. simpl. rewrite lookup_empty.
  split.
  - destruct (decide _) as [Hk|Hk]; [|discriminate].
    destruct (data.tokens scanner !! Z.to_nat (k - 1)) as [l'|] eqn:Hi; [|discriminate].
    destruct (fn l') eqn:Hfn; simpl; [discriminate|].
    destruct (re l') eqn:Hre; [|discriminate].
    intros [= <-]. exists (Z.to_nat (k - 1)).
    split; [lia|]. split; [exact Hi|]. split; assumption.
  - intros (i & -> & Hi & Hfn & Hre).
    apply lookup_lt_Some in Hi as Hilen.
    rewrite decide_True by lia.
    replace (Z.to_nat (Z.of_nat i + 1 - 1)) with i by lia.
    rewrite Hi, Hfn, Hre. reflexivity.
Qed.

(** X16.  When the file opens and the pattern compiles, with fewer than
    [2^63 - 1] lines: line number [k] is in the map of [Data.Scan] with text
    [l] exactly when the [k]-th line of the file is [l], is not a comment
    and matches.  Numbers start at [1] and comment lines keep theirs; this
    holds also when the scanner ends with an error. *)
Theorem Data_Scan_line_numbers :
  forall (fs : data.FileSystem) (compile : data.Compiler) (fn : string -> bool)
         (filePath pattern : string) scanner (re : string -> bool),
    fs filePath = inr scanner ->
    compile pattern = inr re ->
    Z.of_nat (length (data.tokens scanner)) < 2 ^ 63 - 1 ->
    let d := data.Scan fs compile fn (data.New filePath pattern) in
    data.ScanError d = data.err scanner /\
    forall k l,
      data.linesContainingMatchString d !! k = Some l <->
      exists i : nat, k = Z.of_nat i + 1 /\ data.tokens scanner !! i = Some l /\
                      fn l = false /\ re l = true.
Proof.
  intros fs compile fn filePath pattern scanner re Hfs Hc Hlen d.
  destruct (data_scanLoop_compiled compile fn re (data.tokens scanner) 1
              (data.New filePath pattern) Hc ltac:(lia) ltac:(lia))
    as (d' & Hloop & Hs & He & Hl).
  assert (Hd : data.ScanError d = data.err scanner /\
               data.linesContainingMatchString d = data.linesContainingMatchString d').
  { unfold d, data.Scan. simpl. rewrite Hfs, Hloop.
    destruct (data.err scanner) as [e|]; simpl; [split; reflexivity|].
    split; [exact He|reflexivity]. }
  destruct Hd as [Herr Hlines]. split; [exact Herr|].
  intros k l. rewrite Hlines, Hl. simpl. rewrite lookup_empty.
  split.
  - destruct (decide _) as [Hk|Hk]; [|discriminate].
    destruct (data.tokens scanner !! Z.to_nat (k - 1)) as [l'|] eqn:Hi; [|discriminate].
    destruct (fn l') eqn:Hfn; simpl; [discriminate|].
    destruct (re l') eqn:Hre; [|discriminate].
    intros [= <-]. exists (Z.to_nat (k - 1)).
    split; [lia|]. split; [exact Hi|]. split; assumption.
  - intros (i & -> & Hi & Hfn & Hre).
    apply lookup_lt_Some in Hi as Hilen.
    rewrite decide_True by lia.
    replace (Z.to_nat (Z.of_nat i + 1 - 1)) with i by lia.
    rewrite Hi, Hfn, Hre. reflexivity.
Qed.

Lemma Data_Scan_line_numbers_witness :
  let scanner := data.mkScanner ["// 주석"; "안녕"] None in
  let fs : data.FileSystem := fun _ => inr scanner in
  let fn : string -> bool := String.prefix "//" in
  let d := data.Scan fs exampleCompile fn (data.New "a.go" "[^\x00-\x7F]") in
  data.ScanError d = None /\
  (data.linesContainingMatchString d !! 2 = Some "안녕"%string <->
   exists i : nat, 2 = Z.of_nat i + 1 /\ data.tokens scanner !! i = Some "안녕"%string /\
                   fn "안녕"%string = false /\ Match nonASCII (bytes "안녕") = true).
Proof.
  intros scanner fs fn d.
  destruct (Data_Scan_line_numbers fs exampleCompile fn "a.go" "[^\x00-\x7F]" scanner
              (fun s => Match nonASCII (bytes s)) eq_refl eq_refl) as [He Hl].
  - vm_compute. reflexivity.
  - split; [exact He|]. exact (Hl 2 "안녕"%string).
Defined.

(** ** [Search] *)

Lemma Split_not_nil s sep : Split s sep <> [].
Proof.
  destruct s as [|c s]; simpl; [discriminate|].
  destruct (Ascii.eqb c sep); [discriminate|].
  destruct (Split s sep); discriminate.
Qed.

Lemma lookup_last (v : list string) (d : string) :
  v <> [] -> v !! (length v - 1)%nat = Some (List.last v d).
Proof.
  induction v as [|x v IH]; intros Hne; [contradiction|].
  destruct v as [|y v]; [reflexivity|].
  change (List.last (x :: y :: v) d) with (List.last (y :: v) d).
  rewrite <- IH by discriminate. simpl. rewrite Nat.sub_0_r. reflexivity.
Qed.

(** What the function of the walk does on one visit. *)
Lemma walkFn_kept filterByFileExt fn resultPaths visit :
  walkFn filterByFileExt fn resultPaths visit =
    Some (resultPaths ++ option_list (kept filterByFileExt fn visit),
          match visit with Failure _ err => Some err | Entry _ _ => None end).
Proof.
  destruct visit as [p f|p e]; simpl; [|rewrite app_nil_r; reflexivity].
  destruct (IsDir f || fn p); simpl; [rewrite app_nil_r; reflexivity|].
  destruct (String.eqb filterByFileExt ""); simpl; [reflexivity|].
  rewrite (lookup_last _ EmptyString (Split_not_nil (Name f) ".")). simpl.
  destruct (String.eqb _ filterByFileExt); simpl; [reflexivity|].
  rewrite app_nil_r. reflexivity.
Qed.

Lemma omap_cons_app (g : Visit -> option string) visit visits :
  omap g (visit :: visits) = option_list (g visit) ++ omap g visits.
Proof. simpl. destruct (g visit); reflexivity. Qed.

Lemma Walk_kept filterByFileExt fn visits : forall resultPaths,
  Walk visits (walkFn filterByFileExt fn) resultPaths =
    Some (resultPaths ++ omap (kept filterByFileExt fn) (beforeFailure visits),
          firstFailure visits).
Proof.
  induction visits as [|visit visits IH]; intros resultPaths; simpl.
  - rewrite app_nil_r. reflexivity.
  - rewrite walkFn_kept. cbn [mbind option_bind].
    destruct visit as [p f|p e]; [|simpl; rewrite !app_nil_r; reflexivity].
    rewrite IH.
    change (beforeFailure (Entry p f :: visits)) with (Entry p f :: beforeFailure visits).
    change (firstFailure (Entry p f :: visits)) with (firstFailure visits).
    rewrite omap_cons_app, app_assoc. reflexivity.
Qed.

Lemma beforeFailure_entries visits :
  forallb isEntry visits = true ->
  beforeFailure visits = visits /\ firstFailure visits = None.
Proof.
  induction visits as [|[p f|p e] visits IH]; simpl; intros H;
    [split; reflexivity| |discriminate].
  destruct (IH H) as [-> ->]. split; reflexivity.
Qed.

Lemma beforeFailure_app pre p e post :
  forallb isEntry pre = true ->
  beforeFailure (pre ++ Failure p e :: post) = pre /\
  firstFailure (pre ++ Failure p e :: post) = Some e.
Proof.
  induction pre as [|[q f|q e'] pre IH]; simpl; intros H;
    [split; reflexivity| |discriminate].
  destruct (IH H) as [-> ->]. split; reflexivity.
Qed.

(** X17.  When the walk meets no error, [Search] does not panic and returns
    a nil error and, in the order of the walk, the path of every visit that
    is not a directory, that the skip function does not hold of, and whose
    name has the extension asked for: the text after its last dot, or the
    whole name when it has no dot; every such path when the extension asked
    for is empty. *)
Theorem Search_keeps_matching_files :
  forall (visits : list Visit) (dir filterByFileExt : string) (fn : string -> bool),
    forallb isEntry visits = true ->
    Search visits dir filterByFileExt fn =
      Some (SearchFor filterByFileExt dir, omap (kept filterByFileExt fn) visits, None) /\
    forall p,
      p ∈ omap (kept filterByFileExt fn) visits <->
      exists f, Entry p f ∈ visits /\ IsDir f = false /\ fn p = false /\
                (filterByFileExt = EmptyString \/
                 List.last (Split (Name f) ".") EmptyString = filterByFileExt).
Proof.
  intros visits dir filterByFileExt fn Hentries. split.
  - unfold Search. rewrite Walk_kept. cbn [mbind option_bind].
    destruct (beforeFailure_entries visits Hentries) as [-> ->]. reflexivity.
  - intros p. rewrite list_elem_of_omap. split.
    + intros (visit & Hin & Hk). destruct visit as [q f|q e]; [|discriminate].
      simpl in Hk. destruct (IsDir f) eqn:Hd; [discriminate|].
      destruct (fn q) eqn:Hfn; [discriminate|]. simpl in Hk.
      destruct (String.eqb_spec filterByFileExt "") as [Hext|Hext].
      * injection Hk as <-. exists f. repeat split; try assumption. left. exact Hext.
      * destruct (String.eqb_spec (List.last (Split (Name f) ".") EmptyString)
                    filterByFileExt) as [Hl|Hl]; [|discriminate].
        injection Hk as <-. exists f. repeat split; try assumption. right. exact Hl.
    + intros (f & Hin & Hd & Hfn & Hext). exists (Entry p f). split; [exact Hin|].
      simpl. rewrite Hd, Hfn. simpl.
      destruct (String.eqb_spec filterByFileExt "") as [He|He]; [reflexivity|].
      destruct Hext as [Hext|Hext]; [contradiction|].
      rewrite Hext, String.eqb_refl. reflexivity.
Qed.

Lemma Search_keeps_matching_files_witness :
  let visits := [Entry "src" (mkFileInfo "src" true);
                 Entry "src/a.go" (mkFileInfo "a.go" false);
                 Entry "src/b.txt" (mkFileInfo "b.txt" false);
                 Entry "src/vendor/c.go" (mkFileInfo "c.go" false)] in
  let fn : string -> bool := String.prefix "src/vendor" in
  Search visits "src" "go" fn = Some (SearchFor "go" "src", ["src/a.go"], None).
Proof.
  intros visits fn.
  exact (proj1 (Search_keeps_matching_files visits "src" "go" fn eq_refl)).
Defined.

(** X18.  When the walk meets an error, [Search] stops there: it returns
    that error together with the paths kept before it, and what the walk
    would have visited afterwards has no effect. *)
Theorem Search_stops_at_first_error :
  forall (pre post : list Visit) (p : string) (e : error)
         (dir filterByFileExt : string) (fn : string -> bool),
    forallb isEntry pre = true ->
    Search (pre ++ Failure p e :: post) dir filterByFileExt fn =
      Some (SearchFor filterByFileExt dir, omap (kept filterByFileExt fn) pre, Some e).
Proof.
  intros pre post p e dir filterByFileExt fn Hpre.
  unfold Search. rewrite Walk_kept. cbn [mbind option_bind].
  destruct (beforeFailure_app pre p e post Hpre) as [-> ->]. reflexivity.
Qed.

Lemma Search_stops_at_first_error_witness :
  let pre := [Entry "src/a.go" (mkFileInfo "a.go" false)] in
  let post := [Entry "src/z.go" (mkFileInfo "z.go" false)] in
  let e := PathError "open" "src/secret" EACCES in
  Search (pre ++ Failure "src/secret" e :: post) "src" "go" (fun _ => false) =
    Some (SearchFor "go" "src", ["src/a.go"], Some e).
Proof.
  intros pre post e.
  exact (Search_stops_at_first_error pre post "src/secret" e "src" "go" (fun _ => false)
           eq_refl).
Defined.

(** *** The extension of a name *)

Lemma Split_no_sep s sep : hasByte sep s = false -> Split s sep = [s].
Proof.
  induction s as [|c s IH]; simpl; [reflexivity|].
  destruct (Ascii.eqb c sep); simpl; [discriminate|].
  intros H. rewrite (IH H). reflexivity.
Qed.

Lemma Split_with_sep s sep :
  hasByte sep s = true -> exists x y rest, Split s sep = x :: y :: rest.
Proof.
  induction s as [|c s IH]; simpl; [discriminate|].
  destruct (Ascii.eqb c sep); simpl.
  - intros _. destruct (Split s sep) as [|y rest] eqn:Hs;
      [contradiction (Split_not_nil s sep)|].
    exists EmptyString, y, rest. reflexivity.
  - intros H. destruct (IH H) as (x & y & rest & ->).
    exists (String c x), y, rest. reflexivity.
Qed.

(** The parts of a split hold no separator. *)
Lemma Split_parts s sep : forall x, x ∈ Split s sep -> hasByte sep x = false.
Proof.
  induction s as [|c s IH]; simpl; intros x Hx.
  - apply list_elem_of_singleton in Hx as ->. reflexivity.
  - destruct (Ascii.eqb c sep) eqn:Hc.
    + apply elem_of_cons in Hx as [->|Hx]; [reflexivity|apply IH, Hx].
    + destruct (Split s sep) as [|first others].
      * apply list_elem_of_singleton in Hx as ->. simpl. rewrite Hc. reflexivity.
      * apply elem_of_cons in Hx as [->|Hx].
        -- simpl. rewrite Hc. apply IH. apply list_elem_of_here.
        -- apply IH. apply list_elem_of_further, Hx.
Qed.

Lemma last_cons (x : string) (l : list string) (d : string) :
  l <> [] -> List.last (x :: l) d = List.last l d.
Proof. destruct l; [contradiction|reflexivity]. Qed.

(** A name with a separator ends with the separator and its last part. *)
Lemma Split_last_suffix s sep :
  hasByte sep s = true ->
  exists stem, s = String.append stem (String sep (List.last (Split s sep) EmptyString)).
Proof.
  induction s as [|c s IH]; [discriminate|].
  cbn [hasByte Split].
  destruct (Ascii.eqb_spec c sep) as [->|Hc]; cbn [orb].
  - intros _. rewrite last_cons by apply Split_not_nil.
    destruct (hasByte sep s) eqn:Hsep.
    + destruct (IH eq_refl) as [stem Hstem]. exists (String sep stem).
      change (String sep s =
              String sep (String.append stem
                            (String sep (List.last (Split s sep) EmptyString)))).
      f_equal. exact Hstem.
    + rewrite (Split_no_sep s sep Hsep). exists EmptyString. reflexivity.
  - intros H. destruct (IH H) as [stem Hstem].
    destruct (Split_with_sep s sep H) as (x & y & rest & Hs).
    rewrite Hs in Hstem |- *. exists (String c stem).
    rewrite last_cons by discriminate. rewrite last_cons in Hstem by discriminate.
    change (String c s =
            String c (String.append stem (String sep (List.last (y :: rest) EmptyString)))).
    f_equal. exact Hstem.
Qed.

Lemma Split_append stem sep rest :
  Split (String.append stem (String sep rest)) sep = Split stem sep ++ Split rest sep.
Proof.
  induction stem as [|c stem IH]; simpl.
  - rewrite Ascii.eqb_refl. reflexivity.
  - rewrite IH. destruct (Ascii.eqb c sep); [reflexivity|].
    destruct (Split stem sep) as [|first others] eqn:Hs;
      [contradiction (Split_not_nil stem sep)|reflexivity].
Qed.

Lemma last_extension name ext :
  hasByte "." ext = false ->
  List.last (Split name ".") EmptyString = ext <->
  name = ext \/ exists stem, name = String.append stem (String "." ext).
Proof.
  intros Hext. split.
  - intros Hlast. destruct (hasByte "." name) eqn:Hname.
    + right. destruct (Split_last_suffix name "." Hname) as [stem Hstem].
      exists stem. rewrite <- Hlast. exact Hstem.
    + left. rewrite (Split_no_sep name "." Hname) in Hlast. exact Hlast.
  - intros [->|[stem ->]].
    + rewrite (Split_no_sep ext "." Hext). reflexivity.
    + rewrite Split_append, (Split_no_sep ext "." Hext).
      apply List.last_last.
Qed.

(** X19.  How [Search] tests the extension, for a file that is not skipped.
    With an extension that holds no dot, the file is kept exactly when its
    name is the extension itself or ends with a dot and the extension: a
    file named [go] is kept for the extension [go].  With an extension that
    holds a dot, such as [tar.gz], no file is kept. *)
Theorem Search_extension_test :
  forall (filterByFileExt : string) (fn : string -> bool) (resultPaths : list string)
         (p : string) (f : FileInfo),
    filterByFileExt <> EmptyString -> IsDir f = false -> fn p = false ->
    (hasByte "." filterByFileExt = false ->
       (walkFn filterByFileExt fn resultPaths (Entry p f) = Some (resultPaths ++ [p], None) <->
        Name f = filterByFileExt \/
        exists stem, Name f = String.append stem (String "." filterByFileExt)) /\
       (walkFn filterByFileExt fn resultPaths (Entry p f) = Some (resultPaths ++ [p], None) \/
        walkFn filterByFileExt fn resultPaths (Entry p f) = Some (resultPaths, None))) /\
    (hasByte "." filterByFileExt = true ->
       walkFn filterByFileExt fn resultPaths (Entry p f) = Some (resultPaths, None)).
Proof.
  intros filterByFileExt fn resultPaths p f Hne Hdir Hfn.
  assert (Hwalk : walkFn filterByFileExt fn resultPaths (Entry p f) =
            if String.eqb (List.last (Split (Name f) ".") EmptyString) filterByFileExt
            then Some (resultPaths ++ [p], None) else Some (resultPaths, None)).
  { rewrite walkFn_kept. simpl. rewrite Hdir, Hfn. simpl.
    destruct (String.eqb_spec filterByFileExt "") as [H|_]; [contradiction|].
    destruct (String.eqb _ filterByFileExt); simpl; rewrite ?app_nil_r; reflexivity. }
  rewrite Hwalk. split.
  - intros Hext. rewrite <- (last_extension (Name f) filterByFileExt Hext).
    destruct (String.eqb_spec (List.last (Split (Name f) ".") EmptyString) filterByFileExt)
      as [Heq|Hneq].
    + split; [split; [intros _; exact Heq|reflexivity]|left; reflexivity].
    + split; [|right; reflexivity].
      split; [|contradiction].
      intros [= H]. exfalso. apply (f_equal length) in H.
      rewrite length_app in H. simpl in H. lia.
  - intros Hext.
    destruct (String.eqb_spec (List.last (Split (Name f) ".") EmptyString) filterByFileExt)
      as [Heq|_]; [|reflexivity].
    exfalso.
    assert (Hlast : hasByte "." (List.last (Split (Name f) ".") EmptyString) = false).
    { apply (Split_parts (Name f) ".").
      destruct (exists_last (Split_not_nil (Name f) ".")) as (l & x & ->).
      rewrite List.last_last. apply elem_of_app. right. apply list_elem_of_here. }
    rewrite Heq, Hext in Hlast. discriminate.
Qed.

Lemma Search_extension_test_witness :
  let f := mkFileInfo "go" false in
  walkFn "go" (fun _ => false) [] (Entry "bin/go" f) = Some ([] ++ ["bin/go"], None) <->
  Name f = "go"%string \/ exists stem, Name f = String.append stem (String "." "go").
Proof.
  intros f.
  destruct (Search_extension_test "go" (fun _ => false) [] "bin/go" f) as [Hplain _].
  - discriminate.
  - reflexivity.
  - reflexivity.
  - exact (proj1 (Hplain eq_refl)).
Defined.

(** ** The two scanners side by side *)

Lemma logicalLines_whole (ls : list (list byte)) :
  logicalLines ((fun l => (l, false)) <$> ls) [] = ls.
Proof.
  induction ls as [|l ls IH]; [reflexivity|].
  rewrite fmap_cons. simpl. rewrite IH. reflexivity.
Qed.

(** X20.  [File.Scan] and [Data.Scan] agree on a file that both read as the
    same lines, each line in one piece, with fewer than [2^63 - 1] lines,
    when the comment test of [Data.Scan] is the ignore pattern and its
    pattern compiles to the match pattern: a line number is in the MatchSet
    of the one exactly when it is in the map of the other, with the same
    text. *)
Theorem File_Scan_agrees_with_Data_Scan :
  forall (ls : list (list byte)) (m : Regexp) (ig : option Regexp)
         (fs : FileSystem) (dfs : data.FileSystem) (compile : data.Compiler)
         (filePath pattern : string) (e : option error),
    fs filePath = inr (mkReader ((fun l => (l, false)) <$> ls) AtEOF) ->
    dfs filePath = inr (data.mkScanner (string_of_list_byte <$> ls) e) ->
    compile pattern = inr (fun s => Match m (bytes s)) ->
    Z.of_nat (length ls) < 2 ^ 63 - 1 ->
    let f := Scan fs (newFile filePath (Some m) ig) in
    let isComment := fun s => ignored (newFile filePath (Some m) ig) (bytes s) in
    let d := data.Scan dfs compile isComment (data.New filePath pattern) in
    forall k l,
      MatchedLines f !! k = Some l <->
      data.linesContainingMatchString d !! k = Some (string_of_list_byte l).
Proof.
  intros ls m ig fs dfs compile filePath pattern e Hfs Hdfs Hc Hlen f isComment d k l.
  assert (Hlen' : Z.of_nat (length (logicalLines
             (results (mkReader ((fun l => (l, false)) <$> ls) AtEOF)) [])) < 2 ^ 63)
    by (simpl; rewrite logicalLines_whole; lia).
  unfold f at 1.
  rewrite (Scan_matchedLines_lookup fs filePath m ig _ k l Hfs Hlen').
  simpl results. rewrite logicalLines_whole.
  assert (Hlen2 : Z.of_nat (length (data.tokens
             (data.mkScanner (string_of_list_byte <$> ls) e))) < 2 ^ 63 - 1)
    by (simpl; rewrite length_fmap; exact Hlen).
  pose proof (data_Scan_lookup dfs compile isComment
                filePath pattern (data.mkScanner (string_of_list_byte <$> ls) e)
                (fun s => Match m (bytes s)) Hdfs Hc Hlen2 k (string_of_list_byte l)) as Hd.
  fold d in Hd. rewrite Hd. simpl data.tokens.
  unfold isComment.
  split; intros (i & Hk & Hi & Hign & Hm); exists i; (split; [exact Hk|]).
  - split; [rewrite list_lookup_fmap, Hi; reflexivity|].
    unfold bytes. rewrite list_byte_of_string_of_list_byte.
    split; [exact Hign|exact Hm].
  - rewrite list_lookup_fmap in Hi.
    destruct (ls !! i) as [l'|] eqn:Hl'; [|discriminate].
    injection Hi as Hi.
    assert (l' = l) as ->.
    { rewrite <- (list_byte_of_string_of_list_byte l'), Hi.
      apply list_byte_of_string_of_list_byte. }
    unfold bytes in Hign, Hm. rewrite list_byte_of_string_of_list_byte in Hign, Hm.
    split; [reflexivity|]. split; [exact Hign|exact Hm].
Qed.

Lemma File_Scan_agrees_with_Data_Scan_witness :
  let ls := [bytes "// x"; bytes "é"] in
  let fs := oneFile "a.go" (mkReader ((fun l => (l, false)) <$> ls) AtEOF) in
  let dfs : data.FileSystem :=
    fun _ => inr (data.mkScanner (string_of_list_byte <$> ls) None) in
  let f := Scan fs (newFile "a.go" (Some nonASCII) (Some slashes)) in
  let isComment := fun s => ignored (newFile "a.go" (Some nonASCII) (Some slashes)) (bytes s) in
  let d := data.Scan dfs exampleCompile isComment (data.New "a.go" "[^\x00-\x7F]") in
  MatchedLines f !! 2 = Some (bytes "é") <->
  data.linesContainingMatchString d !! 2 = Some (string_of_list_byte (bytes "é")).
Proof.
  intros ls fs dfs f isComment d.
  apply (File_Scan_agrees_with_Data_Scan ls nonASCII (Some slashes) fs dfs exampleCompile
           "a.go" "[^\x00-\x7F]" None eq_refl eq_refl eq_refl).
  vm_compute. reflexivity.
Defined.

(** X21.  An empty batch: with no path, no goroutine scans; the only step
    any schedule can take is the close of the channel, and the consumer
    receives nothing and no notification is logged. *)
Theorem ScanFiles_empty_batch :
  forall (fs : FileSystem) (m ig : option Regexp) (schedule : list Choice)
         (c : Coordinator),
    run fs m ig schedule (ScanFiles []) = Some c ->
    (schedule = [] \/ schedule = [RunCloser]) /\
    received c = [] /\ events c = [] /\
    (closed c = true <-> schedule = [RunCloser]).
Proof.
  intros fs m ig schedule c.
  destruct schedule as [|[i|] schedule]; simpl.
  - intros [= <-]. split; [left; reflexivity|]. repeat split; discriminate.
  - unfold stepTask. simpl. discriminate.
  - unfold stepCloser. simpl.
    destruct schedule as [|[i|] schedule]; simpl.
    + intros [= <-]. split; [right; reflexivity|]. repeat split; reflexivity.
    + unfold stepTask. simpl. discriminate.
    + discriminate.
Qed.

Lemma ScanFiles_empty_batch_witness :
  let fs : FileSystem := fun _ => inl ENOENT in
  let c := mkCoordinator [] 0 true [] [] in
  ([RunCloser] = [] \/ [RunCloser] = [RunCloser]) /\
  received c = [] /\ events c = [] /\
  (closed c = true <-> [RunCloser] = [RunCloser]).
Proof.
  intros fs c.
  exact (ScanFiles_empty_batch fs None None [RunCloser] c eq_refl).
Defined.

(** ** Patterns that do not compile: [main], [File.Scan] and [Data.Scan] *)

(** The failure of a scan of a file as [ScanFiles] builds it: none, or the
    error of the [open], or the error of a [read]. *)
Lemma Scan_newFile_error (fs : FileSystem) (p : string) (m ig : option Regexp) :
  Error (Scan fs (newFile p m ig)) = None \/
  (exists errno, Error (Scan fs (newFile p m ig)) = Some (PathError "open" p errno)) \/
  (exists errno, Error (Scan fs (newFile p m ig)) = Some (PathError "read" p errno)).
Proof.
  unfold Scan, Error. simpl. destruct m as [m|]; [|left; reflexivity].
  destruct (fs p) as [errno|r].
  - right. left. exists errno. reflexivity.
  - rewrite scanLoop_scanError. destruct (ending r) as [|errno].
    + left. reflexivity.
    + right. right. exists errno. reflexivity.
Qed.

Lemma delivered_scanned fs m ig (filePaths : list string) : forall (ts : list Task) f,
  f ∈ delivered fs m ig filePaths ts -> exists p, p ∈ filePaths /\ f = scanned fs m ig p.
Proof.
  induction filePaths as [|p filePaths IH]; intros [|t ts] f Hf; simpl in Hf;
    try (apply elem_of_nil in Hf; contradiction).
  apply elem_of_app in Hf as [Hf|Hf].
  - exists p. split; [apply list_elem_of_here|].
    destruct t; simpl in Hf; try (apply elem_of_nil in Hf; contradiction);
      apply list_elem_of_singleton in Hf; exact Hf.
  - destruct (IH ts f Hf) as (q & Hq & ->). exists q.
    split; [apply list_elem_of_further, Hq|reflexivity].
Qed.

(** C8, as the code has it.  In [main] a failure of the compilation of the
    patterns is met at setup: [main] ends in [log.Fatal] with that error
    before any batch is scanned, whatever the files, the batches and the
    schedules.  [File.Scan] is given compiled patterns: the failure of a
    result [ScanFiles] delivers is the error of an [open] or of a [read],
    never the error of a compilation.  [Data.Scan] is given the pattern as
    text and compiles it at each line it tests: when the pattern does not
    compile, the file opens and has a line that is not a comment, the error
    of the compilation is the [ScanError] of that file and the scan is not
    completed. *)
Theorem pattern_failure_reported_by_Data_Scan :
  (forall (fs : FileSystem) (opts : Options) (m ig : option Regexp) (e : error)
          (chunks : list (list string)) (schedules : list (list Choice)),
     mainScan fs opts (m, ig, Some e) chunks schedules = Some (LogFatal e)) /\
  (forall (fs : FileSystem) (f : File),
     (forall code e, scanError f <> Some (syntax_Error code e)) ->
     forall code e, Error (Scan fs f) <> Some (syntax_Error code e)) /\
  (forall (fs : FileSystem) (m ig : option Regexp) (filePaths : list string)
          (schedule : list Choice) (c : Coordinator) (f : File),
     run fs m ig schedule (ScanFiles filePaths) = Some c ->
     f ∈ received c ->
     Error f = None \/
     (exists errno, Error f = Some (PathError "open" (path f) errno)) \/
     (exists errno, Error f = Some (PathError "read" (path f) errno))) /\
  (forall (fs : data.FileSystem) compile fn (d : data.Data) scanner code e,
     fs (data.path d) = inr scanner ->
     compile (data.matchString d) = inl (code, e) ->
     (exists l, l ∈ data.tokens scanner /\ fn l = false) ->
     data.ScanError (data.Scan fs compile fn d) = Some (syntax_Error code e) /\
     data.isScanned (data.Scan fs compile fn d) = data.isScanned d).
Proof.
  split; [reflexivity|]. split; [|split].
  - intros fs f Hf code e. unfold Error.
    destruct (Scan_scanError_cases fs f) as [->|(op & errno & ->)];
      [apply Hf|discriminate].
  - intros fs m ig filePaths schedule c f Hrun Hf.
    pose proof (reachable_ok fs m ig filePaths schedule c Hrun) as (_ & _ & Hrecv & _).
    rewrite Hrecv in Hf.
    apply delivered_scanned in Hf as (p & _ & ->).
    rewrite scanned_path. apply Scan_newFile_error.
  - intros fs compile fn d scanner code e Hfs Hc Hl.
    unfold data.Scan. rewrite Hfs.
    rewrite (data_scanLoop_pattern_error compile fn code e _ 1 d Hc Hl).
    split; reflexivity.
Qed.

Lemma pattern_failure_reported_by_Data_Scan_witness :
  let fs : data.FileSystem := fun _ => inr (data.mkScanner ["x := 1"] None) in
  let d := data.New "a.go" "(" in
  let unreadable : FileSystem := fun _ => inl EACCES in
  data.ScanError (data.Scan fs exampleCompile (fun _ => false) d)
    = Some (syntax_Error "missing closing )" "(") /\
  data.isScanned (data.Scan fs exampleCompile (fun _ => false) d) = data.isScanned d /\
  mainScan unreadable (mkOptions false false)
           (None, None, Some (syntax_Error "missing closing )" "(")) [["a.go"]] []
    = Some (LogFatal (syntax_Error "missing closing )" "(")).
Proof.
  intros fs d unreadable.
  destruct pattern_failure_reported_by_Data_Scan as (Hmain & _ & _ & Hdata).
  destruct (Hdata fs exampleCompile (fun _ => false) d (data.mkScanner ["x := 1"] None)
              "missing closing )"%string "("%string) as [He Hs].
  - reflexivity.
  - reflexivity.
  - exists "x := 1"%string. split; [apply list_elem_of_here|reflexivity].
  - split; [exact He|]. split; [exact Hs|]. apply Hmain.
Defined.

(** C8 fails as stated: the scan of one file by [Data.Scan] reports the
    pattern that does not compile as the failure of that file. *)
Lemma Data_Scan_reports_pattern_failure :
  let fs : data.FileSystem := fun _ => inr (data.mkScanner ["x := 1"] None) in
  data.ScanError (data.Scan fs exampleCompile (fun _ => false) (data.New "a.go" "("))
    = Some (syntax_Error "missing closing )" "(").
Proof. reflexivity. Qed.

(** ** The numbers [main] prints *)

Lemma filter_length_le (test : File -> bool) (l : list File) :
  (length (List.filter test l) ≤ length l)%nat.
Proof.
  induction l as [|x l IH]; simpl; [lia|]. destruct (test x); simpl; lia.
Qed.

(** After the two loops of [main]: the heap holds the scans of the paths of
    all batches that have no failure and a MatchSet that is not empty, and
    the counter has counted the scans that failed. *)
Lemma scanChunks_spec fs m ig opts chunks : forall schedules a a',
  heapOrdered (Len (filesContainingKorean a)) (filesContainingKorean a) ->
  scanChunks fs m ig opts chunks schedules a = Some a' ->
  filesContainingKorean a' ≡ₚ
    List.filter reported (scanned fs m ig <$> mjoin chunks) ++ filesContainingKorean a /\
  heapOrdered (Len (filesContainingKorean a')) (filesContainingKorean a') /\
  (0 <= scanErrorsCnt a ->
   scanErrorsCnt a + Z.of_nat (length (mjoin chunks)) < 2 ^ 63 ->
   scanErrorsCnt a' =
     scanErrorsCnt a +
     Z.of_nat (length (List.filter failed (scanned fs m ig <$> mjoin chunks)))).
Proof.
  induction chunks as [|paths chunks IH]; intros schedules a a' Hh.
  - simpl. intros [= <-]. split; [reflexivity|]. split; [exact Hh|]. intros; lia.
  - destruct schedules as [|schedule schedules]; [discriminate|].
    cbn [scanChunks].
    destruct (run fs m ig schedule (ScanFiles paths)) as [c|] eqn:Hrun; [|discriminate].
    cbn [mbind option_bind].
    destruct (closed c) eqn:Hc; [|discriminate].
    destruct (aggregateAll_spec opts (received c) a Hh) as (a1 & Hagg & Hperm1 & Hh1 & Hcnt1 & _).
    rewrite Hagg. cbn [mbind option_bind]. intros Hrest.
    destruct (IH schedules a1 a' Hh1 Hrest) as (Hperm & Hh' & Hcnt).
    destruct (coordinated_closed fs m ig paths c
                (reachable_ok fs m ig paths schedule c Hrun) Hc) as [_ Hrecv].
    assert (Hjoin : mjoin (paths :: chunks) = paths ++ mjoin chunks) by reflexivity.
    rewrite Hjoin, fmap_app, !List.filter_app, !length_app.
    split; [|split; [exact Hh'|]].
    + rewrite Hperm, Hperm1, (filter_Permutation reported _ _ Hrecv).
      rewrite !app_assoc. apply Permutation_app_tail, Permutation_app_comm.
    + intros H0 Hbound.
      pose proof (Permutation_length Hrecv) as Hlen. rewrite length_fmap in Hlen.
      pose proof (Permutation_length (filter_Permutation failed _ _ Hrecv)) as Hfail.
      pose proof (filter_length_le failed (received c)) as Hle.
      rewrite Hcnt1 in Hcnt by lia. rewrite Hcnt by lia. lia.
Qed.

(** X13.  The numbers [main] prints, when the patterns compiled and every
    batch ran to the close of its channel, the batches together being the
    files found (fewer than [2^63]): the number of files found, the number
    of them whose scan failed, the number whose scan did not, and, with
    [ErrorOnly] set, the number of them with no failure and a MatchSet that
    is not empty, which is the size of the heap after the loops; without
    [ErrorOnly] the last number is the size of the heap as [file.PrintFiles]
    leaves it.  Failures and successes add up to the files found, and the
    heap has no more files than there are successes.  None of this depends
    on the schedules. *)
Theorem showNumbers_after_loop :
  forall (fs : FileSystem) (opts : Options) (m ig : option Regexp)
         (chunks : list (list string)) (schedules : list (list Choice))
         (a : Aggregate) (PrintFiles : list File -> list File) (foundFiles : list string),
    mainScan fs opts (m, ig, None) chunks schedules = Some (Completed a) ->
    mjoin chunks = foundFiles ->
    Z.of_nat (length foundFiles) < 2 ^ 63 ->
    let results := (fun p => Scan fs (newFile p m ig)) <$> foundFiles in
    let n := length foundFiles in
    let errors := length (List.filter failed results) in
    let successes := length (List.filter (fun f => negb (failed f)) results) in
    let matched := length (List.filter reported results) in
    mainNumbers opts PrintFiles (Z.of_nat n) a =
      [ Printf "[%d] scanning files\n" [Z.of_nat n];
        Printf "[%d] error \n" [Z.of_nat errors];
        Printf "[%d] success \n" [Z.of_nat successes];
        Printf "[%d] files containing korean\n"
          [Z.of_nat (if ErrorOnly opts then matched
                     else length (PrintFiles (filesContainingKorean a)))] ] /\
    length (filesContainingKorean a) = matched /\
    (errors + successes = n)%nat /\
    (matched ≤ successes)%nat.
Proof.
  intros fs opts m ig chunks schedules a PrintFiles foundFiles Hmain Hjoin Hlen
         results n errors successes matched.
  unfold mainScan in Hmain.
  destruct aggregate0_heap as (a0 & Ha0 & Hheap0 & Hcnt0 & _).
  rewrite Ha0 in Hmain. cbn [mbind option_bind] in Hmain.
  destruct (scanChunks fs m ig opts chunks schedules a0) as [a1|] eqn:Hscan;
    [|discriminate].
  cbn [mbind option_bind] in Hmain. injection Hmain as ->.
  destruct (scanChunks_spec fs m ig opts chunks schedules a0 a) as (Hperm & _ & Hcnt);
    [rewrite Hheap0; apply heapOrdered_nil|exact Hscan|].
  rewrite Hjoin, Hheap0, app_nil_r in Hperm. rewrite Hjoin, Hcnt0 in Hcnt.
  specialize (Hcnt ltac:(lia) ltac:(lia)).
  change (scanned fs m ig <$> foundFiles) with results in Hperm, Hcnt.
  fold errors in Hcnt.
  destruct (filter_failed_split results) as [Hsum Hle].
  assert (Hn : length results = n) by (unfold results; apply length_fmap).
  rewrite Hn in Hsum. fold errors successes matched in Hsum, Hle.
  assert (Hmatched : length (filesContainingKorean a) = matched)
    by (rewrite (Permutation_length Hperm); reflexivity).
  split; [|split; [exact Hmatched|split; [exact Hsum|exact Hle]]].
  unfold mainNumbers, showNumbers, Len. rewrite Hcnt.
  replace (wrap (Z.of_nat n - (0 + Z.of_nat errors))) with (Z.of_nat successes)
    by (unfold wrap; rewrite Z.mod_small by lia; lia).
  replace (0 + Z.of_nat errors) with (Z.of_nat errors) by lia.
  destruct (ErrorOnly opts); simpl negb; cbv iota; rewrite ?Hmatched; reflexivity.
Qed.

(** Two files in one batch, one that cannot be opened and one with a
    matching line, with [ErrorOnly] set. *)
Lemma showNumbers_after_loop_witness :
  let fs : FileSystem :=
    fun p => if String.eqb p "a.go" then inr (mkReader [(bytes "é", false)] AtEOF)
             else inl EACCES in
  let opts := mkOptions false true in
  let schedule := [RunTask 1; RunTask 1; RunTask 0; RunTask 1; RunTask 0; RunTask 0;
                   RunTask 0; RunTask 1; RunCloser]%nat in
  exists a,
    mainScan fs opts (Some nonASCII, None, None) [["a.go"; "b.go"]] [schedule]
      = Some (Completed a) /\
    mainNumbers opts (fun h => h) 2 a =
      [ Printf "[%d] scanning files\n" [2];
        Printf "[%d] error \n" [1];
        Printf "[%d] success \n" [1];
        Printf "[%d] files containing korean\n" [1] ].
Proof.
  intros fs opts schedule.
  destruct (mainScan fs opts (Some nonASCII, None, None) [["a.go"; "b.go"]] [schedule])
    as [[e|a]|] eqn:Hmain; try (exfalso; vm_compute in Hmain; discriminate).
  exists a. split; [reflexivity|].
  assert (Hlen : Z.of_nat (length ["a.go"; "b.go"]) < 2 ^ 63) by (simpl; lia).
  exact (proj1 (showNumbers_after_loop fs opts (Some nonASCII) None [["a.go"; "b.go"]]
                  [schedule] a (fun h => h) ["a.go"; "b.go"] Hmain eq_refl Hlen)).
Defined.
